(** * Hierarchical tensor-product spline basis (G+Smo, gsHTensorBasis.hpp)

    A shallow embedding of the activation and indexing part of
    [gsHTensorBasis<d,T>]: the per-level tensor bases, the characteristic
    matrices [m_xmatrix], the offset table [m_xmatrix_offset] and the
    operations that rebuild, query, compress and prune them.

    Conventions.
    - [gsVector<unsigned,d>] is a [list nat] of length [d]; container sizes,
      flat indices and offsets are natural numbers (the element types of the
      member containers are declared in gsHTensorBasis.h, outside the given
      sources).  Values whose C++ type is [int] and whose sign matters
      ([level] arguments, the result of [flatTensorIndexToHierachicalIndex])
      are in [Z], with the conversions between [int], [unsigned] and
      [size_t] written out.
    - Parameter values (type [T]) are rationals.
    - A failing [GISMO_ASSERT] is the result [AssertionFailed]; an access
      outside a container or a loop that does not end is [Undefined]. *)

From Stdlib Require Import QArith.
From Equations Require Import Equations.
From stdpp Require Import base numbers list sorting.

Local Open Scope nat_scope.

(** ** Results of fallible operations *)

Inductive result (A : Type) : Type :=
| Ok (a : A)
| AssertionFailed
| Undefined.
Arguments Ok {A} a.
Arguments AssertionFailed {A}.
Arguments Undefined {A}.

Global Instance result_ret : MRet result := @Ok.
Global Instance result_bind : MBind result := λ A B f m,
  match m with
  | Ok a => f a
  | AssertionFailed => AssertionFailed
  | Undefined => Undefined
  end.

Global Instance result_fmap : FMap result := λ A B f m,
  match m with
  | Ok a => Ok (f a)
  | AssertionFailed => AssertionFailed
  | Undefined => Undefined
  end.

(** The call fails an assertion or returns a value with [P]; it does not
    run into undefined behaviour. *)
Definition ok_or_assert {A : Type} (P : A → Prop) (r : result A) : Prop :=
  match r with
  | Ok a => P a
  | AssertionFailed => True
  | Undefined => False
  end.

(** [for (i = 0; i != n; i++) body(i)] over a threaded state. *)
Fixpoint for_loop {St : Type} (body : nat → St → result St) (i n : nat)
    (s : St) : result St :=
  match n with
  | 0 => Ok s
  | S n' => s' ← body i s; for_loop body (S i) n' s'
  end.

(** ** Knot vectors and tensor bases *)

Abbreviation point := (list nat) (only parsing).
Abbreviation CMatrix := (list nat) (only parsing).

(** Modelled from the spec: [gsKnotVector<T>] is declared outside the given
    sources.  A knot vector is its degree and its unique knots, increasing,
    each with a multiplicity; a [smart_iterator] is a position in the
    sequence of knots with repetitions, [index()] is that position and
    [uIndex()] the position of its knot among the unique knots. *)
Record gsKnotVector := KnotVector {
  kv_degree : nat;
  kv_knots : list (Q * nat)
}.

Definition kv_mults (kv : gsKnotVector) : list nat := (kv_knots kv).*2.
Definition kv_values (kv : gsKnotVector) : list Q := (kv_knots kv).*1.
Definition kv_size (kv : gsKnotVector) : nat := sum_list (kv_mults kv).
Definition uSize (kv : gsKnotVector) : nat := length (kv_knots kv).

Fixpoint uIndex_in (ms : list nat) (p : nat) : nat :=
  match ms with
  | [] => 0
  | m :: ms' => if decide (p < m) then 0 else S (uIndex_in ms' (p - m))
  end.
Definition uIndex (kv : gsKnotVector) (p : nat) : nat :=
  uIndex_in (kv_mults kv) p.

(** Modelled from the spec: one uniform dyadic refinement puts one new knot,
    of multiplicity [mul], in the middle of every knot span
    ([uniformRefine(1, mul)] of the absent gsKnotVector). *)
Fixpoint knots_uniformRefine (mul : nat) (ks : list (Q * nat)) : list (Q * nat) :=
  match ks with
  | [] => []
  | a :: rest =>
      match rest with
      | [] => [a]
      | b :: _ =>
          a :: (Qdiv (Qplus a.1 b.1) (2 # 1), mul) :: knots_uniformRefine mul rest
      end
  end.
Definition kv_uniformRefine (mul : nat) (kv : gsKnotVector) : gsKnotVector :=
  KnotVector (kv_degree kv) (knots_uniformRefine mul (kv_knots kv)).

(** [gsTensorBSplineBasis<d,T>]: one knot vector per direction. *)
Abbreviation tensorBasis := (list gsKnotVector) (only parsing).

Definition tb_uniformRefine (mul : nat) (b : tensorBasis) : tensorBasis :=
  kv_uniformRefine mul <$> b.

(** [component(i).size()]: the number of univariate functions, the number
    of knots minus the degree minus one. *)
Definition component_size (kv : gsKnotVector) : nat :=
  kv_size kv - kv_degree kv - 1.
Definition tb_sizes (b : tensorBasis) : list nat := component_size <$> b.

(** Modelled from the spec: [gsTensorBasis::index(v)] is outside the given
    sources; strides convert a tensor index into its flat (lexicographic)
    index, the first coordinate running fastest. *)
Fixpoint index_in (sizes : list nat) (v : list nat) : nat :=
  match sizes, v with
  | s :: ss, k :: ks => k + s * index_in ss ks
  | _, _ => 0
  end.
Definition tb_index (b : tensorBasis) (v : list nat) : nat :=
  index_in (tb_sizes b) v.

(** Modelled from the spec: [nextLexicographic(cur, start, end)] of
    gsCombinatorics.h, outside the given sources, steps [cur] to the next
    tensor index of the grid [start, end), first coordinate fastest; [None]
    is the C++ [false] (no tuple left). *)
Fixpoint nextLexicographic (cur starts ends : list nat) : option (list nat) :=
  match cur, starts, ends with
  | c :: cs, s :: ss, e :: es =>
      if decide (S c = e) then
        match cs with
        | [] => None
        | _ => cons s <$> nextLexicographic cs ss es
        end
      else Some (S c :: cs)
  | _, _, _ => None
  end.

(** ** The partition tree, by its interface

    [gsHDomain<d>] is outside the given sources; the basis uses it through
    these member functions only.  Modelled from the spec: the tree fails an
    assertion on a malformed box, so [sinkBox] and [insertBox] return [None]
    for a box they reject. *)
Class HDomain := {
  hdomain : Type;
  tree_init : point → hdomain;
  query3 : hdomain → point → point → nat → nat;
  getMaxInsLevel : hdomain → nat;
  tree_makeCompressed : hdomain → hdomain;
  sinkBox : hdomain → point → point → nat → option hdomain;
  insertBox : hdomain → point → point → nat → option hdomain;
  multiplyByTwo : hdomain → hdomain;
  decrementLevel : hdomain → hdomain
}.

Section Basis.
Context `{HDomain}.

(** ** The state of a [gsHTensorBasis] *)
Record gsHTensorBasis := HTensorBasis {
  m_deg : list nat;
  m_bases : list tensorBasis;
  m_tree : hdomain;
  m_xmatrix : list CMatrix;
  m_xmatrix_offset : list nat
}.

Definition set_bases (st : gsHTensorBasis) (bs : list tensorBasis) :=
  HTensorBasis (m_deg st) bs (m_tree st) (m_xmatrix st) (m_xmatrix_offset st).
Definition set_tree (st : gsHTensorBasis) (t : hdomain) :=
  HTensorBasis (m_deg st) (m_bases st) t (m_xmatrix st) (m_xmatrix_offset st).
Definition set_xmatrix (st : gsHTensorBasis) (xm : list CMatrix) :=
  HTensorBasis (m_deg st) (m_bases st) (m_tree st) xm (m_xmatrix_offset st).
Definition set_offset (st : gsHTensorBasis) (offs : list nat) :=
  HTensorBasis (m_deg st) (m_bases st) (m_tree st) (m_xmatrix st) offs.

(** [size()] returns [m_xmatrix_offset.back()]. *)
Definition size (st : gsHTensorBasis) : result nat :=
  match last (m_xmatrix_offset st) with
  | Some n => Ok n
  | None => Undefined
  end.

(** [needLevel(maxLevel)]: append refined clones of the last basis until
    [maxLevel + 1] bases exist. *)
Fixpoint needLevel_loop (extra : nat) (bases : list tensorBasis)
  : result (list tensorBasis) :=
  match extra with
  | 0 => Ok bases
  | S n =>
      match last bases with
      | None => Undefined
      | Some b => needLevel_loop n (bases ++ [tb_uniformRefine 1 b])
      end
  end.
Definition needLevel (maxLevel : nat) (st : gsHTensorBasis)
  : result gsHTensorBasis :=
  bs ← needLevel_loop (maxLevel + 1 - length (m_bases st)) (m_bases st);
  Ok (set_bases st bs).

(** The support of the function at iterator positions [curr], in unique
    knot indices of its level, as [set_activ1] computes it. *)
Definition support_low (b : tensorBasis) (curr : list nat) : point :=
  zip_with uIndex b curr.
Definition support_upp (deg : list nat) (b : tensorBasis) (curr : list nat)
  : point :=
  zip_with (λ kvp c, uIndex kvp.1 (c + kvp.2 + 1)) (zip b deg) curr.

Definition activ_starts (b : tensorBasis) : list nat := (λ _, 0) <$> b.
Definition activ_ends (deg : list nat) (b : tensorBasis) : list nat :=
  zip_with (λ kv p, kv_size kv - p - 1) b deg.

(** The body and the do-while loop of [set_activ1]; the loop is cut after
    [fuel] rounds. *)
Definition activ_body (t : hdomain) (deg : list nat) (b : tensorBasis)
    (level : nat) (curr : list nat) (cmat : CMatrix) : CMatrix :=
  if decide (query3 t (support_low b curr) (support_upp deg b curr) level = level)
  then cmat ++ [tb_index b curr]
  else cmat.

Fixpoint activ_loop (fuel : nat) (t : hdomain) (deg : list nat)
    (b : tensorBasis) (level : nat) (curr : list nat) (cmat : CMatrix)
  : result CMatrix :=
  match fuel with
  | 0 => Undefined
  | S fuel' =>
      let cmat' := activ_body t deg b level curr cmat in
      match nextLexicographic curr (activ_starts b) (activ_ends deg b) with
      | Some curr' => activ_loop fuel' t deg b level curr' cmat'
      | None => Ok cmat'
      end
  end.

(** [gsSortedVector::sort()]. *)
Definition cmat_sort (cmat : CMatrix) : CMatrix := merge_sort Nat.le cmat.

Definition set_activ1 (level : nat) (st : gsHTensorBasis)
  : result gsHTensorBasis :=
  match m_xmatrix st !! level with
  | None => Undefined
  | Some _ =>
      if decide (getMaxInsLevel (m_tree st) < level) then
        Ok (set_xmatrix st (<[level := []]> (m_xmatrix st)))
      else
        match m_bases st !! level with
        | None => Undefined
        | Some b =>
            cmat ← activ_loop (foldr Nat.mul 1 (activ_ends (m_deg st) b))
                     (m_tree st) (m_deg st) b level (activ_starts b) [];
            Ok (set_xmatrix st (<[level := cmat_sort cmat]> (m_xmatrix st)))
        end
  end.

(** The offsets loop of [update_structure]. *)
Definition push_offset (offs : list nat) (cmat : CMatrix) : list nat :=
  offs ++ [default 0 (last offs) + length cmat].
Definition compute_offsets (xm : list CMatrix) : list nat :=
  foldl push_offset [0] xm.

Definition update_structure (st : gsHTensorBasis) : result gsHTensorBasis :=
  st1 ← needLevel (getMaxInsLevel (m_tree st)) st;
  let st2 := set_xmatrix st1 (replicate (length (m_bases st1)) []) in
  let st3 := set_tree st2 (tree_makeCompressed (m_tree st2)) in
  st4 ← for_loop set_activ1 0 (length (m_xmatrix st3)) st3;
  Ok (set_offset st4 (compute_offsets (m_xmatrix st4))).

(** ** Looking up hierarchical indices *)

(** Conversions between [int] and the unsigned types. *)
Definition to_unsigned (z : Z) : Z := (z mod 2 ^ 32)%Z.
Definition to_size_t (z : Z) : Z := (z mod 2 ^ 64)%Z.
Definition to_int (z : Z) : Z := ((z + 2 ^ 31) mod 2 ^ 32 - 2 ^ 31)%Z.
Definition INT_MAX : Z := (2 ^ 31 - 1)%Z.

(** The loop shared by [std::lower_bound] and [std::upper_bound]: halve the
    range [first, first + len), going right while [go_right] holds at the
    middle. *)
Equations? bound_search (go_right : nat → bool) (first len : nat) : nat
  by wf len lt :=
  bound_search go_right first 0 := first;
  bound_search go_right first (S n) with go_right (first + S n / 2) := {
    | true := bound_search go_right (first + S n / 2 + 1) (S n - S n / 2 - 1);
    | false := bound_search go_right first (S n / 2) }.
Proof.
  - lia.
  - apply Nat.div_lt; lia.
Qed.

(** [std::lower_bound(v.begin(), v.end(), val) - v.begin()]. *)
Definition lower_bound (v : list nat) (val : nat) : nat :=
  bound_search (λ i, match v !! i with
                     | Some x => bool_decide (x < val)
                     | None => false
                     end) 0 (length v).

(** [std::upper_bound] over the unique knots with positions in
    [first, last). *)
Definition upper_bound (vals : list Q) (first last : nat) (x : Q) : nat :=
  bound_search (λ i, match vals !! i with
                     | Some v => negb (if Qlt_le_dec x v then true else false)
                     | None => false
                     end) first (last - first).

Definition flatTensorIndexToHierachicalIndex (st : gsHTensorBasis)
    (index : nat) (level : Z) : result Z :=
  if decide (Z.of_nat (length (m_xmatrix st)) ≤ to_unsigned level)%Z then
    Ok (-1)%Z
  else
    let lvl := Z.to_nat (to_size_t level) in
    match m_xmatrix st !! lvl with
    | None => Undefined
    | Some cmat =>
        let it := lower_bound cmat index in
        match cmat !! it with
        | None => Ok (-1)%Z
        | Some x =>
            if decide (x ≠ index) then Ok (-1)%Z
            else
              match m_xmatrix_offset st !! lvl with
              | None => Undefined
              | Some off => Ok (to_int (Z.of_nat (off + it)))
              end
        end
    end.

(** The merging loop of the batch form: [inds] is what is left of the
    sorted indexes, [xmat] what is left of the active set and [index] the
    position reached in it. *)
Equations? hierarchical_indexes_loop (off : nat) (inds : list Z)
    (xmat : list nat) (index : nat) : list Z
  by wf (length inds + length xmat) lt :=
  hierarchical_indexes_loop off [] xmat index := [];
  hierarchical_indexes_loop off (i :: inds) [] index :=
    (-1)%Z :: ((λ _, (-1)%Z) <$> inds);
  hierarchical_indexes_loop off (i :: inds) (x :: xmat) index
    with decide (i < to_int (Z.of_nat x))%Z := {
    | left _ := (-1)%Z :: hierarchical_indexes_loop off inds (x :: xmat) index;
    | right _ with decide (i = to_int (Z.of_nat x)) := {
      | left _ := to_int (Z.of_nat (off + index))
                  :: hierarchical_indexes_loop off inds xmat (index + 1);
      | right _ := hierarchical_indexes_loop off (i :: inds) xmat (index + 1) } }.
Proof. all: simpl; lia. Qed.

Definition flatTensorIndexesToHierachicalIndexes (st : gsHTensorBasis)
    (indexes : list Z) (level : Z) : result (list Z) :=
  if decide (to_size_t level < Z.of_nat (length (m_xmatrix st)))%Z then
    let lvl := Z.to_nat (to_size_t level) in
    match m_xmatrix st !! lvl, m_xmatrix_offset st !! lvl with
    | Some cmat, Some off => Ok (hierarchical_indexes_loop off indexes cmat 0)
    | _, _ => Undefined
    end
  else AssertionFailed.

(** ** Compression, transfer and uniform refinement *)

(** The loop of [makeCompressed]: while [m_xmatrix_offset[1]] is zero, erase
    the front of the bases, of the characteristic matrices and of the
    offsets, and decrement the levels of the tree. *)
Fixpoint makeCompressed_loop (deg : list nat) (offs : list nat)
    (bases : list tensorBasis) (t : hdomain) (xm : list CMatrix)
  : result gsHTensorBasis :=
  match offs with
  | [] => Undefined
  | _ :: offs' =>
      match offs' with
      | [] => Undefined
      | o1 :: _ =>
          if decide (o1 = 0) then
            match bases, xm with
            | _ :: bases', _ :: xm' =>
                makeCompressed_loop deg offs' bases' (decrementLevel t) xm'
            | _, _ => Undefined
            end
          else Ok (HTensorBasis deg bases t xm offs)
      end
  end.
Definition makeCompressed (st : gsHTensorBasis) : result gsHTensorBasis :=
  makeCompressed_loop (m_deg st) (m_xmatrix_offset st) (m_bases st)
    (m_tree st) (m_xmatrix st).

(** [while (old.size() >= m_xmatrix.size()) m_xmatrix.push_back(empty)]. *)
Definition pad_xmatrix (old_size : nat) (xm : list CMatrix) : list CMatrix :=
  xm ++ replicate (old_size + 1 - length xm) [].

(** [while (m_xmatrix.back().size() == 0) m_xmatrix.pop_back()], on the
    reversed vector. *)
Fixpoint pop_empty (rxm : list CMatrix) : result (list CMatrix) :=
  match rxm with
  | [] => Undefined
  | c :: rxm' => if decide (length c = 0) then pop_empty rxm' else Ok rxm
  end.
Definition drop_empty_tail (xm : list CMatrix) : result (list CMatrix) :=
  rxm ← pop_empty (reverse xm); Ok (reverse rxm).

(** The effect of [transfer(old, result)] on the basis.  The matrix itself
    comes from [coarsening_direct], a const member outside the given
    sources, and is not part of the state. *)
Definition transfer (old : list CMatrix) (st : gsHTensorBasis)
  : result gsHTensorBasis :=
  st1 ← needLevel (length old) st;
  _ ← (if decide (m_bases st1 = []) then Undefined else Ok ());
  let xm := pad_xmatrix (length old) (m_xmatrix st1) in
  xm' ← drop_empty_tail xm;
  let bases :=
    if decide (length xm' < length (m_bases st1))
    then take (length xm') (m_bases st1)
    else m_bases st1 in
  Ok (set_bases (set_xmatrix st1 xm') bases).

Definition transfer2 (old : list CMatrix) (st : gsHTensorBasis)
  : result gsHTensorBasis :=
  st1 ← needLevel (length old) st;
  _ ← (if decide (m_bases st1 = []) then Undefined else Ok ());
  Ok (set_xmatrix st1 (pad_xmatrix (length old) (m_xmatrix st1))).

Definition uniformRefine (numKnots : Z) (mul : nat) (st : gsHTensorBasis)
  : result gsHTensorBasis :=
  if decide (numKnots ≠ 1%Z) then AssertionFailed
  else if decide (¬ getMaxInsLevel (m_tree st) < length (m_bases st)) then
    AssertionFailed
  else
    match m_bases st with
    | [] => Undefined
    | _ :: bases' =>
        match last bases' with
        | None => Undefined
        | Some b =>
            update_structure
              (set_tree (set_bases st (bases' ++ [tb_uniformRefine mul b]))
                 (multiplyByTwo (m_tree st)))
        end
    end.

(** ** Refinement by parametric boxes *)

(** Unique-knot positions of the two ends of the parametric domain
    ([domainUBegin()] and [domainUEnd()]). *)
Definition domain_begin (kv : gsKnotVector) : nat := uIndex kv (kv_degree kv).
Definition domain_end (kv : gsKnotVector) : nat :=
  uIndex kv (kv_size kv - kv_degree kv - 1).

(** [gsMatrix<T>]: the numbers of rows and columns and the entries;
    [boxes(j, c)] is [mat_entry boxes j c]. *)
Record gsMatrix := Matrix {
  mat_rows : nat;
  mat_cols : nat;
  mat_entry : nat → nat → Q
}.
Definition mat_col (m : gsMatrix) (c : nat) : list Q :=
  (λ j, mat_entry m j c) <$> seq 0 (mat_rows m).

(** The matrix of [rows] rows with the given columns. *)
Definition matrix_of_columns (rows : nat) (cols : list (list Q)) : gsMatrix :=
  Matrix rows (length cols)
    (λ j c, default (0 # 1) (default [] (cols !! c) !! j)).

(** Modelled from the spec: the knot iterators are outside the given
    sources.  [(it - 1).uIndex()] for the iterator at unique position [pos],
    stored in an [unsigned]: the position before, and for the position
    before the first unique knot the index -1, which an [unsigned] holds as
    [2^32 - 1]. *)
Definition index_before (pos : nat) : Z := to_unsigned (Z.of_nat pos - 1).

(** The knot indices [k1[j]], [k2[j]] that [refine(boxes)] computes in one
    direction, before the test for a trivial box. *)
Definition corner_indices (kv : gsKnotVector) (lo hi : Q) : Z * Z :=
  (index_before
     (upper_bound (kv_values kv) (domain_begin kv) (domain_end kv) lo),
   index_before
     (upper_bound (kv_values kv) (domain_begin kv) (domain_end kv + 1) hi)).

(** "Trivial boxes trigger some refinement": [--k1[j]] unless it is 0, and
    [++k2[j]], in [unsigned]. *)
Definition expand_trivial (k : Z * Z) : Z * Z :=
  if decide (k.1 = k.2) then
    ((if decide (0 ≠ k.1)%Z then to_unsigned (k.1 - 1) else k.1),
     to_unsigned (k.2 + 1))
  else k.

Definition sink_indices (kv : gsKnotVector) (lo hi : Q) : Z * Z :=
  expand_trivial (corner_indices kv lo hi).

(** The boxes of [boxes]: the columns two by two, [boxes.cols()/2] of
    them. *)
Definition column_pairs (boxes : gsMatrix) : list (list Q * list Q) :=
  (λ i, (mat_col boxes (2 * i), mat_col boxes (2 * i + 1)))
    <$> seq 0 (mat_cols boxes `div` 2).

Definition in_domain (kv : gsKnotVector) (lo hi : Q) : bool :=
  match kv_values kv !! domain_begin kv, kv_values kv !! domain_end kv with
  | Some a, Some b => Qle_bool a lo && Qle_bool hi b
  | _, _ => false
  end.

Definition box_in_domain (b0 : tensorBasis) (box : list Q * list Q) : bool :=
  forallb (λ x, x)
    (zip_with (λ kv lh, in_domain kv lh.1 lh.2) b0 (zip box.1 box.2)).

(** The indices of the box handed to [sinkBox] for one parametric box. *)
Definition sunk_box (finest : tensorBasis) (box : list Q * list Q)
  : point * point :=
  let ks := zip_with (λ kv lh, sink_indices kv lh.1 lh.2) finest
              (zip box.1 box.2) in
  (Z.to_nat <$> ks.*1, Z.to_nat <$> ks.*2).

Definition refine_box (st : gsHTensorBasis) (box : list Q * list Q)
  : result gsHTensorBasis :=
  match last (m_bases st) with
  | None => Undefined
  | Some finest =>
      let fLevel := length (m_bases st) - 1 in
      let k := sunk_box finest box in
      match sinkBox (m_tree st) k.1 k.2 fLevel with
      | None => AssertionFailed
      | Some t => needLevel (getMaxInsLevel t) (set_tree st t)
      end
  end.

Fixpoint refine_boxes (boxes : list (list Q * list Q)) (st : gsHTensorBasis)
  : result gsHTensorBasis :=
  match boxes with
  | [] => Ok st
  | box :: boxes' => st' ← refine_box st box; refine_boxes boxes' st'
  end.

(** [refine(boxes)]. *)
Definition refine (boxes : gsMatrix) (st : gsHTensorBasis)
  : result gsHTensorBasis :=
  if decide (mat_rows boxes ≠ length (m_deg st)) then AssertionFailed
  else if decide (mat_cols boxes `mod` 2 ≠ 0) then AssertionFailed
  else
    match m_bases st with
    | [] => Undefined
    | b0 :: _ =>
        if forallb (box_in_domain b0) (column_pairs boxes) then
          st' ← refine_boxes (column_pairs boxes) st; update_structure st'
        else AssertionFailed
    end.

(** ** Construction *)

Definition initialize_class (tbasis : tensorBasis) : gsHTensorBasis :=
  let b1 := tb_uniformRefine 1 tbasis in
  let b2 := tb_uniformRefine 1 b1 in
  HTensorBasis (kv_degree <$> tbasis) [tbasis; b1; b2]
    (tree_init ((λ kv, uSize kv - 1) <$> tbasis)) [] [].

(** Modelled from the spec: the constructor (declared in gsHTensorBasis.h,
    outside the given sources) creates the tree and the per-level arrays
    together: it runs [initialize_class] and then [update_structure]. *)
Definition construct (tbasis : tensorBasis) : result gsHTensorBasis :=
  update_structure (initialize_class tbasis).

(** ** Well-formed bases and tensor indices *)

(** A knot vector with at least one basis function. *)
Definition has_functions (kv : gsKnotVector) : Prop :=
  kv_degree kv + 2 ≤ kv_size kv.

(** Every level has one knot vector per direction, of the degree stored in
    [m_deg], with at least one basis function. *)
Definition wf_tensorBasis (deg : list nat) (b : tensorBasis) : Prop :=
  Forall2 (λ kv p, kv_degree kv = p ∧ p + 2 ≤ kv_size kv) b deg.
Definition wf_basis (st : gsHTensorBasis) : Prop :=
  m_bases st ≠ [] ∧ Forall (wf_tensorBasis (m_deg st)) (m_bases st).

(** [k] is the tensor index of a function of the tensor basis [b]. *)
Definition tensor_index (b : tensorBasis) (k : list nat) : Prop :=
  Forall2 lt k (tb_sizes b).

(** The activity test of [set_activ1] for the function with tensor index
    [k]: the query on its support box returns the level itself. *)
Definition is_active (t : hdomain) (deg : list nat) (b : tensorBasis)
    (level : nat) (k : list nat) : Prop :=
  query3 t (support_low b k) (support_upp deg b k) level = level.

(** What [set_activ1] leaves in [m_xmatrix[level]]: a sorted vector holding
    the flat indices of the active functions, and nothing above the highest
    level of the tree. *)
Definition level_exact (t : hdomain) (deg : list nat) (level : nat)
    (b : tensorBasis) (cmat : CMatrix) : Prop :=
  Sorted Nat.le cmat ∧
  ∀ x, x ∈ cmat ↔
    level ≤ getMaxInsLevel t ∧
    ∃ k, tensor_index b k ∧ is_active t deg b level k ∧ x = tb_index b k.



(** The prefix sums of the sizes of the characteristic matrices, starting
    from [o]. *)
Fixpoint offsets_from (o : nat) (xm : list CMatrix) : list nat :=
  o :: match xm with
       | [] => []
       | cmat :: xm' => offsets_from (o + length cmat) xm'
       end.

(** What the basis relies on from the tree: a new tree holds level 0 only,
    and compressing the tree does not change its highest level. *)
Class HDomainLaws : Prop := {
  init_maxLevel : ∀ upp, getMaxInsLevel (tree_init upp) = 0;
  compress_maxLevel :
    ∀ t, getMaxInsLevel (tree_makeCompressed t) = getMaxInsLevel t
}.

(** The number of elements of a sorted vector that are below [x]: the
    position of [x] when it is an element. *)
Definition rank (cmat : CMatrix) (x : nat) : nat :=
  length (filter (λ y, y < x) cmat).

End Basis.

(** ** A partition tree given by the level of every finest cell

    Modelled from the spec: gsHDomain is outside the given sources.  This
    instance of the interface keeps, for every cell of the index grid
    (level-0 cells doubled [ct_index] times), the level assigned to it.  A
    box given in level-[l] units is scaled to the index grid; a query returns
    the lowest level found on the cells of the box, and the highest level of
    the tree for a box without cells; sinking or inserting a malformed box
    is rejected. *)
Record CellTree := {
  ct_index : nat;
  ct_upp : point;
  ct_level : point → nat
}.

Definition scale_point (il l : nat) (p : point) : point :=
  (λ x, x * 2 ^ (il - l)) <$> p.

Fixpoint cells_in (lo hi : point) : list point :=
  match lo, hi with
  | l :: lo', h :: hi' =>
      c ← seq l (h - l); cons c <$> cells_in lo' hi'
  | _, _ => [[]]
  end.

Definition cell_inside (lo hi c : point) : bool :=
  forallb (λ x, x) (zip_with (λ l x, bool_decide (l ≤ x)) lo c)
  && forallb (λ x, x) (zip_with (λ x h, bool_decide (x < h)) c hi).

Definition ct_maxLevel (t : CellTree) : nat :=
  foldr Nat.max 0 (ct_level t <$> cells_in ((λ _, 0) <$> ct_upp t) (ct_upp t)).

Definition ct_query3 (t : CellTree) (lo hi : point) (l : nat) : nat :=
  foldr Nat.min (ct_maxLevel t)
    (ct_level t <$> cells_in (scale_point (ct_index t) l lo)
                      (scale_point (ct_index t) l hi)).

Definition ct_update (f : nat → nat) (t : CellTree) (lo hi : point) (l : nat)
  : CellTree :=
  {| ct_index := ct_index t;
     ct_upp := ct_upp t;
     ct_level := λ c,
       if cell_inside (scale_point (ct_index t) l lo)
            (scale_point (ct_index t) l hi) c
       then f (ct_level t c) else ct_level t c |}.

(** A box with a lower index above the upper one in some direction. *)
Definition box_malformed (lo hi : point) : bool :=
  existsb (λ p, p.2 <? p.1) (zip lo hi).

Definition cell_tree (il : nat) : HDomain := {|
  hdomain := CellTree;
  tree_init := λ upp,
    {| ct_index := il; ct_upp := scale_point il 0 upp; ct_level := λ _, 0 |};
  query3 := ct_query3;
  getMaxInsLevel := ct_maxLevel;
  tree_makeCompressed := λ t, t;
  sinkBox := λ t lo hi l,
    if box_malformed lo hi then None else Some (ct_update S t lo hi l);
  insertBox := λ t lo hi l,
    if box_malformed lo hi then None
    else Some (ct_update (Nat.max l) t lo hi l);
  multiplyByTwo := λ t,
    {| ct_index := ct_index t;
       ct_upp := (λ x, 2 * x) <$> ct_upp t;
       ct_level := λ c, ct_level t ((λ x, x / 2) <$> c) |};
  decrementLevel := λ t,
    {| ct_index := ct_index t; ct_upp := ct_upp t;
       ct_level := λ c, pred (ct_level t c) |}
|}.

(** ** Sample bases *)

Module Samples.

(** Degree 1 on the knots 0 0 1 2 2: three hat functions. *)
Definition kv1 : gsKnotVector := KnotVector 1 [(0#1, 2); (1#1, 1); (2#1, 2)].
Definition tb1 : list gsKnotVector := [kv1].

(** [kv1] after two uniform refinements: the knots 0 0 1/4 ... 7/4 2 2. *)
Definition kv1_fine : gsKnotVector :=
  kv_uniformRefine 1 (kv_uniformRefine 1 kv1).
Definition tb1_fine : list gsKnotVector := [kv1_fine].

(** Trees over an index grid three levels below level 0. *)
Definition T3 : HDomain := cell_tree 3.
#[export] Existing Instance T3.

(** The one-dimensional basis over [tb1] before its first rebuild. *)
Definition fresh1 : gsHTensorBasis := initialize_class tb1.

(** The same basis after the left half of the domain went to level 1. *)
Definition half1 : gsHTensorBasis :=
  set_tree fresh1 (ct_update (Nat.max 1) (m_tree fresh1) [0] [2] 1).

(** The same basis after the whole domain went to level 1. *)
Definition full1 : gsHTensorBasis :=
  set_tree fresh1 (ct_update (Nat.max 1) (m_tree fresh1) [0] [4] 1).

(** The three bases after [update_structure]. *)
Definition fresh1_rebuilt : gsHTensorBasis :=
  set_offset (set_xmatrix fresh1 [[0; 1; 2]; []; []]) [0; 3; 3; 3].
Definition half1_rebuilt : gsHTensorBasis :=
  set_offset (set_xmatrix half1 [[1; 2]; [0; 1]; []]) [0; 2; 4; 4].
Definition full1_rebuilt : gsHTensorBasis :=
  set_offset (set_xmatrix full1 [[]; [0; 1; 2; 3; 4]; []]) [0; 0; 5; 5].



End Samples.

(** * Further operations

    The remaining operations of gsHTensorBasis.hpp that work on the same
    state. *)

Section Further.
Context `{HDomain}.

(** [insert_box(k1, k2, lvl)]. *)
Definition insert_box (k1 k2 : point) (lvl : nat) (st : gsHTensorBasis)
  : result gsHTensorBasis :=
  match insertBox (m_tree st) k1 k2 lvl with
  | None => AssertionFailed
  | Some t => needLevel (getMaxInsLevel t) (set_tree st t)
  end.

(** [refineElements(boxes)]: [boxes] holds records of [2*d+1] entries, the
    level followed by the lower and the upper corner. *)
Definition record_low (d : nat) (boxes : list nat) (i : nat) : point :=
  take d (drop (i * (2 * d + 1) + 1) boxes).
Definition record_upp (d : nat) (boxes : list nat) (i : nat) : point :=
  take d (drop (i * (2 * d + 1) + d + 1) boxes).
Definition refineElements_body (d : nat) (boxes : list nat) (i : nat)
    (st : gsHTensorBasis) : result gsHTensorBasis :=
  match boxes !! (i * (2 * d + 1)) with
  | None => Undefined
  | Some lvl => insert_box (record_low d boxes i) (record_upp d boxes i) lvl st
  end.
Definition refineElements (boxes : list nat) (st : gsHTensorBasis)
  : result gsHTensorBasis :=
  let d := length (m_deg st) in
  if decide (length boxes `mod` (2 * d + 1) ≠ 0) then AssertionFailed
  else
    st' ← for_loop (refineElements_body d boxes)
             0 (length boxes `div` (2 * d + 1)) st;
    update_structure st'.

(** The state after [refineElements_withTransfer(boxes, tran)]; the matrix
    [tran] is not part of the state. *)
Definition refineElements_withTransfer (boxes : list nat)
    (st : gsHTensorBasis) : result gsHTensorBasis :=
  let OX := m_xmatrix st in
  st' ← refineElements boxes st; transfer OX st'.

(** The do-while loop of [setActiveToLvl] for level [j]: below the last
    level the test is [query3 == j], at the last level [query3 >= j]. *)
Definition level_body (top : bool) (t : hdomain) (deg : list nat)
    (b : tensorBasis) (j : nat) (curr : list nat) (cmat : CMatrix) : CMatrix :=
  let q := query3 t (support_low b curr) (support_upp deg b curr) j in
  if (if top then bool_decide (j ≤ q) else bool_decide (q = j))
  then cmat ++ [tb_index b curr]
  else cmat.

Fixpoint level_loop (fuel : nat) (top : bool) (t : hdomain) (deg : list nat)
    (b : tensorBasis) (j : nat) (curr : list nat) (cmat : CMatrix)
  : result CMatrix :=
  match fuel with
  | 0 => Undefined
  | S fuel' =>
      let cmat' := level_body top t deg b j curr cmat in
      match nextLexicographic curr (activ_starts b) (activ_ends deg b) with
      | Some curr' => level_loop fuel' top t deg b j curr' cmat'
      | None => Ok cmat'
      end
  end.

(** [setActiveToLvl(level, x_matrix_lvl)]: the active sets of the levels
    [0..level] as seen from level [level]. *)
Definition setActiveToLvl (level : nat) (st : gsHTensorBasis)
  : result (list CMatrix) :=
  for_loop
    (λ j x,
       match m_bases st !! j with
       | None => Undefined
       | Some b =>
           cmat ← level_loop (foldr Nat.mul 1 (activ_ends (m_deg st) b))
                    (bool_decide (¬ j < level)) (m_tree st) (m_deg st) b j
                    (activ_starts b) [];
           Ok (<[j := cmat_sort cmat]> x)
       end)
    0 (level + 1) (replicate (level + 1) []).

(** Modelled from the spec: [support()] of a tensor B-spline basis, outside
    the given sources, is the parametric domain: per direction the knot
    values at the two ends of the domain. *)
Definition tb_support (b : tensorBasis) : option (list Q * list Q) :=
  lows ← mapM (λ kv, kv_values kv !! domain_begin kv) b;
  upps ← mapM (λ kv, kv_values kv !! domain_end kv) b;
  Some (lows, upps).

(** The box of [refineSide]: the support with, in direction [dir], the
    corner opposite to the side moved onto the side ([par] is the
    parameter of the side, [true] for the upper end). *)
Definition side_box (b0 : tensorBasis) (dir : nat) (par : bool)
  : option (list Q * list Q) :=
  rf ← tb_support b0;
  lo ← rf.1 !! dir;
  hi ← rf.2 !! dir;
  Some (if par then (<[dir := hi]> rf.1, rf.2) else (rf.1, <[dir := lo]> rf.2)).

Fixpoint refine_times (n : nat) (boxes : gsMatrix) (st : gsHTensorBasis)
  : result gsHTensorBasis :=
  match n with
  | 0 => Ok st
  | S n' => st' ← refine boxes st; refine_times n' boxes st'
  end.

(** [refineSide(side, lvl)], the side given by its direction and
    parameter; a negative [lvl] never ends the loop [i != lvl]. *)
Definition refineSide (dir : nat) (par : bool) (lvl : Z)
    (st : gsHTensorBasis) : result gsHTensorBasis :=
  match m_bases st with
  | [] => Undefined
  | b0 :: _ =>
      match side_box b0 dir par with
      | None => Undefined
      | Some rf =>
          if decide (lvl < 0)%Z then Undefined
          else
            refine_times (Z.to_nat lvl)
              (matrix_of_columns (length rf.1) [rf.1; rf.2]) st
      end
  end.

(** The tree after the [insert_box] calls of [refineElements] for the
    records [0..n) of [boxes]; [None] when the tree rejects one of them. *)
Definition insert_step (d : nat) (boxes : list nat) (ot : option hdomain)
    (i : nat) : option hdomain :=
  match ot with
  | None => None
  | Some t =>
      insertBox t (record_low d boxes i) (record_upp d boxes i)
        (default 0 (boxes !! (i * (2 * d + 1))))
  end.
Definition inserted_tree (d : nat) (boxes : list nat) (n : nat) (t : hdomain)
  : option hdomain :=
  foldl (insert_step d boxes) (Some t) (seq 0 n).

(** [refine(boxes, refExt)] for [refExt == 0]: the assertions, then
    [refine(boxes)], [needLevel] and a second [update_structure].  The
    branch for a refinement extension starts from [getLevelAtPoint], which
    runs on members of the tree and of the knot vectors outside the given
    sources. *)
Definition refine_refExt0 (boxes : gsMatrix) (st : gsHTensorBasis)
  : result gsHTensorBasis :=
  if decide (mat_rows boxes ≠ length (m_deg st)) then AssertionFailed
  else if decide (mat_cols boxes `mod` 2 ≠ 0) then AssertionFailed
  else
    match m_bases st with
    | [] => Undefined
    | b0 :: _ =>
        if forallb (box_in_domain b0) (column_pairs boxes) then
          st1 ← refine boxes st;
          st2 ← needLevel (getMaxInsLevel (m_tree st1)) st1;
          update_structure st2
        else AssertionFailed
    end.

(** Every stored level is the uniform refinement of the level before. *)
Definition refinement_chain (bs : list tensorBasis) : Prop :=
  ∀ i b b', bs !! i = Some b → bs !! S i = Some b' →
    b' = tb_uniformRefine 1 b.

(** Modelled from the spec: [gsTensorBasis::tensorIndex(m)], outside the
    given sources, is the inverse of [index]: the digits of the flat index
    in the mixed radix of the component sizes. *)
Fixpoint tensor_of (sizes : list nat) (n : nat) : list nat :=
  match sizes with
  | [] => []
  | s :: ss => n `mod` s :: tensor_of ss (n `div` s)
  end.

(** The flat indices of the functions of level [level] whose support query
    returns the level, in increasing order. *)
Definition active_list (t : hdomain) (deg : list nat) (b : tensorBasis)
    (level : nat) : list nat :=
  filter (λ n, query3 t (support_low b (tensor_of (tb_sizes b) n))
                 (support_upp deg b (tensor_of (tb_sizes b) n)) level = level)
    (seq 0 (foldr Nat.mul 1 (tb_sizes b))).

(** The same with the test of the last level of [setActiveToLvl]. *)
Definition covered_list (t : hdomain) (deg : list nat) (b : tensorBasis)
    (level : nat) : list nat :=
  filter (λ n, level ≤ query3 t (support_low b (tensor_of (tb_sizes b) n))
                 (support_upp deg b (tensor_of (tb_sizes b) n)) level)
    (seq 0 (foldr Nat.mul 1 (tb_sizes b))).

(** What [set_activ1] stores for a level. *)
Definition level_set (t : hdomain) (deg : list nat) (level : nat)
    (b : tensorBasis) : list nat :=
  if decide (getMaxInsLevel t < level) then [] else active_list t deg b level.

(** Further facts the basis relies on from the tree: compressing the tree
    changes no query, and a new tree answers level 0 everywhere. *)
Class HDomainQueryLaws : Prop := {
  compress_query3 :
    ∀ t lo hi l, query3 (tree_makeCompressed t) lo hi l = query3 t lo hi l;
  compress_compress :
    ∀ t, tree_makeCompressed (tree_makeCompressed t) = tree_makeCompressed t;
  init_query3 : ∀ upp lo hi, query3 (tree_init upp) lo hi 0 = 0
}.

End Further.

(** ** Index helpers of gsTensorTools.h *)

(** [fromTensorIndex(idx, sz)].  [stride] is an [unsigned] and [result] an
    [int]: every product and every sum is formed in [unsigned], and the sum
    is converted back to [int]. *)
Fixpoint fromTensorIndex_loop (idx sz : list nat) (result stride : Z) : Z :=
  match idx, sz with
  | i :: idx', s :: sz' =>
      fromTensorIndex_loop idx' sz'
        (to_int (result + to_unsigned (stride * Z.of_nat i)))
        (to_unsigned (stride * Z.of_nat s))
  | _, _ => result
  end.
Definition fromTensorIndex (idx sz : list nat) : Z :=
  fromTensorIndex_loop idx sz 0 1.

(** [tensorStrides(sz, strides)]: [strides[0] = 1] and
    [strides[i] = strides[i-1] * sz[i-1]], in [int].  A product outside
    [int] is undefined, and so is the write to [strides[0]] for an empty
    [sz]. *)
Fixpoint tensorStrides_loop (prev : Z) (sz : list Z) : result (list Z) :=
  match sz with
  | [] => Ok []
  | s :: sz' =>
      if decide (sz' = []) then Ok [prev]
      else if decide (- 2 ^ 31 ≤ prev * s ≤ INT_MAX)%Z then
        rest ← tensorStrides_loop (prev * s) sz'; Ok (prev :: rest)
      else Undefined
  end.
Definition tensorStrides (sz : list Z) : result (list Z) :=
  match sz with
  | [] => Undefined
  | _ => tensorStrides_loop 1 sz
  end.

(** * Properties *)

(** ** Mixed-radix counting: [nextLexicographic] and [index] *)

Lemma index_in_lt sizes k :
  Forall2 lt k sizes → index_in sizes k < foldr Nat.mul 1 sizes.
Proof.
  intros Hk. induction Hk as [|c e cs es Hc _ IH]; simpl; [lia|].
  assert (e * S (index_in es cs) ≤ e * foldr Nat.mul 1 es)
    by (apply Nat.mul_le_mono_l; lia).
  lia.
Qed.

Lemma index_in_inj sizes k k' :
  Forall2 lt k sizes → Forall2 lt k' sizes →
  index_in sizes k = index_in sizes k' → k = k'.
Proof.
  intros Hk. revert k'.
  induction Hk as [|c e cs es Hc _ IH]; intros k' Hk' Heq.
  - by inversion Hk'.
  - inversion Hk' as [|c' e' cs' es' Hc' Hcs']; subst. simpl in Heq.
    assert (index_in es cs = index_in es cs') as Hr.
    { destruct (Nat.lt_trichotomy (index_in es cs) (index_in es cs'))
        as [Hlt|[?|Hlt]]; [|done|].
      - pose proof (Nat.mul_le_mono_l _ _ e Hlt). lia.
      - pose proof (Nat.mul_le_mono_l _ _ e Hlt). lia. }
    rewrite Hr in Heq. assert (c = c') as -> by lia.
    f_equal. by apply IH.
Qed.

Lemma nextLexicographic_Some cur starts sizes cur' :
  Forall2 lt cur sizes → Forall (λ s, s = 0) starts →
  length starts = length sizes →
  nextLexicographic cur starts sizes = Some cur' →
  Forall2 lt cur' sizes ∧ index_in sizes cur' = S (index_in sizes cur).
Proof.
  intros Hk. revert starts cur'.
  induction Hk as [|c e cs es Hc Hcs IH]; intros starts cur' Hz Hlen; [done|].
  destruct starts as [|s ss]; [done|]. simpl.
  apply Forall_cons in Hz as [-> Hz]. injection Hlen as Hlen.
  destruct (decide (S c = e)) as [He|He].
  - destruct cs as [|c2 cs2]; [done|].
    destruct (nextLexicographic (c2 :: cs2) ss es) as [r|] eqn:Hr; [|done].
    intros [= <-]. destruct (IH ss r Hz Hlen Hr) as [IH1 IH2].
    split; [constructor; [lia|done]|]. simpl in *. rewrite IH2. nia.
  - intros [= <-]. split; [constructor; [lia|done]|]. simpl. lia.
Qed.

Lemma nextLexicographic_None cur starts sizes :
  Forall2 lt cur sizes → Forall (λ s, s = 0) starts →
  length starts = length sizes →
  nextLexicographic cur starts sizes = None →
  S (index_in sizes cur) = foldr Nat.mul 1 sizes.
Proof.
  intros Hk. revert starts.
  induction Hk as [|c e cs es Hc Hcs IH]; intros starts Hz Hlen; [done|].
  destruct starts as [|s ss]; [done|]. simpl.
  apply Forall_cons in Hz as [-> Hz]. injection Hlen as Hlen.
  destruct (decide (S c = e)) as [He|He]; [|done].
  destruct cs as [|c2 cs2].
  - intros _. inversion Hcs; subst. simpl. lia.
  - destruct (nextLexicographic (c2 :: cs2) ss es) as [r|] eqn:Hr; [done|].
    intros _. specialize (IH ss Hz Hlen Hr). simpl in *. nia.
Qed.

(** ** Uniform refinement keeps a basis well formed *)

Lemma knots_uniformRefine_size mul ks :
  sum_list ks.*2 ≤ sum_list (knots_uniformRefine mul ks).*2.
Proof.
  induction ks as [|a ks IH]; [done|]. destruct ks as [|b ks]; [done|].
  change (knots_uniformRefine mul (a :: b :: ks))
    with (a :: (Qdiv (Qplus a.1 b.1) (2 # 1), mul)
            :: knots_uniformRefine mul (b :: ks)).
  rewrite !fmap_cons. rewrite !fmap_cons in IH. simpl sum_list in *.
  simpl snd. lia.
Qed.

Lemma wf_tb_uniformRefine mul deg b :
  wf_tensorBasis deg b → wf_tensorBasis deg (tb_uniformRefine mul b).
Proof.
  unfold wf_tensorBasis, tb_uniformRefine. intros Hwf.
  apply Forall2_fmap_l. eapply Forall2_impl; [exact Hwf|].
  intros kv p [Hd Hs]. split; [done|].
  unfold kv_size, kv_mults in *. simpl.
  pose proof (knots_uniformRefine_size mul (kv_knots kv)). lia.
Qed.

Section Proofs.
Context `{HDomain}.

(** ** [needLevel] *)

Lemma needLevel_loop_Ok deg n bases :
  bases ≠ [] → Forall (wf_tensorBasis deg) bases →
  ∃ bs, needLevel_loop n bases = Ok bs ∧ length bs = length bases + n
        ∧ Forall (wf_tensorBasis deg) bs ∧ bases `prefix_of` bs.
Proof.
  revert bases. induction n as [|n IH]; intros bases Hne Hwf; simpl.
  - exists bases. split_and!; [done|lia|done|done].
  - destruct (last bases) as [b|] eqn:Hlast; [|by apply last_None in Hlast].
    destruct (IH (bases ++ [tb_uniformRefine 1 b])) as (bs & -> & Hlen & Hwf' & Hpre).
    + by destruct bases.
    + apply Forall_app. split; [done|]. apply Forall_singleton.
      apply wf_tb_uniformRefine.
      eapply Forall_forall; [exact Hwf|]. by apply last_Some_elem_of.
    + exists bs. rewrite length_app in Hlen. simpl in Hlen.
      split_and!; [done|lia|done|]. etrans; [|exact Hpre]. by apply prefix_app_r.
Qed.

Lemma needLevel_Ok maxLevel st :
  wf_basis st →
  ∃ bs, needLevel maxLevel st = Ok (set_bases st bs)
        ∧ length bs = length (m_bases st) `max` (maxLevel + 1)
        ∧ Forall (wf_tensorBasis (m_deg st)) bs ∧ m_bases st `prefix_of` bs.
Proof.
  intros [Hne Hwf]. unfold needLevel.
  destruct (needLevel_loop_Ok (m_deg st)
              (maxLevel + 1 - length (m_bases st)) _ Hne Hwf)
    as (bs & -> & Hlen & Hwf' & Hpre).
  exists bs. split_and!; [done|lia|done|done].
Qed.

(** ** The loop of [set_activ1] visits every tensor index once *)

Lemma activ_ends_sizes deg b :
  wf_tensorBasis deg b → activ_ends deg b = tb_sizes b.
Proof.
  unfold activ_ends, tb_sizes, component_size.
  induction 1 as [|kv p b deg [<- _] _ IH]; simpl; [done|]. by rewrite IH.
Qed.

Lemma activ_starts_index deg b :
  wf_tensorBasis deg b →
  tensor_index b (activ_starts b) ∧ tb_index b (activ_starts b) = 0.
Proof.
  unfold tensor_index, tb_index, tb_sizes, activ_starts, component_size.
  induction 1 as [|kv p b deg [<- Hs] _ [IH1 IH2]]; simpl; [done|].
  split; [constructor; [lia|done]|].
  change (list_fmap gsKnotVector nat ?f b) with (f <$> b).
  rewrite IH2. lia.
Qed.

Lemma activ_loop_spec t deg b level fuel cur acc :
  wf_tensorBasis deg b → tensor_index b cur →
  tb_index b cur + fuel = foldr Nat.mul 1 (tb_sizes b) →
  ∃ cmat, activ_loop fuel t deg b level cur acc = Ok cmat ∧
    ∀ x, x ∈ cmat ↔
      x ∈ acc ∨ ∃ k, tensor_index b k ∧ tb_index b cur ≤ tb_index b k
                     ∧ is_active t deg b level k ∧ x = tb_index b k.
Proof.
  intros Hwf. revert cur acc.
  induction fuel as [|fuel IH]; intros cur acc Hcur Hfuel.
  { pose proof (index_in_lt _ _ Hcur). unfold tb_index in *. lia. }
  simpl. rewrite (activ_ends_sizes _ _ Hwf).
  assert (Hbody : ∀ x, x ∈ activ_body t deg b level cur acc ↔
            x ∈ acc ∨ (is_active t deg b level cur ∧ x = tb_index b cur)).
  { intros x. unfold activ_body, is_active.
    destruct (decide _) as [Hq|Hq].
    - rewrite elem_of_app, list_elem_of_singleton. tauto.
    - tauto. }
  assert (Hz : Forall (λ s, s = 0) (activ_starts b))
    by (unfold activ_starts; apply Forall_fmap, Forall_true; done).
  assert (Hl : length (activ_starts b) = length (tb_sizes b))
    by (unfold activ_starts, tb_sizes; by rewrite !length_fmap).
  destruct (nextLexicographic cur (activ_starts b) (tb_sizes b)) as [cur'|] eqn:Hn.
  - destruct (nextLexicographic_Some _ _ _ _ Hcur Hz Hl Hn) as [Hcur' Hrk].
    fold (tb_index b cur') (tb_index b cur) in Hrk.
    destruct (IH cur' (activ_body t deg b level cur acc) Hcur') as (cmat & -> & Hin).
    { lia. }
    exists cmat. split; [done|]. intros x. rewrite Hin, Hbody. split.
    + intros [[?|[? ->]]|(k & ? & ? & ? & ->)]; [by left|right..].
      * exists cur. split_and!; [done|lia|done|done].
      * exists k. split_and!; [done|lia|done|done].
    + intros [?|(k & Hk & Hle & Hact & ->)]; [by left; left|].
      destruct (decide (tb_index b k = tb_index b cur)) as [Heq|Hne].
      * apply index_in_inj in Heq as ->; [|done..]. left. by right.
      * right. exists k. split_and!; [done|lia|done|done].
  - pose proof (nextLexicographic_None _ _ _ Hcur Hz Hl Hn) as Hrk.
    fold (tb_index b cur) in Hrk.
    eexists. split; [done|]. intros x. rewrite Hbody. split.
    + intros [?|[? ->]]; [by left|right].
      exists cur. split_and!; [done|lia|done|done].
    + intros [?|(k & Hk & Hle & Hact & ->)]; [by left|].
      pose proof (index_in_lt _ _ Hk). fold (tb_index b k) in *.
      assert (tb_index b k = tb_index b cur) as Heq by lia.
      apply index_in_inj in Heq as ->; [|done..]. by right.
Qed.

(** ** [set_activ1] and [update_structure] *)

Lemma set_activ1_Ok level st b c0 :
  wf_tensorBasis (m_deg st) b →
  m_xmatrix st !! level = Some c0 → m_bases st !! level = Some b →
  ∃ cmat,
    set_activ1 level st = Ok (set_xmatrix st (<[level := cmat]> (m_xmatrix st)))
    ∧ level_exact (m_tree st) (m_deg st) level b cmat.
Proof.
  intros Hwf Hx Hb. unfold set_activ1. rewrite Hx.
  destruct (decide (getMaxInsLevel (m_tree st) < level)) as [Hlt|Hle].
  - exists []. split; [done|]. split; [constructor|].
    intros x. split; [by intros ?%elem_of_nil|lia].
  - rewrite Hb. destruct (activ_starts_index _ _ Hwf) as [Hs0 Hi0].
    destruct (activ_loop_spec (m_tree st) (m_deg st) b level
                (foldr Nat.mul 1 (activ_ends (m_deg st) b)) (activ_starts b) []
                Hwf Hs0) as (cmat & Hloop & Hin).
    { rewrite Hi0, (activ_ends_sizes _ _ Hwf). done. }
    rewrite Hloop. exists (cmat_sort cmat). split; [done|]. split.
    + apply (Sorted_merge_sort Nat.le).
    + intros x. unfold cmat_sort. rewrite merge_sort_Permutation, Hin.
      split.
      * intros [?%elem_of_nil|(k & ? & ? & ? & ?)]; [done|].
        split; [lia|by exists k].
      * intros [_ (k & ? & ? & ?)]. right. exists k. split_and!; [done|lia|done..].
Qed.

Lemma for_set_activ1 n i st :
  Forall (wf_tensorBasis (m_deg st)) (m_bases st) →
  length (m_xmatrix st) = length (m_bases st) →
  i + n = length (m_bases st) →
  ∃ xm, for_loop set_activ1 i n st = Ok (set_xmatrix st xm)
    ∧ length xm = length (m_bases st)
    ∧ (∀ j, j < i → xm !! j = m_xmatrix st !! j)
    ∧ ∀ j b, i ≤ j → m_bases st !! j = Some b →
        ∃ cmat, xm !! j = Some cmat
                ∧ level_exact (m_tree st) (m_deg st) j b cmat.
Proof.
  revert i st. induction n as [|n IH]; intros i st Hwf Hlen Hn; simpl.
  - exists (m_xmatrix st). split_and!; [by destruct st|done|done|].
    intros j b Hj Hb%lookup_lt_Some. lia.
  - destruct (lookup_lt_is_Some_2 (m_bases st) i) as [b Hb]; [lia|].
    destruct (lookup_lt_is_Some_2 (m_xmatrix st) i) as [c0 Hc0]; [lia|].
    pose proof (Forall_lookup_1 _ _ _ _ Hwf Hb) as Hwfb.
    destruct (set_activ1_Ok i st b c0 Hwfb Hc0 Hb) as (cmat & -> & Hex).
    simpl.
    destruct (IH (S i) (set_xmatrix st (<[i:=cmat]> (m_xmatrix st))))
      as (xm & -> & Hxlen & Hlow & Hhigh); simpl.
    { done. } { by rewrite length_insert. } { lia. }
    simpl in Hxlen, Hlow, Hhigh.
    exists xm. split_and!; [done|done|..].
    + intros j Hj. rewrite Hlow by lia. by rewrite list_lookup_insert_ne by lia.
    + intros j b' Hj Hb'. destruct (decide (j = i)) as [->|Hne].
      * rewrite Hlow by lia. rewrite list_lookup_insert_eq by lia.
        exists cmat. split; [done|]. by simplify_eq.
      * apply Hhigh; [lia|done].
Qed.

Lemma update_structure_spec st :
  wf_basis st →
  ∃ bs xm,
    update_structure st
      = Ok (HTensorBasis (m_deg st) bs (tree_makeCompressed (m_tree st)) xm
              (compute_offsets xm))
    ∧ length bs = length (m_bases st) `max` (getMaxInsLevel (m_tree st) + 1)
    ∧ Forall (wf_tensorBasis (m_deg st)) bs
    ∧ m_bases st `prefix_of` bs
    ∧ length xm = length bs
    ∧ ∀ j b, bs !! j = Some b →
        ∃ cmat, xm !! j = Some cmat
          ∧ level_exact (tree_makeCompressed (m_tree st)) (m_deg st) j b cmat.
Proof.
  intros Hwf. unfold update_structure.
  destruct (needLevel_Ok (getMaxInsLevel (m_tree st)) st Hwf)
    as (bs & -> & Hlen & Hwfs & Hpre).
  simpl.
  set (st3 := set_tree _ _).
  destruct (for_set_activ1 (length bs) 0 st3) as (xm & Hloop & Hxlen & _ & Hex).
  { done. } { simpl. by rewrite length_replicate. } { done. }
  simpl in Hloop. rewrite length_replicate, Hloop. simpl.
  exists bs, xm. split_and!; [done..|].
  intros j b Hb. apply (Hex j b); [lia|done].
Qed.

(** ** The offset table *)

Lemma compute_offsets_from xm : compute_offsets xm = offsets_from 0 xm.
Proof.
  unfold compute_offsets.
  assert (∀ pre o xm, foldl push_offset (pre ++ [o]) xm = pre ++ offsets_from o xm)
    as Hgen.
  { intros pre o xm'. revert pre o.
    induction xm' as [|c xm' IH]; intros pre o; simpl; [done|].
    unfold push_offset at 2. rewrite last_snoc. simpl.
    rewrite IH. by rewrite <- app_assoc. }
  apply (Hgen [] 0 xm).
Qed.

Lemma offsets_from_lookup o xm i :
  i ≤ length xm →
  offsets_from o xm !! i = Some (o + sum_list (length <$> take i xm)).
Proof.
  revert o i. induction xm as [|c xm IH]; intros o i Hi.
  - simpl in Hi. assert (i = 0) as -> by lia. simpl. f_equal. lia.
  - destruct i as [|i]; [simpl; f_equal; lia|].
    simpl in Hi. cbn [offsets_from lookup list_lookup].
    change ((offsets_from (o + length c) xm) !! i
            = Some (o + sum_list (length <$> take (S i) (c :: xm)))).
    rewrite IH by lia. rewrite firstn_cons, fmap_cons. simpl. f_equal. lia.
Qed.

Lemma offsets_from_length o xm : length (offsets_from o xm) = S (length xm).
Proof. revert o. induction xm as [|c xm IH]; intros o; simpl; [done|]. by rewrite IH. Qed.

Lemma offsets_from_last o xm :
  last (offsets_from o xm) = Some (o + sum_list (length <$> xm)).
Proof.
  rewrite last_lookup, offsets_from_length. simpl.
  rewrite offsets_from_lookup by done. by rewrite firstn_all.
Qed.

Lemma sum_take_mono (l : list nat) i j :
  i ≤ j → sum_list (take i l) ≤ sum_list (take j l).
Proof.
  revert i j. induction l as [|x l IH]; intros i j Hij.
  - by rewrite !take_nil.
  - destruct i as [|i], j as [|j]; simpl; try lia.
    specialize (IH i j). lia.
Qed.

Lemma compute_offsets_spec xm :
  compute_offsets xm !! 0 = Some 0
  ∧ (∀ i cmat, xm !! i = Some cmat →
       ∃ o, compute_offsets xm !! i = Some o
            ∧ compute_offsets xm !! S i = Some (o + length cmat))
  ∧ (∀ i j oi oj, i ≤ j → compute_offsets xm !! i = Some oi →
       compute_offsets xm !! j = Some oj → oi ≤ oj)
  ∧ last (compute_offsets xm) = Some (sum_list (length <$> xm)).
Proof.
  rewrite compute_offsets_from. split_and!.
  - by destruct xm.
  - intros i cmat Hi. pose proof (lookup_lt_Some _ _ _ Hi) as Hlt.
    eexists. split; [apply offsets_from_lookup; lia|].
    rewrite offsets_from_lookup by lia.
    rewrite (take_S_r _ _ _ Hi), fmap_app, sum_list_with_app. simpl. f_equal. lia.
  - intros i j oi oj Hij Hoi Hoj.
    pose proof (lookup_lt_Some _ _ _ Hoj) as Hlt.
    rewrite offsets_from_length in Hlt.
    rewrite offsets_from_lookup in Hoi, Hoj by lia.
    injection Hoi as <-. injection Hoj as <-. simpl.
    rewrite !fmap_take. by apply sum_take_mono.
  - by rewrite offsets_from_last.
Qed.

Lemma update_structure_offsets_aux st :
  wf_basis st →
  ∃ st', update_structure st = Ok st'
    ∧ m_xmatrix_offset st' !! 0 = Some 0
    ∧ (∀ i cmat, m_xmatrix st' !! i = Some cmat →
         ∃ o, m_xmatrix_offset st' !! i = Some o
              ∧ m_xmatrix_offset st' !! S i = Some (o + length cmat))
    ∧ (∀ i j oi oj, i ≤ j → m_xmatrix_offset st' !! i = Some oi →
         m_xmatrix_offset st' !! j = Some oj → oi ≤ oj)
    ∧ last (m_xmatrix_offset st') = Some (sum_list (length <$> m_xmatrix st'))
    ∧ size st' = Ok (sum_list (length <$> m_xmatrix st')).
Proof.
  intros Hwf.
  destruct (update_structure_spec st Hwf) as (bs & xm & -> & _).
  eexists. split; [done|]. simpl.
  destruct (compute_offsets_spec xm) as (H0 & Hstep & Hmono & Hlast).
  split_and!; [done..|]. unfold size. simpl. by rewrite Hlast.
Qed.

(** C2.  [update_structure] keeps the stored bases as a prefix and leaves
    one active set per basis, the set that [set_activ1] computes for the
    level, and one offset more than active sets.  The offset table starts
    at 0, each entry is the previous one plus the number of active
    functions of that level, the entries do not decrease, and [size()]
    returns the last entry, which is the sum of the sizes of all active
    sets. *)
Theorem update_structure_offsets st :
  wf_basis st →
  ∃ st', update_structure st = Ok st'
    ∧ m_bases st `prefix_of` m_bases st'
    ∧ length (m_xmatrix st') = length (m_bases st')
    ∧ length (m_xmatrix_offset st') = length (m_xmatrix st') + 1
    ∧ (∀ j b, m_bases st' !! j = Some b →
         ∃ cmat, m_xmatrix st' !! j = Some cmat
           ∧ level_exact (m_tree st') (m_deg st') j b cmat)
    ∧ m_xmatrix_offset st' !! 0 = Some 0
    ∧ (∀ i cmat, m_xmatrix st' !! i = Some cmat →
         ∃ o, m_xmatrix_offset st' !! i = Some o
              ∧ m_xmatrix_offset st' !! S i = Some (o + length cmat))
    ∧ (∀ i j oi oj, i ≤ j → m_xmatrix_offset st' !! i = Some oi →
         m_xmatrix_offset st' !! j = Some oj → oi ≤ oj)
    ∧ last (m_xmatrix_offset st') = Some (sum_list (length <$> m_xmatrix st'))
    ∧ size st' = Ok (sum_list (length <$> m_xmatrix st')).
Proof.
  intros Hwf.
  destruct (update_structure_spec st Hwf)
    as (bs & xm & -> & _ & _ & Hpre & Hlen & Hex).
  eexists. split; [done|]. simpl.
  destruct (compute_offsets_spec xm) as (H0 & Hstep & Hmono & Hlast).
  split_and!; [done|done| |done|done|done|done|done|].
  - rewrite compute_offsets_from, offsets_from_length. lia.
  - unfold size. simpl. by rewrite Hlast.
Qed.


(** ** Levels above the highest level of the tree *)

Lemma sum_list_empty (l : list (list nat)) :
  Forall (λ c, c = []) l → sum_list (length <$> l) = 0.
Proof. induction 1 as [|c l -> _ IH]; [done|]. exact IH. Qed.

Lemma level_exact_above t deg level b cmat :
  getMaxInsLevel t < level → level_exact t deg level b cmat → cmat = [].
Proof.
  intros Hlt [_ Hin]. apply elem_of_nil_inv. intros x Hx%Hin. lia.
Qed.

Lemma update_structure_tail st :
  wf_basis st →
  ∃ st', update_structure st = Ok st'
    ∧ m_deg st' = m_deg st
    ∧ m_tree st' = tree_makeCompressed (m_tree st)
    ∧ length (m_bases st')
        = length (m_bases st) `max` (getMaxInsLevel (m_tree st) + 1)
    ∧ m_bases st `prefix_of` m_bases st'
    ∧ Forall (wf_tensorBasis (m_deg st)) (m_bases st')
    ∧ m_xmatrix_offset st' = compute_offsets (m_xmatrix st')
    ∧ length (m_xmatrix st') = length (m_bases st')
    ∧ (∀ i cmat, getMaxInsLevel (m_tree st') < i →
         m_xmatrix st' !! i = Some cmat → cmat = []).
Proof.
  intros Hwf.
  destruct (update_structure_spec st Hwf)
    as (bs & xm & -> & Hbl & Hwfs & Hpre & Hlen & Hex).
  eexists. split; [done|]. simpl. split_and!; [done..|].
  intros i cmat Hi Hc.
  destruct (lookup_lt_is_Some_2 bs i) as [b Hb].
  { rewrite <- Hlen. by eapply lookup_lt_Some. }
  destruct (Hex i b Hb) as (cmat' & Hc' & Hle). simplify_eq.
  by eapply level_exact_above.
Qed.

Section TreeLaws.
Context `{!HDomainLaws}.

(** C9.  After [update_structure] there is one characteristic matrix per
    stored basis, every level above the highest level of the tree has an
    empty active set, such a level adds a step of size zero to the offset
    table, and the total size counts the levels up to the highest level of
    the tree only.  A freshly constructed basis stores three bases, of
    which levels 1 and 2 have no active function. *)
Theorem update_structure_empty_tail :
  (∀ st, wf_basis st →
     ∃ st', update_structure st = Ok st'
       ∧ length (m_xmatrix st') = length (m_bases st')
       ∧ (∀ i cmat, getMaxInsLevel (m_tree st') < i →
            m_xmatrix st' !! i = Some cmat → cmat = [])
       ∧ (∀ i o, getMaxInsLevel (m_tree st') < i →
            i < length (m_xmatrix st') →
            m_xmatrix_offset st' !! i = Some o →
            m_xmatrix_offset st' !! S i = Some o)
       ∧ size st'
         = Ok (sum_list (length <$> take (S (getMaxInsLevel (m_tree st')))
                                      (m_xmatrix st'))))
  ∧ (∀ tbasis, Forall has_functions tbasis →
       ∃ st' c0, construct tbasis = Ok st'
         ∧ length (m_bases st') = 3
         ∧ m_xmatrix st' = [c0; []; []]
         ∧ m_xmatrix_offset st' = [0; length c0; length c0; length c0]
         ∧ size st' = Ok (length c0)).
Proof.
  split.
  - intros st Hwf.
    destruct (update_structure_tail st Hwf)
      as (st' & Hupd & _ & _ & _ & _ & _ & Hoff & Hlen & Hemp).
    exists st'. split_and!; [done..| |].
    + intros i o Hi Hlt Ho.
      destruct (lookup_lt_is_Some_2 (m_xmatrix st') i) as [cmat Hc]; [done|].
      rewrite Hoff in Ho |- *.
      destruct (compute_offsets_spec (m_xmatrix st')) as (_ & Hstep & _).
      destruct (Hstep i cmat Hc) as (o' & Ho' & HoS).
      rewrite (Hemp i cmat Hi Hc) in HoS. simpl in HoS.
      rewrite HoS. f_equal. simplify_eq. lia.
    + unfold size. rewrite Hoff.
      destruct (compute_offsets_spec (m_xmatrix st')) as (_ & _ & _ & ->).
      f_equal.
      rewrite <- (take_drop (S (getMaxInsLevel (m_tree st'))) (m_xmatrix st'))
        at 1.
      rewrite fmap_app, sum_list_with_app, (sum_list_empty (drop _ _)); [lia|].
      apply Forall_lookup_2. intros j c Hj. rewrite lookup_drop in Hj.
      apply (Hemp _ c) in Hj; [done|lia].
  - intros tbasis Htb. unfold construct.
    set (st0 := initialize_class tbasis).
    assert (wf_basis st0) as Hwf.
    { split; [done|]. simpl.
      assert (wf_tensorBasis (kv_degree <$> tbasis) tbasis) as Hw.
      { unfold wf_tensorBasis. apply Forall2_fmap_r, Forall_Forall2_diag.
        eapply Forall_impl; [exact Htb|]. intros kv Hkv. by split. }
      repeat (apply Forall_cons; split); [done|..|done];
        by repeat apply wf_tb_uniformRefine. }
    destruct (update_structure_tail st0 Hwf)
      as (st' & Hupd & _ & Htree & Hbl & _ & _ & Hoff & Hlen & Hemp).
    simpl in Htree, Hbl. rewrite init_maxLevel in Hbl. simpl in Hbl.
    rewrite Htree, compress_maxLevel, init_maxLevel in Hemp.
    rewrite Hbl in Hlen.
    destruct (m_xmatrix st') as [|c0 [|c1 [|c2 [|? ?]]]] eqn:Hxm; try done.
    rewrite (Hemp 1 c1), (Hemp 2 c2) in * by (done || lia).
    exists st', c0. split_and!; [done..| |].
    + rewrite Hoff. unfold compute_offsets, push_offset. simpl.
      repeat f_equal; lia.
    + unfold size. rewrite Hoff. unfold compute_offsets, push_offset. simpl.
      f_equal. lia.
Qed.

End TreeLaws.


(** ** Binary search in a sorted vector *)

Lemma bound_search_spec go len :
  ∀ first r, first ≤ r ≤ first + len →
    (∀ i, first ≤ i < r → go i = true) →
    (∀ i, r ≤ i < first + len → go i = false) →
    bound_search go first len = r.
Proof.
  induction (lt_wf len) as [len _ IH]. intros first r Hr Ht Hf.
  destruct len as [|n]; simp bound_search; [lia|].
  destruct (go (first + S n `div` 2)) eqn:Hg;
    cbn [bound_search_unfold_clause_2 bound_search_clause_2].
  - assert (first + S n `div` 2 < r) as Hm.
    { destruct (decide (first + S n `div` 2 < r)) as [|Hn]; [done|].
      rewrite Hf in Hg; [done|]. pose proof (Nat.div_lt (S n) 2). lia. }
    apply IH; [lia|lia|intros i Hi; apply Ht; lia|intros i Hi; apply Hf; lia].
  - assert (r ≤ first + S n `div` 2) as Hm.
    { destruct (decide (r ≤ first + S n `div` 2)) as [|Hn]; [done|].
      rewrite Ht in Hg; [done|lia]. }
    pose proof (Nat.div_lt (S n) 2).
    apply IH; [lia|lia|intros i Hi; apply Ht; lia|intros i Hi; apply Hf; lia].
Qed.

Lemma rank_le_length v x : rank v x ≤ length v.
Proof. apply length_filter. Qed.

Lemma rank_zero v x : Forall (λ y, x ≤ y) v → rank v x = 0.
Proof.
  unfold rank. induction 1 as [|y v Hy _ IH]; [done|].
  rewrite filter_cons_False by lia. done.
Qed.

Lemma sorted_lookup_rank v x i y :
  Sorted Nat.le v → v !! i = Some y → i < rank v x ↔ y < x.
Proof.
  intros Hs%Sorted_StronglySorted; [|apply _]. revert i.
  induction Hs as [|a v Hs IH Ha]; intros i Hi; [done|].
  unfold rank in *. destruct (decide (a < x)) as [Hax|Hax].
  - rewrite filter_cons_True by done. simpl.
    destruct i as [|i]; simpl in Hi; [simplify_eq; lia|].
    rewrite <- (IH i Hi). lia.
  - rewrite filter_cons_False by done.
    assert (Forall (λ y, x ≤ y) v) as Hall.
    { eapply Forall_impl; [exact Ha|]. intros z Hz. simpl in Hz. lia. }
    fold (rank v x). rewrite (rank_zero v x Hall).
    destruct i as [|i]; simpl in Hi; [simplify_eq; lia|].
    pose proof (Forall_lookup_1 _ _ _ _ Hall Hi). simpl in *. lia.
Qed.

Lemma sorted_lookup_le v i j a b :
  Sorted Nat.le v → i ≤ j → v !! i = Some a → v !! j = Some b → a ≤ b.
Proof.
  intros Hs%Sorted_StronglySorted; [|apply _]. revert i j.
  induction Hs as [|c v Hs IH Hc]; intros i j Hij Hi Hj; [done|].
  destruct i as [|i], j as [|j]; simpl in *; simplify_eq; try lia.
  - by apply (Forall_lookup_1 _ _ _ _ Hc Hj).
  - apply (IH i j); [lia|done..].
Qed.

Lemma lower_bound_rank v x : Sorted Nat.le v → lower_bound v x = rank v x.
Proof.
  intros Hs. unfold lower_bound. pose proof (rank_le_length v x).
  apply bound_search_spec; [lia|..].
  - intros i Hi. destruct (lookup_lt_is_Some_2 v i) as [y Hy]; [lia|].
    rewrite Hy. apply bool_decide_eq_true. apply (sorted_lookup_rank v x i y); [done..|lia].
  - intros i Hi. destruct (lookup_lt_is_Some_2 v i) as [y Hy]; [lia|].
    rewrite Hy. apply bool_decide_eq_false.
    rewrite <- (sorted_lookup_rank v x i y) by done. lia.
Qed.

Lemma rank_lookup_elem v x :
  Sorted Nat.le v → x ∈ v → v !! rank v x = Some x.
Proof.
  intros Hs [j Hj]%list_elem_of_lookup_1.
  assert (rank v x ≤ j) as Hle.
  { destruct (decide (rank v x ≤ j)) as [|Hn]; [done|].
    assert (j < rank v x) as Hlt by lia.
    apply (sorted_lookup_rank v x j x Hs Hj) in Hlt. lia. }
  destruct (lookup_lt_is_Some_2 v (rank v x)) as [y Hy].
  { apply lookup_lt_Some in Hj. lia. }
  pose proof (sorted_lookup_le v _ _ _ _ Hs Hle Hy Hj).
  assert (¬ y < x) by (rewrite <- (sorted_lookup_rank v x _ y Hs Hy); lia).
  rewrite Hy. f_equal. lia.
Qed.

Lemma to_int_small z : (0 ≤ z ≤ INT_MAX)%Z → to_int z = z.
Proof.
  unfold to_int, INT_MAX. intros Hz.
  rewrite Z.mod_small by lia. lia.
Qed.

Lemma lookup_in_sorted_level st index level cmat off :
  (0 ≤ level ≤ INT_MAX)%Z →
  m_xmatrix st !! Z.to_nat level = Some cmat →
  m_xmatrix_offset st !! Z.to_nat level = Some off →
  Sorted Nat.le cmat →
  (Z.of_nat (off + length cmat) ≤ INT_MAX)%Z →
  (index ∈ cmat →
     cmat !! rank cmat index = Some index
     ∧ flatTensorIndexToHierachicalIndex st index level
       = Ok (Z.of_nat (off + rank cmat index)))
  ∧ (index ∉ cmat →
     flatTensorIndexToHierachicalIndex st index level = Ok (-1)%Z).
Proof.
  intros Hlevel Hc Hoff Hs Hint.
  pose proof (lookup_lt_Some _ _ _ Hc) as Hlt.
  assert (to_unsigned level = level) as Hu.
  { unfold to_unsigned. unfold INT_MAX in *. apply Z.mod_small. lia. }
  assert (to_size_t level = level) as Hz.
  { unfold to_size_t. unfold INT_MAX in *. apply Z.mod_small. lia. }
  unfold flatTensorIndexToHierachicalIndex.
  rewrite Hu, Hz, decide_False by lia. rewrite Hc, (lower_bound_rank _ _ Hs).
  pose proof (rank_le_length cmat index). split.
  - intros Hin. pose proof (rank_lookup_elem _ _ Hs Hin) as Hr.
    split; [done|]. rewrite Hr, decide_False by (intros Hn; by apply Hn).
    rewrite Hoff. f_equal. apply to_int_small.
    apply lookup_lt_Some in Hr. lia.
  - intros Hnin. destruct (cmat !! rank cmat index) as [y|] eqn:Hy; [|done].
    rewrite decide_True; [done|]. intros ->.
    apply Hnin. by eapply list_elem_of_lookup_2.
Qed.

(** C8.  For a valid level whose active set is sorted (as
    [update_structure] leaves it) and whose hierarchical indices fit an
    [int], [flatTensorIndexToHierachicalIndex] returns the offset of the
    level plus the rank of the flat index in the active set when the index
    is active there, and -1 when it is not. *)
Theorem flatTensorIndexToHierachicalIndex_spec st index level cmat off :
  (0 ≤ level ≤ INT_MAX)%Z →
  m_xmatrix st !! Z.to_nat level = Some cmat →
  m_xmatrix_offset st !! Z.to_nat level = Some off →
  Sorted Nat.le cmat →
  (Z.of_nat (off + length cmat) ≤ INT_MAX)%Z →
  (index ∈ cmat →
     cmat !! rank cmat index = Some index
     ∧ flatTensorIndexToHierachicalIndex st index level
       = Ok (Z.of_nat (off + rank cmat index)))
  ∧ (index ∉ cmat →
     flatTensorIndexToHierachicalIndex st index level = Ok (-1)%Z).
Proof. apply lookup_in_sorted_level. Qed.

(** [update_structure] leaves every active set sorted, so on a basis it has
    rebuilt the lookup needs only a stored level and a size that fits an
    [int]. *)
Lemma update_structure_sorted st :
  wf_basis st →
  ∃ st', update_structure st = Ok st' ∧ Forall (Sorted Nat.le) (m_xmatrix st').
Proof.
  intros Hwf.
  destruct (update_structure_spec st Hwf) as (bs & xm & -> & _ & _ & _ & Hlen & Hex).
  eexists. split; [done|]. simpl. apply Forall_lookup_2. intros i cmat Hi.
  destruct (lookup_lt_is_Some_2 bs i) as [b Hb].
  { rewrite <- Hlen. by eapply lookup_lt_Some. }
  destruct (Hex i b Hb) as (cmat' & Hc' & Hsorted & _). by simplify_eq.
Qed.

Lemma lookup_after_update st st' index level cmat :
  wf_basis st → update_structure st = Ok st' →
  (0 ≤ level ≤ INT_MAX)%Z →
  m_xmatrix st' !! Z.to_nat level = Some cmat →
  (Z.of_nat (sum_list (length <$> m_xmatrix st')) ≤ INT_MAX)%Z →
  ∃ off, m_xmatrix_offset st' !! Z.to_nat level = Some off
    ∧ (index ∈ cmat →
         flatTensorIndexToHierachicalIndex st' index level
         = Ok (Z.of_nat (off + rank cmat index)))
    ∧ (index ∉ cmat →
         flatTensorIndexToHierachicalIndex st' index level = Ok (-1)%Z).
Proof.
  intros Hwf Hupd Hlevel Hc Hint.
  destruct (update_structure_sorted st Hwf) as (st2 & Hupd2 & Hsorted).
  destruct (update_structure_offsets_aux st Hwf)
    as (st3 & Hupd3 & _ & Hstep & Hmono & Hlast & _).
  rewrite Hupd in Hupd2. injection Hupd2 as <-.
  rewrite Hupd in Hupd3. injection Hupd3 as <-.
  destruct (Hstep _ _ Hc) as (off & Hoff & HoffS).
  pose proof (Forall_lookup_1 _ _ _ _ Hsorted Hc) as Hs.
  assert (off + length cmat ≤ sum_list (length <$> m_xmatrix st')) as Hle.
  { rewrite last_lookup in Hlast.
    apply (Hmono _ _ _ _ (Nat.lt_le_pred _ _ (lookup_lt_Some _ _ _ HoffS))
             HoffS Hlast). }
  destruct (lookup_in_sorted_level st' index level cmat off Hlevel Hc Hoff Hs)
    as [Hin Hnin]; [lia|].
  exists off. split; [done|]. split; [|done]. intros Hi. by apply Hin.
Qed.

(** C7, as the code has it.  A level outside the stored levels makes the
    batch form fail its assertion, while the single-index form returns the
    value -1. *)
Theorem level_out_of_range st index indexes level :
  (- 2 ^ 31 ≤ level ≤ INT_MAX)%Z →
  (Z.of_nat (length (m_xmatrix st)) ≤ INT_MAX)%Z →
  ¬ (0 ≤ level < Z.of_nat (length (m_xmatrix st)))%Z →
  flatTensorIndexesToHierachicalIndexes st indexes level = AssertionFailed
  ∧ flatTensorIndexToHierachicalIndex st index level = Ok (-1)%Z.
Proof.
  unfold INT_MAX. intros Hlevel Hlen Hout.
  unfold flatTensorIndexesToHierachicalIndexes,
    flatTensorIndexToHierachicalIndex, to_size_t, to_unsigned.
  destruct (decide (0 ≤ level)%Z) as [Hpos|Hneg].
  - rewrite !Z.mod_small by lia.
    rewrite decide_False by lia. by rewrite decide_True by lia.
  - assert (level `mod` 2 ^ 64 = level + 2 ^ 64)%Z as ->.
    { symmetry. apply (Z.mod_unique _ _ (-1)); lia. }
    assert (level `mod` 2 ^ 32 = level + 2 ^ 32)%Z as ->.
    { symmetry. apply (Z.mod_unique _ _ (-1)); lia. }
    rewrite decide_False by lia. by rewrite decide_True by lia.
Qed.

(** ** [makeCompressed] *)

Lemma offsets_from_unfold o xm :
  offsets_from o xm
  = o :: match xm with
         | [] => []
         | cmat :: xm' => offsets_from (o + length cmat) xm'
         end.
Proof. by destruct xm. Qed.

Lemma makeCompressed_loop_unfold deg o0 o1 offs bases t xm :
  makeCompressed_loop deg (o0 :: o1 :: offs) bases t xm
  = if decide (o1 = 0) then
      match bases, xm with
      | _ :: bases', _ :: xm' =>
          makeCompressed_loop deg (o1 :: offs) bases' (decrementLevel t) xm'
      | _, _ => Undefined
      end
    else Ok (HTensorBasis deg bases t xm (o0 :: o1 :: offs)).
Proof. done. Qed.

Lemma makeCompressed_loop_spec deg xm :
  ∀ bases t, length bases = length xm →
    (∃ i c, xm !! i = Some c ∧ c ≠ []) →
    ∃ n c, (∀ i, i < n → xm !! i = Some [])
      ∧ xm !! n = Some c ∧ c ≠ []
      ∧ makeCompressed_loop deg (offsets_from 0 xm) bases t xm
        = Ok (HTensorBasis deg (drop n bases) (Nat.iter n decrementLevel t)
                (drop n xm) (drop n (offsets_from 0 xm))).
Proof.
  induction xm as [|c xm IH]; intros bases t Hlen (i & c' & Hi & Hc').
  { done. }
  destruct bases as [|b bases]; [done|]. injection Hlen as Hlen.
  rewrite (offsets_from_unfold 0 (c :: xm)).
  rewrite (offsets_from_unfold (0 + length c) xm).
  rewrite makeCompressed_loop_unfold.
  destruct (decide (0 + length c = 0)) as [Hz|Hnz].
  - assert (c = []) as -> by (apply length_zero_iff_nil; lia).
    change (0 + length (@nil nat)) with 0.
    rewrite <- (offsets_from_unfold 0 xm).
    destruct i as [|i]; simpl in Hi; [by simplify_eq|].
    destruct (IH bases (decrementLevel t) Hlen) as (n & c2 & Hemp & Hn & Hc2 & ->).
    { by exists i, c'. }
    exists (S n), c2. split_and!; [|done|done|].
    + intros [|j] Hj; [done|]. simpl. apply Hemp. lia.
    + by rewrite Nat.iter_succ_r.
  - exists 0, c. split_and!; [lia|done| |done].
    intros ->. simpl in Hnz. lia.
Qed.

(** C4, as the code has it.  [makeCompressed] removes levels from the
    front: the leading levels without active functions are dropped from the
    bases, the active sets and the offsets, the levels of the tree are
    decremented once per dropped level, and the first level with an active
    function becomes level 0. *)
Theorem makeCompressed_front st :
  m_xmatrix_offset st = compute_offsets (m_xmatrix st) →
  length (m_bases st) = length (m_xmatrix st) →
  (∃ i c, m_xmatrix st !! i = Some c ∧ c ≠ []) →
  ∃ n st', makeCompressed st = Ok st'
    ∧ (∀ i, i < n → m_xmatrix st !! i = Some [])
    ∧ (∃ c, m_xmatrix st !! n = Some c ∧ c ≠ [])
    ∧ m_deg st' = m_deg st
    ∧ m_bases st' = drop n (m_bases st)
    ∧ m_xmatrix st' = drop n (m_xmatrix st)
    ∧ m_xmatrix_offset st' = drop n (m_xmatrix_offset st)
    ∧ m_tree st' = Nat.iter n decrementLevel (m_tree st).
Proof.
  intros Hoff Hlen Hne. unfold makeCompressed.
  rewrite Hoff, compute_offsets_from.
  destruct (makeCompressed_loop_spec (m_deg st) (m_xmatrix st) (m_bases st)
              (m_tree st) Hlen Hne) as (n & c & Hemp & Hn & Hc & ->).
  exists n. eexists. split; [done|]. simpl. split_and!; try done.
  by exists c.
Qed.

(** ** [transfer] and [transfer2] *)

Lemma pop_empty_spec rxm :
  (∃ c, c ∈ rxm ∧ c ≠ []) →
  ∃ k c rest, rxm = replicate k [] ++ c :: rest ∧ c ≠ []
    ∧ pop_empty rxm = Ok (c :: rest).
Proof.
  induction rxm as [|c rxm IH]; intros (c' & Hin & Hc').
  { by apply elem_of_nil in Hin. }
  simpl. destruct (decide (length c = 0)) as [Hz|Hnz].
  - apply length_zero_iff_nil in Hz as ->.
    apply elem_of_cons in Hin as [->|Hin]; [done|].
    destruct IH as (k & c2 & rest & -> & Hc2 & ->); [by exists c'|].
    by exists (S k), c2, rest.
  - exists 0, c, rxm. split_and!; [done| |done]. intros ->. done.
Qed.

(** [transfer] removes the empty levels at the end of the active sets and
    cuts the bases to the same length. *)
Lemma transfer_prunes_tail old st :
  wf_basis st → length (m_xmatrix st) = length (m_bases st) →
  (∃ c, c ∈ m_xmatrix st ∧ c ≠ []) →
  ∃ st' k, transfer old st = Ok st'
    ∧ length (m_xmatrix st') = length (m_bases st')
    ∧ pad_xmatrix (length old) (m_xmatrix st) = m_xmatrix st' ++ replicate k []
    ∧ (∃ c, last (m_xmatrix st') = Some c ∧ c ≠ []).
Proof.
  intros Hwf Hlen (c & Hin & Hc). unfold transfer.
  destruct (needLevel_Ok (length old) st Hwf) as (bs & -> & Hbl & _ & Hpre).
  simpl. rewrite decide_False.
  2:{ intros ->. destruct Hwf as [Hne _]. by apply prefix_nil_inv in Hpre. }
  simpl. unfold drop_empty_tail.
  destruct (pop_empty_spec (reverse (pad_xmatrix (length old) (m_xmatrix st))))
    as (k & c2 & rest & Hrev & Hc2 & ->).
  { exists c. split; [|done]. apply elem_of_reverse, elem_of_app. by left. }
  simpl. eexists. exists k. split; [done|]. simpl.
  apply (f_equal reverse) in Hrev.
  rewrite reverse_involutive, reverse_app, reverse_replicate in Hrev.
  assert (length (reverse (c2 :: rest)) + k = length bs) as Hl.
  { apply (f_equal length) in Hrev. unfold pad_xmatrix in Hrev.
    rewrite !length_app, !length_replicate in Hrev. lia. }
  split_and!.
  - destruct (decide _) as [Hd|Hd]; [rewrite length_take; lia|lia].
  - done.
  - exists c2. split; [|done]. by rewrite reverse_cons, last_snoc.
Qed.

(** [transfer2] only adds levels. *)
Lemma transfer2_keeps_tail old st st' :
  transfer2 old st = Ok st' →
  m_xmatrix st' = pad_xmatrix (length old) (m_xmatrix st).
Proof.
  unfold transfer2, needLevel. intros Ht.
  destruct (needLevel_loop _ _) as [bs| |]; simpl in Ht; try done.
  destruct (decide (bs = [])); simpl in Ht; [done|]. by simplify_eq.
Qed.

(** ** Box refinement *)

Lemma sunk_box_lookup finest box j kv lo hi :
  finest !! j = Some kv → box.1 !! j = Some lo → box.2 !! j = Some hi →
  (sunk_box finest box).1 !! j = Some (Z.to_nat (sink_indices kv lo hi).1)
  ∧ (sunk_box finest box).2 !! j = Some (Z.to_nat (sink_indices kv lo hi).2).
Proof.
  intros Hkv Hlo Hhi. unfold sunk_box. cbn [fst snd].
  assert (zip box.1 box.2 !! j = Some (lo, hi)) as Hz.
  { apply lookup_zip_with_Some. by exists lo, hi. }
  assert (zip_with (λ kv lh, sink_indices kv lh.1 lh.2) finest
            (zip box.1 box.2) !! j = Some (sink_indices kv lo hi)) as Hs.
  { apply lookup_zip_with_Some. by exists kv, (lo, hi). }
  by rewrite !list_lookup_fmap, Hs.
Qed.

Lemma bound_search_partition go len first :
  (∀ i j, first ≤ i → i ≤ j → j < first + len → go j = true → go i = true) →
  first ≤ bound_search go first len ≤ first + len
  ∧ (∀ i, first ≤ i < bound_search go first len → go i = true)
  ∧ (∀ i, bound_search go first len ≤ i < first + len → go i = false).
Proof.
  intros Hmono.
  assert (∃ r, first ≤ r ≤ first + len
               ∧ (∀ i, first ≤ i < r → go i = true)
               ∧ (∀ i, r ≤ i < first + len → go i = false))
    as (r & Hr & Ht & Hf).
  { induction len as [|n IH].
    { exists first. split; [lia|]. split; intros; lia. }
    destruct IH as (r & Hr & Ht & Hf).
    { intros i j Hi Hij Hj. apply Hmono; [done|done|lia]. }
    destruct (decide (r = first + n)) as [->|Hne].
    - destruct (go (first + n)) eqn:Hg.
      + exists (first + S n). split; [lia|]. split; [|intros; lia].
        intros i Hi. destruct (decide (i = first + n)) as [->|]; [done|].
        apply Ht. lia.
      + exists (first + n). split; [lia|]. split; [done|].
        intros i Hi. by assert (i = first + n) as -> by lia.
    - exists r. split; [lia|]. split; [done|].
      intros i Hi. destruct (decide (i = first + n)) as [->|]; [|apply Hf; lia].
      destruct (go (first + n)) eqn:Hg; [|done].
      rewrite <- (Hf r) by lia. symmetry.
      apply (Hmono r (first + n)); [lia|lia|lia|done]. }
  by rewrite (bound_search_spec go len first r Hr Ht Hf).
Qed.

Lemma strict_knots_le (vals : list Q) i j a b :
  StronglySorted Qlt vals → i ≤ j → vals !! i = Some a → vals !! j = Some b →
  Qle a b.
Proof.
  intros Hs. revert i j.
  induction Hs as [|c v Hs IH Hc]; intros i j Hij Hi Hj; [done|].
  destruct i as [|i], j as [|j]; simpl in *; simplify_eq.
  - apply Qle_refl.
  - apply Qlt_le_weak. by apply (Forall_lookup_1 _ _ _ _ Hc Hj).
  - lia.
  - apply (IH i j); [lia|done..].
Qed.

Lemma upper_bound_partition vals first last x :
  StronglySorted Qlt vals →
  first ≤ upper_bound vals first last x ≤ first + (last - first)
  ∧ (∀ i, first ≤ i < upper_bound vals first last x →
       ∃ v, vals !! i = Some v ∧ Qle v x)
  ∧ (∀ i v, upper_bound vals first last x ≤ i < first + (last - first) →
       vals !! i = Some v → Qlt x v).
Proof.
  intros Hs. unfold upper_bound.
  set (go := λ i, match vals !! i with
                  | Some v => negb (if Qlt_le_dec x v then true else false)
                  | None => false
                  end).
  assert (∀ i, go i = true ↔ ∃ v, vals !! i = Some v ∧ Qle v x) as Hgo.
  { intros i. unfold go. destruct (vals !! i) as [v|]; split.
    - intros Hg. exists v. split; [done|].
      by destruct (Qlt_le_dec x v).
    - intros (v' & Hv & Hle). injection Hv as <-.
      destruct (Qlt_le_dec x v) as [Hlt|]; [|done].
      exfalso. by apply (Qlt_not_le _ _ Hlt).
    - done.
    - by intros (v & Hv & _). }
  destruct (bound_search_partition go (last - first) first)
    as (Hr & Ht & Hf).
  { intros i j Hi Hij Hj Hg. apply Hgo in Hg as (vj & Hvj & Hle).
    destruct (lookup_lt_is_Some_2 vals i) as [vi Hvi].
    { apply lookup_lt_Some in Hvj. lia. }
    apply Hgo. exists vi. split; [done|].
    eapply Qle_trans; [|exact Hle].
    exact (strict_knots_le vals i j vi vj Hs Hij Hvi Hvj). }
  split; [done|]. split.
  - intros i Hi. apply Hgo. by apply Ht.
  - intros i v Hi Hv. specialize (Hf i Hi).
    apply Qnot_le_lt. intros Hle.
    assert (go i = true) as Hg by (apply Hgo; by exists v).
    congruence.
Qed.


Lemma index_before_pos pos :
  0 < pos → (Z.of_nat pos ≤ 2 ^ 32)%Z → index_before pos = (Z.of_nat pos - 1)%Z.
Proof.
  intros Hpos Hfit. unfold index_before, to_unsigned. apply Z.mod_small. lia.
Qed.

Lemma in_domain_inv kv lo hi :
  in_domain kv lo hi = true →
  ∃ a b, kv_values kv !! domain_begin kv = Some a
    ∧ kv_values kv !! domain_end kv = Some b ∧ Qle a lo ∧ Qle hi b.
Proof.
  unfold in_domain. intros Hin.
  destruct (kv_values kv !! domain_begin kv) as [a|]; [|done].
  destruct (kv_values kv !! domain_end kv) as [b|]; [|done].
  apply andb_prop in Hin as [Ha Hb].
  exists a, b. split_and!; [done|done|by apply Qle_bool_iff..].
Qed.

(** For corners inside the domain and in order the two searches end after
    the start of the domain, so no index wraps, and the index of the lower
    corner is not above the index of the upper one. *)
Lemma corner_indices_in_domain kv lo hi :
  StronglySorted Qlt (kv_values kv) → domain_begin kv < domain_end kv →
  (Z.of_nat (domain_end kv) + 1 < 2 ^ 32)%Z →
  in_domain kv lo hi = true → Qle lo hi →
  (Z.of_nat (domain_begin kv) ≤ (corner_indices kv lo hi).1)%Z
  ∧ ((corner_indices kv lo hi).1 ≤ (corner_indices kv lo hi).2)%Z
  ∧ ((corner_indices kv lo hi).2 ≤ Z.of_nat (domain_end kv))%Z.
Proof.
  intros Hs Hbe Hfit Hin Hle.
  destruct (in_domain_inv kv lo hi Hin) as (a & b & Ha & Hb & Halo & Hhib).
  unfold corner_indices. cbn [fst snd].
  destruct (upper_bound_partition (kv_values kv) (domain_begin kv)
              (domain_end kv) lo Hs) as (Hr1 & Ht1 & Hf1).
  destruct (upper_bound_partition (kv_values kv) (domain_begin kv)
              (domain_end kv + 1) hi Hs) as (Hr2 & _ & Hf2).
  set (r1 := upper_bound _ _ (domain_end kv) lo) in *.
  set (r2 := upper_bound _ _ (domain_end kv + 1) hi) in *.
  assert (domain_begin kv < r1) as Hb1.
  { destruct (decide (domain_begin kv < r1)) as [|Hn]; [done|]. exfalso.
    assert (Qlt lo a) as Hlt by (apply (Hf1 (domain_begin kv)); [lia|done]).
    by apply (Qlt_not_le _ _ Hlt). }
  assert (domain_begin kv < r2) as Hb2.
  { destruct (decide (domain_begin kv < r2)) as [|Hn]; [done|]. exfalso.
    assert (Qlt hi a) as Hlt by (apply (Hf2 (domain_begin kv)); [lia|done]).
    apply (Qlt_not_le _ _ Hlt). by eapply Qle_trans. }
  assert (r1 ≤ r2) as H12.
  { destruct (decide (r1 ≤ r2)) as [|Hn]; [done|]. exfalso.
    destruct (Ht1 r2) as (v & Hv & Hvlo); [lia|].
    assert (Qlt hi v) as Hlt by (apply (Hf2 r2); [lia|done]).
    apply (Qlt_not_le _ _ Hlt). by eapply Qle_trans. }
  rewrite !index_before_pos by lia. lia.
Qed.

Lemma sink_indices_in_domain kv lo hi :
  StronglySorted Qlt (kv_values kv) → domain_begin kv < domain_end kv →
  (Z.of_nat (domain_end kv) + 1 < 2 ^ 32)%Z →
  in_domain kv lo hi = true → Qle lo hi →
  (0 ≤ (sink_indices kv lo hi).1)%Z
  ∧ ((sink_indices kv lo hi).1 < (sink_indices kv lo hi).2)%Z
  ∧ ((sink_indices kv lo hi).2 ≤ Z.of_nat (domain_end kv) + 1)%Z.
Proof.
  intros Hs Hbe Hfit Hin Hle.
  destruct (corner_indices_in_domain kv lo hi Hs Hbe Hfit Hin Hle)
    as (Hk1 & Hk12 & Hk2).
  unfold sink_indices, expand_trivial.
  destruct (corner_indices kv lo hi) as [k1 k2]. cbn [fst snd] in *.
  destruct (decide (k1 = k2)) as [->|Hne]; cbn [fst snd]; [|lia].
  assert (to_unsigned (k2 + 1) = (k2 + 1)%Z) as ->
    by (unfold to_unsigned; apply Z.mod_small; lia).
  destruct (decide (0 ≠ k2)%Z) as [Hnz|Hz]; [|lia].
  assert (to_unsigned (k2 - 1) = (k2 - 1)%Z) as ->
    by (unfold to_unsigned; apply Z.mod_small; lia).
  lia.
Qed.


End Proofs.

(** ** The cell tree satisfies what the basis relies on *)

Lemma foldr_min_le (init : nat) (l : list nat) : foldr Nat.min init l ≤ init.
Proof. induction l as [|x l IH]; simpl; lia. Qed.

Lemma ct_query3_le t lo hi l : ct_query3 t lo hi l ≤ ct_maxLevel t.
Proof. apply foldr_min_le. Qed.

Lemma cell_tree_laws il : @HDomainLaws (cell_tree il).
Proof.
  split.
  - intros upp. simpl. unfold ct_maxLevel. simpl.
    by induction (cells_in _ _) as [|c l IH].
  - done.
Qed.

(** ** The sample bases *)

Import Samples.

Lemma has_functions_tb1 : Forall has_functions tb1.
Proof. repeat constructor. Defined.

Lemma wf_half1 : wf_basis half1.
Proof.
  split; [done|]. unfold has_functions.
  repeat constructor; simpl; unfold kv_size; simpl; lia.
Defined.

Example construct_tb1 : construct tb1 = Ok fresh1_rebuilt.
Proof. vm_compute. reflexivity. Qed.

Example update_structure_half1 : update_structure half1 = Ok half1_rebuilt.
Proof. vm_compute. reflexivity. Qed.

Example update_structure_full1 : update_structure full1 = Ok full1_rebuilt.
Proof. vm_compute. reflexivity. Qed.

Example hierarchical_index_half1 :
  flatTensorIndexToHierachicalIndex half1_rebuilt 1 1 = Ok 3%Z
  ∧ flatTensorIndexToHierachicalIndex half1_rebuilt 3 1 = Ok (-1)%Z
  ∧ flatTensorIndexesToHierachicalIndexes half1_rebuilt [0; 1; 2; 3]%Z 1
    = Ok [2; 3; -1; -1]%Z.
Proof. vm_compute. done. Qed.

(** On [half1_rebuilt] the first function of level 0 lies in the level-1
    half of the domain: the query on its support returns 1 and it is not
    active; the second one reaches into the level-0 half and is active. *)
Example active_half1 :
  query3 (m_tree half1_rebuilt) (support_low tb1 [0])
    (support_upp [1] tb1 [0]) 0 = 1
  ∧ query3 (m_tree half1_rebuilt) (support_low tb1 [1])
      (support_upp [1] tb1 [1]) 0 = 0
  ∧ m_xmatrix half1_rebuilt !! 0 = Some [1; 2].
Proof. vm_compute. done. Qed.

(** A box outside the domain fails the assertion of [refine]; a box with
    both corners at 3/4 is sunk as the index box from 2 to 4 of level 2,
    which on [half1_rebuilt] activates one function of level 2. *)
Example refine_half1 :
  refine (matrix_of_columns 1 [[3 # 1]; [4 # 1]]) half1_rebuilt
  = AssertionFailed
  ∧ sunk_box tb1_fine ([3 # 4], [3 # 4]) = ([2], [4])
  ∧ m_xmatrix <$> refine (matrix_of_columns 1 [[3 # 4]; [3 # 4]]) half1_rebuilt
    = Ok [[1; 2]; [0; 1]; [3]].
Proof. vm_compute. done. Qed.

(** A matrix without rows fails the first assertion of [refine].  A box
    inside the domain with its corners in the wrong order, in different
    knot spans, is sunk as the malformed index box from 6 to 2, which the
    tree rejects.  An upper corner below the domain passes the assertions
    of [refine]; its index is the one before the first knot. *)
Example refine_malformed :
  refine (matrix_of_columns 0 []) half1_rebuilt = AssertionFailed
  ∧ box_in_domain tb1 ([3 # 2], [1 # 2]) = true
  ∧ sunk_box tb1_fine ([3 # 2], [1 # 2]) = ([6], [2])
  ∧ refine (matrix_of_columns 1 [[3 # 2]; [1 # 2]]) half1_rebuilt
    = AssertionFailed
  ∧ box_in_domain tb1 ([0 # 1], [-1 # 1]) = true
  ∧ corner_indices kv1 (0 # 1) (-1 # 1) = (0, 2 ^ 32 - 1)%Z.
Proof. vm_compute. done. Qed.

Example insertBox_half1 :
  insertBox (m_tree fresh1) [0] [2] 1 = Some (m_tree half1)
  ∧ insertBox (m_tree fresh1) [2] [0] 1 = None.
Proof. vm_compute. done. Qed.



(** ** Instances of the theorems on the sample bases *)


Lemma update_structure_offsets_witness :
  wf_basis half1 ∧
  ∃ st', update_structure half1 = Ok st'
    ∧ m_bases half1 `prefix_of` m_bases st'
    ∧ length (m_xmatrix st') = length (m_bases st')
    ∧ length (m_xmatrix_offset st') = length (m_xmatrix st') + 1
    ∧ (∀ j b, m_bases st' !! j = Some b →
         ∃ cmat, m_xmatrix st' !! j = Some cmat
           ∧ level_exact (m_tree st') (m_deg st') j b cmat)
    ∧ m_xmatrix_offset st' !! 0 = Some 0
    ∧ (∀ i cmat, m_xmatrix st' !! i = Some cmat →
         ∃ o, m_xmatrix_offset st' !! i = Some o
              ∧ m_xmatrix_offset st' !! S i = Some (o + length cmat))
    ∧ (∀ i j oi oj, i ≤ j → m_xmatrix_offset st' !! i = Some oi →
         m_xmatrix_offset st' !! j = Some oj → oi ≤ oj)
    ∧ last (m_xmatrix_offset st') = Some (sum_list (length <$> m_xmatrix st'))
    ∧ size st' = Ok (sum_list (length <$> m_xmatrix st')).
Proof.
  split; [exact wf_half1|exact (update_structure_offsets half1 wf_half1)].
Defined.

Lemma update_structure_empty_tail_witness :
  @HDomainLaws T3 ∧ wf_basis half1 ∧ Forall has_functions tb1
  ∧ (∃ st', update_structure half1 = Ok st'
       ∧ length (m_xmatrix st') = length (m_bases st')
       ∧ (∀ i cmat, getMaxInsLevel (m_tree st') < i →
            m_xmatrix st' !! i = Some cmat → cmat = []))
  ∧ (∃ st' c0, construct tb1 = Ok st'
       ∧ length (m_bases st') = 3
       ∧ m_xmatrix st' = [c0; []; []]
       ∧ m_xmatrix_offset st' = [0; length c0; length c0; length c0]
       ∧ size st' = Ok (length c0)).
Proof.
  split; [exact (cell_tree_laws 3)|].
  split; [exact wf_half1|]. split; [exact has_functions_tb1|].
  destruct (@update_structure_empty_tail T3 (cell_tree_laws 3))
    as [Hupd Hcons].
  split.
  - destruct (Hupd half1 wf_half1) as (st' & H1 & H2 & H3 & _).
    exists st'. exact (conj H1 (conj H2 H3)).
  - exact (Hcons tb1 has_functions_tb1).
Defined.


Lemma flatTensorIndexToHierachicalIndex_spec_witness :
  (0 ≤ 1 ≤ INT_MAX)%Z
  ∧ m_xmatrix half1_rebuilt !! Z.to_nat 1 = Some [0; 1]
  ∧ m_xmatrix_offset half1_rebuilt !! Z.to_nat 1 = Some 2
  ∧ Sorted Nat.le [0; 1]
  ∧ (Z.of_nat (2 + length [0; 1]) ≤ INT_MAX)%Z
  ∧ (1 ∈ [0; 1] →
       [0; 1] !! rank [0; 1] 1 = Some 1
       ∧ flatTensorIndexToHierachicalIndex half1_rebuilt 1 1
         = Ok (Z.of_nat (2 + rank [0; 1] 1)))
  ∧ (1 ∉ [0; 1] →
       flatTensorIndexToHierachicalIndex half1_rebuilt 1 1 = Ok (-1)%Z).
Proof.
  assert (0 ≤ 1 ≤ INT_MAX)%Z as Hl by (unfold INT_MAX; lia).
  assert (Sorted Nat.le [0; 1]) as Hs by (repeat constructor).
  assert (Z.of_nat (2 + length [0; 1]) ≤ INT_MAX)%Z as Hb
    by (unfold INT_MAX; simpl; lia).
  split; [exact Hl|]. split; [reflexivity|]. split; [reflexivity|].
  split; [exact Hs|]. split; [exact Hb|].
  exact (flatTensorIndexToHierachicalIndex_spec half1_rebuilt 1 1 [0; 1] 2
           Hl eq_refl eq_refl Hs Hb).
Defined.

Lemma level_out_of_range_witness :
  (- 2 ^ 31 ≤ 3 ≤ INT_MAX)%Z
  ∧ (Z.of_nat (length (m_xmatrix half1_rebuilt)) ≤ INT_MAX)%Z
  ∧ ¬ (0 ≤ 3 < Z.of_nat (length (m_xmatrix half1_rebuilt)))%Z
  ∧ flatTensorIndexesToHierachicalIndexes half1_rebuilt [0; 1]%Z 3
    = AssertionFailed
  ∧ flatTensorIndexToHierachicalIndex half1_rebuilt 0 3 = Ok (-1)%Z.
Proof.
  assert (- 2 ^ 31 ≤ 3 ≤ INT_MAX)%Z as Hl by (unfold INT_MAX; lia).
  assert (Z.of_nat (length (m_xmatrix half1_rebuilt)) ≤ INT_MAX)%Z as Hn
    by (unfold INT_MAX; simpl; lia).
  assert (¬ (0 ≤ 3 < Z.of_nat (length (m_xmatrix half1_rebuilt)))%Z) as Ho
    by (simpl; lia).
  split; [exact Hl|]. split; [exact Hn|]. split; [exact Ho|].
  exact (level_out_of_range half1_rebuilt 0 [0; 1]%Z 3 Hl Hn Ho).
Defined.

Lemma makeCompressed_front_witness :
  m_xmatrix_offset full1_rebuilt = compute_offsets (m_xmatrix full1_rebuilt)
  ∧ length (m_bases full1_rebuilt) = length (m_xmatrix full1_rebuilt)
  ∧ (∃ i c, m_xmatrix full1_rebuilt !! i = Some c ∧ c ≠ [])
  ∧ ∃ n st', makeCompressed full1_rebuilt = Ok st'
      ∧ (∀ i, i < n → m_xmatrix full1_rebuilt !! i = Some [])
      ∧ (∃ c, m_xmatrix full1_rebuilt !! n = Some c ∧ c ≠ [])
      ∧ m_deg st' = m_deg full1_rebuilt
      ∧ m_bases st' = drop n (m_bases full1_rebuilt)
      ∧ m_xmatrix st' = drop n (m_xmatrix full1_rebuilt)
      ∧ m_xmatrix_offset st' = drop n (m_xmatrix_offset full1_rebuilt)
      ∧ m_tree st' = Nat.iter n decrementLevel (m_tree full1_rebuilt).
Proof.
  assert (∃ i c, m_xmatrix full1_rebuilt !! i = Some c ∧ c ≠ []) as Hne
    by (exists 1, [0; 1; 2; 3; 4]; split; [reflexivity|discriminate]).
  split; [reflexivity|]. split; [reflexivity|]. split; [exact Hne|].
  exact (makeCompressed_front full1_rebuilt eq_refl eq_refl Hne).
Defined.



(** ** Where the code departs from the specification *)

(** C4: on a basis whose level 0 has no active function, [makeCompressed]
    removes level 0 and keeps the empty level at the end. *)
Lemma makeCompressed_drops_coarsest :
  m_xmatrix full1_rebuilt = [[]; [0; 1; 2; 3; 4]; []]
  ∧ m_xmatrix <$> makeCompressed full1_rebuilt = Ok [[0; 1; 2; 3; 4]; []]
  ∧ m_bases <$> makeCompressed full1_rebuilt
    = Ok (drop 1 (m_bases full1_rebuilt))
  ∧ ¬ (∀ st st' : gsHTensorBasis, makeCompressed st = Ok st' →
         m_xmatrix st' `prefix_of` m_xmatrix st).
Proof.
  split; [reflexivity|]. split; [reflexivity|]. split; [reflexivity|].
  intros Hclaim.
  destruct (makeCompressed full1_rebuilt) as [st'| |] eqn:Hmc;
    [|vm_compute in Hmc; discriminate..].
  specialize (Hclaim _ _ Hmc) as [k Hk].
  vm_compute in Hmc. injection Hmc as <-. simpl in Hk. discriminate.
Qed.

(** C5: after [transfer2] on a freshly constructed basis the empty levels
    at the end are still there, four levels long, while [transfer] on the
    same input leaves one level and one basis. *)
Theorem transfer2_keeps_empty_levels :
  construct tb1 = Ok fresh1_rebuilt
  ∧ m_xmatrix <$> transfer (m_xmatrix fresh1_rebuilt) fresh1_rebuilt
    = Ok [[0; 1; 2]]
  ∧ (length ∘ m_bases) <$> transfer (m_xmatrix fresh1_rebuilt) fresh1_rebuilt
    = Ok 1
  ∧ m_xmatrix <$> transfer2 (m_xmatrix fresh1_rebuilt) fresh1_rebuilt
    = Ok [[0; 1; 2]; []; []; []]
  ∧ (length ∘ m_bases) <$> transfer2 (m_xmatrix fresh1_rebuilt) fresh1_rebuilt
    = Ok 4.
Proof. split; [exact construct_tb1|]. vm_compute. done. Qed.



(** C7: with three stored levels, the single-index form called with level 3
    returns -1 and does not fail. *)
Lemma single_index_returns_sentinel :
  length (m_xmatrix half1_rebuilt) = 3
  ∧ flatTensorIndexToHierachicalIndex half1_rebuilt 0 3 = Ok (-1)%Z
  ∧ ¬ (∀ (st : gsHTensorBasis) index level,
         (Z.of_nat (length (m_xmatrix st)) ≤ level)%Z →
         flatTensorIndexToHierachicalIndex st index level = AssertionFailed).
Proof.
  split; [reflexivity|]. split; [reflexivity|].
  intros Hclaim. specialize (Hclaim half1_rebuilt 0 3%Z).
  assert (Z.of_nat (length (m_xmatrix half1_rebuilt)) ≤ 3)%Z as Hle
    by (simpl; lia).
  specialize (Hclaim Hle). vm_compute in Hclaim. discriminate.
Qed.

(** * Properties of the further operations *)

(** ** Tensor indices and flat indices are inverse *)

Lemma tensor_of_index_in sizes k :
  Forall2 lt k sizes → tensor_of sizes (index_in sizes k) = k.
Proof.
  induction 1 as [|c e cs es Hc _ IH]; [done|].
  cbn [index_in tensor_of]. f_equal.
  - rewrite Nat.mul_comm, Nat.Div0.mod_add. by apply Nat.mod_small.
  - rewrite Nat.mul_comm, Nat.div_add by lia.
    rewrite Nat.div_small by done. done.
Qed.

Lemma index_in_tensor_of sizes n :
  Forall (λ s, 0 < s) sizes → n < foldr Nat.mul 1 sizes →
  Forall2 lt (tensor_of sizes n) sizes ∧ index_in sizes (tensor_of sizes n) = n.
Proof.
  intros Hs. revert n. induction Hs as [|s ss Hpos _ IH]; intros n Hn.
  - simpl in *. split; [constructor|lia].
  - cbn [foldr] in Hn. cbn [tensor_of index_in].
    destruct (IH (n `div` s)) as [IH1 IH2].
    { apply Nat.Div0.div_lt_upper_bound. lia. }
    split.
    + constructor; [|done]. apply Nat.mod_upper_bound. lia.
    + rewrite IH2. pose proof (Nat.div_mod_eq n s). lia.
Qed.

Lemma wf_sizes_pos deg b :
  wf_tensorBasis deg b → Forall (λ s, 0 < s) (tb_sizes b).
Proof.
  unfold tb_sizes, component_size.
  induction 1 as [|kv p b deg [<- Hs] _ IH]; simpl; constructor; [lia|done].
Qed.

Lemma filter_seq_sorted (P : nat → Prop) `{!∀ n, Decision (P n)} j n :
  StronglySorted lt (filter P (seq j n)).
Proof.
  revert j. induction n as [|n IH]; intros j; simpl; [constructor|].
  rewrite filter_cons. destruct (decide (P j)); [|apply IH].
  constructor; [apply IH|].
  apply Forall_forall. intros x [_ Hx%elem_of_seq]%list_elem_of_filter. lia.
Qed.

Lemma sorted_lt_le (l : list nat) : StronglySorted lt l → Sorted Nat.le l.
Proof.
  induction 1 as [|x l _ IH Hx]; [constructor|].
  constructor; [done|]. destruct l as [|y l]; constructor.
  apply Forall_cons in Hx as [Hy _]. lia.
Qed.

Lemma cmat_sort_sorted (l : list nat) : StronglySorted lt l → cmat_sort l = l.
Proof.
  intros Hl. unfold cmat_sort.
  apply (Sorted_unique Nat.le).
  - apply (Sorted_merge_sort Nat.le).
  - by apply sorted_lt_le.
  - apply merge_sort_Permutation.
Qed.

Section FurtherProofs.
Context `{HDomain}.

(** ** The loops of [set_activ1] and [setActiveToLvl], exactly *)

Lemma level_loop_exact top t deg b j fuel cur acc :
  wf_tensorBasis deg b → tensor_index b cur →
  tb_index b cur + fuel = foldr Nat.mul 1 (tb_sizes b) →
  level_loop fuel top t deg b j cur acc
  = Ok (acc ++ filter
          (λ n, (if top
                 then bool_decide
                        (j ≤ query3 t (support_low b (tensor_of (tb_sizes b) n))
                               (support_upp deg b (tensor_of (tb_sizes b) n)) j)
                 else bool_decide
                        (query3 t (support_low b (tensor_of (tb_sizes b) n))
                           (support_upp deg b (tensor_of (tb_sizes b) n)) j = j))
                = true)
          (seq (tb_index b cur) fuel)).
Proof.
  intros Hwf. set (P := λ n : nat, _ = true). revert cur acc.
  induction fuel as [|fuel IH]; intros cur acc Hcur Hfuel.
  { pose proof (index_in_lt _ _ Hcur). unfold tb_index in *. lia. }
  cbn [level_loop seq]. rewrite (activ_ends_sizes _ _ Hwf).
  assert (Hz : Forall (λ s, s = 0) (activ_starts b))
    by (unfold activ_starts; apply Forall_fmap, Forall_true; done).
  assert (Hl : length (activ_starts b) = length (tb_sizes b))
    by (unfold activ_starts, tb_sizes; by rewrite !length_fmap).
  assert (Hbody : ∀ rest,
            level_body top t deg b j cur acc ++ rest
            = acc ++ (if decide (P (tb_index b cur))
                      then tb_index b cur :: rest else rest)).
  { intros rest. unfold level_body.
    assert (P (tb_index b cur) ↔
            (if top
             then bool_decide
                    (j ≤ query3 t (support_low b cur) (support_upp deg b cur) j)
             else bool_decide
                    (query3 t (support_low b cur) (support_upp deg b cur) j = j))
            = true) as HP.
    { unfold P, tb_index. by rewrite (tensor_of_index_in _ _ Hcur). }
    destruct (decide (P (tb_index b cur))) as [Ht|Ht].
    - apply HP in Ht. rewrite Ht. by rewrite <- app_assoc.
    - rewrite HP in Ht. apply not_true_is_false in Ht. by rewrite Ht. }
  rewrite filter_cons.
  destruct (nextLexicographic cur (activ_starts b) (tb_sizes b))
    as [cur'|] eqn:Hn.
  - destruct (nextLexicographic_Some _ _ _ _ Hcur Hz Hl Hn) as [Hcur' Hrk].
    fold (tb_index b cur') (tb_index b cur) in Hrk.
    rewrite (IH cur' _ Hcur') by lia. rewrite Hrk. f_equal. apply Hbody.
  - pose proof (nextLexicographic_None _ _ _ Hcur Hz Hl Hn) as Hrk.
    fold (tb_index b cur) in Hrk.
    assert (fuel = 0) as -> by lia. f_equal.
    rewrite <- Hbody. simpl. by rewrite filter_nil, app_nil_r.
Qed.

Lemma activ_loop_level_loop fuel t deg b level cur acc :
  activ_loop fuel t deg b level cur acc
  = level_loop fuel false t deg b level cur acc.
Proof.
  revert cur acc. induction fuel as [|fuel IH]; intros cur acc; [done|].
  cbn [activ_loop level_loop].
  assert (activ_body t deg b level cur acc
          = level_body false t deg b level cur acc) as ->.
  { unfold activ_body, level_body. destruct (decide _) as [Hq|Hq].
    - by rewrite bool_decide_eq_true_2.
    - by rewrite bool_decide_eq_false_2. }
  destruct (nextLexicographic _ _ _); [apply IH|done].
Qed.

Lemma activ_loop_exact t deg b level :
  wf_tensorBasis deg b →
  activ_loop (foldr Nat.mul 1 (activ_ends deg b)) t deg b level
    (activ_starts b) []
  = Ok (active_list t deg b level).
Proof.
  intros Hwf. destruct (activ_starts_index _ _ Hwf) as [Hs0 Hi0].
  rewrite activ_loop_level_loop, (activ_ends_sizes _ _ Hwf).
  rewrite (level_loop_exact false t deg b level _ _ [] Hwf Hs0)
    by (rewrite Hi0; done).
  rewrite Hi0. simpl. f_equal. unfold active_list.
  apply list_filter_iff. intros n. by rewrite bool_decide_eq_true.
Qed.

Lemma covered_loop_exact t deg b level :
  wf_tensorBasis deg b →
  level_loop (foldr Nat.mul 1 (activ_ends deg b)) true t deg b level
    (activ_starts b) []
  = Ok (covered_list t deg b level).
Proof.
  intros Hwf. destruct (activ_starts_index _ _ Hwf) as [Hs0 Hi0].
  rewrite (activ_ends_sizes _ _ Hwf).
  rewrite (level_loop_exact true t deg b level _ _ [] Hwf Hs0)
    by (rewrite Hi0; done).
  rewrite Hi0. simpl. f_equal. unfold covered_list.
  apply list_filter_iff. intros n. by rewrite bool_decide_eq_true.
Qed.

Lemma set_activ1_exact level st b c0 :
  wf_tensorBasis (m_deg st) b →
  m_xmatrix st !! level = Some c0 → m_bases st !! level = Some b →
  set_activ1 level st
  = Ok (set_xmatrix st
          (<[level := level_set (m_tree st) (m_deg st) level b]> (m_xmatrix st))).
Proof.
  intros Hwf Hx Hb. unfold set_activ1, level_set. rewrite Hx.
  destruct (decide _); [done|]. rewrite Hb, (activ_loop_exact _ _ _ _ Hwf).
  simpl. unfold active_list. by rewrite cmat_sort_sorted by apply filter_seq_sorted.
Qed.

Lemma for_set_activ1_exact n i st :
  Forall (wf_tensorBasis (m_deg st)) (m_bases st) →
  length (m_xmatrix st) = length (m_bases st) →
  i + n = length (m_bases st) →
  ∃ xm, for_loop set_activ1 i n st = Ok (set_xmatrix st xm)
    ∧ length xm = length (m_bases st)
    ∧ (∀ j, j < i → xm !! j = m_xmatrix st !! j)
    ∧ ∀ j b, i ≤ j → m_bases st !! j = Some b →
        xm !! j = Some (level_set (m_tree st) (m_deg st) j b).
Proof.
  revert i st. induction n as [|n IH]; intros i st Hwf Hlen Hn; simpl.
  - exists (m_xmatrix st). split_and!; [by destruct st|done|done|].
    intros j b Hj Hb%lookup_lt_Some. lia.
  - destruct (lookup_lt_is_Some_2 (m_bases st) i) as [b Hb]; [lia|].
    destruct (lookup_lt_is_Some_2 (m_xmatrix st) i) as [c0 Hc0]; [lia|].
    pose proof (Forall_lookup_1 _ _ _ _ Hwf Hb) as Hwfb.
    rewrite (set_activ1_exact i st b c0 Hwfb Hc0 Hb). simpl.
    destruct (IH (S i) (set_xmatrix st
                (<[i:=level_set (m_tree st) (m_deg st) i b]> (m_xmatrix st))))
      as (xm & -> & Hxlen & Hlow & Hhigh); simpl.
    { done. } { by rewrite length_insert. } { lia. }
    simpl in Hxlen, Hlow, Hhigh.
    exists xm. split_and!; [done|done|..].
    + intros j Hj. rewrite Hlow by lia. by rewrite list_lookup_insert_ne by lia.
    + intros j b' Hj Hb'. destruct (decide (j = i)) as [->|Hne].
      * rewrite Hlow by lia. rewrite list_lookup_insert_eq by lia.
        by simplify_eq.
      * apply Hhigh; [lia|done].
Qed.

Lemma update_structure_exact st :
  wf_basis st →
  ∃ bs,
    needLevel_loop (getMaxInsLevel (m_tree st) + 1 - length (m_bases st))
      (m_bases st) = Ok bs
    ∧ Forall (wf_tensorBasis (m_deg st)) bs
    ∧ update_structure st
      = Ok (HTensorBasis (m_deg st) bs (tree_makeCompressed (m_tree st))
              (imap (level_set (tree_makeCompressed (m_tree st)) (m_deg st)) bs)
              (compute_offsets
                 (imap (level_set (tree_makeCompressed (m_tree st)) (m_deg st))
                    bs))).
Proof.
  intros Hwf. unfold update_structure, needLevel.
  destruct (needLevel_loop_Ok (m_deg st)
              (getMaxInsLevel (m_tree st) + 1 - length (m_bases st))
              (m_bases st) (proj1 Hwf) (proj2 Hwf))
    as (bs & Hbs & Hlen & Hwfs & Hpre).
  rewrite Hbs. simpl. exists bs. split; [done|]. split; [done|].
  set (st3 := set_tree _ _).
  destruct (for_set_activ1_exact (length bs) 0 st3) as (xm & Hloop & Hxlen & _ & Hex).
  { done. } { simpl. by rewrite length_replicate. } { done. }
  simpl in Hloop. rewrite length_replicate, Hloop. simpl.
  assert (xm = imap (level_set (tree_makeCompressed (m_tree st)) (m_deg st)) bs)
    as ->; [|done].
  apply list_eq. intros j. rewrite list_lookup_imap.
  destruct (bs !! j) as [b|] eqn:Hb; simpl.
  - apply (Hex j b); [lia|done].
  - apply lookup_ge_None. apply lookup_ge_None in Hb. simpl in Hxlen. lia.
Qed.

Lemma level_set_sorted t deg level b :
  StronglySorted lt (level_set t deg level b)
  ∧ Forall (λ x, x < foldr Nat.mul 1 (tb_sizes b)) (level_set t deg level b).
Proof.
  unfold level_set. destruct (decide _); [split; constructor|].
  unfold active_list. split; [apply filter_seq_sorted|].
  apply Forall_forall. intros x [_ Hx%elem_of_seq]%list_elem_of_filter. lia.
Qed.

(** X1.  After [update_structure] the active set of every stored level is
    exactly the list of the flat indices whose tensor index passes the
    query test, and is empty above the highest level of the tree; it is
    strictly increasing, so it has no duplicates, and every entry is below
    the number of functions of the level. *)
Theorem update_structure_sets_exact st :
  wf_basis st →
  ∃ st', update_structure st = Ok st'
    ∧ ∀ j b, m_bases st' !! j = Some b →
        m_xmatrix st' !! j = Some (level_set (m_tree st') (m_deg st') j b)
        ∧ StronglySorted lt (level_set (m_tree st') (m_deg st') j b)
        ∧ Forall (λ x, x < foldr Nat.mul 1 (tb_sizes b))
            (level_set (m_tree st') (m_deg st') j b).
Proof.
  intros Hwf. destruct (update_structure_exact st Hwf) as (bs & _ & _ & ->).
  eexists. split; [done|]. simpl. intros j b Hb.
  rewrite list_lookup_imap, Hb. split; [done|]. apply level_set_sorted.
Qed.

(** ** [needLevel] *)

Lemma needLevel_loop_total n bases :
  bases ≠ [] →
  ∃ bs, needLevel_loop n bases = Ok bs ∧ length bs = length bases + n
        ∧ bases `prefix_of` bs
        ∧ (refinement_chain bases → refinement_chain bs).
Proof.
  revert bases. induction n as [|n IH]; intros bases Hne; simpl.
  - exists bases. split_and!; [done|lia|done|done].
  - destruct (last bases) as [b|] eqn:Hlast; [|by apply last_None in Hlast].
    destruct (IH (bases ++ [tb_uniformRefine 1 b])) as (bs & -> & Hlen & Hpre & Hch).
    { by destruct bases. }
    exists bs. rewrite length_app in Hlen. simpl in Hlen.
    split_and!; [done|lia| |].
    + etrans; [|exact Hpre]. by apply prefix_app_r.
    + intros Hchain. apply Hch. intros i c c' Hc Hc'.
      destruct (decide (S i < length bases)) as [Hlt|Hge].
      * rewrite lookup_app_l in Hc, Hc' by lia. by apply (Hchain i).
      * apply lookup_lt_Some in Hc' as Hi. rewrite length_app in Hi.
        simpl in Hi. assert (S i = length bases) as Heq by lia.
        rewrite lookup_app_l in Hc by lia.
        rewrite lookup_app_r, Heq, Nat.sub_diag in Hc' by lia.
        rewrite last_lookup in Hlast.
        assert (pred (length bases) = i) as Hp by lia. rewrite Hp in Hlast.
        simpl in Hc'. by simplify_eq.
Qed.

(** X2.  [needLevel(L)] only appends levels: the bases it finds stay a
    prefix, afterwards there are [max (size, L+1)] bases, and calling it
    again for the same or a smaller level changes nothing. *)
Theorem needLevel_idempotent maxLevel st :
  m_bases st ≠ [] →
  ∃ st', needLevel maxLevel st = Ok st'
    ∧ m_bases st `prefix_of` m_bases st'
    ∧ length (m_bases st') = length (m_bases st) `max` (maxLevel + 1)
    ∧ ∀ l, l ≤ maxLevel → needLevel l st' = Ok st'.
Proof.
  intros Hne. unfold needLevel.
  destruct (needLevel_loop_total (maxLevel + 1 - length (m_bases st))
              (m_bases st) Hne) as (bs & -> & Hlen & Hpre & _).
  eexists. split; [done|]. simpl. split_and!; [done|lia|].
  intros l Hl. assert (l + 1 - length bs = 0) as -> by lia. done.
Qed.

(** X3.  Construction produces bases of which each is the uniform
    refinement of the one before, and [update_structure] keeps that. *)
Theorem refinement_chain_kept :
  (∀ tbasis, Forall has_functions tbasis →
     ∃ st', construct tbasis = Ok st' ∧ refinement_chain (m_bases st'))
  ∧ (∀ st, wf_basis st → refinement_chain (m_bases st) →
       ∃ st', update_structure st = Ok st' ∧ refinement_chain (m_bases st')).
Proof.
  assert (∀ st, wf_basis st → refinement_chain (m_bases st) →
            ∃ st', update_structure st = Ok st' ∧ refinement_chain (m_bases st'))
    as Hupd.
  { intros st Hwf Hchain.
    destruct (update_structure_exact st Hwf) as (bs & Hbs & _ & ->).
    eexists. split; [done|]. simpl.
    destruct (needLevel_loop_total
                (getMaxInsLevel (m_tree st) + 1 - length (m_bases st))
                (m_bases st) (proj1 Hwf)) as (bs' & Hbs' & _ & _ & Hch).
    rewrite Hbs in Hbs'. injection Hbs' as <-. by apply Hch. }
  split; [|exact Hupd].
  intros tbasis Htb. unfold construct. apply Hupd.
  - split; [done|]. simpl.
    assert (wf_tensorBasis (kv_degree <$> tbasis) tbasis) as Hw.
    { unfold wf_tensorBasis. apply Forall2_fmap_r, Forall_Forall2_diag.
      eapply Forall_impl; [exact Htb|]. intros kv Hkv. by split. }
    repeat (apply Forall_cons; split); [done|..|done];
      by repeat apply wf_tb_uniformRefine.
  - intros [|[|[|i]]] b b' Hb Hb'; simpl in *; by simplify_eq.
Qed.

(** ** Rebuilding twice, and a new basis *)

Lemma update_structure_wf st st' :
  wf_basis st → update_structure st = Ok st' →
  wf_basis st' ∧ m_deg st' = m_deg st
  ∧ m_tree st' = tree_makeCompressed (m_tree st)
  ∧ getMaxInsLevel (m_tree st) + 1 ≤ length (m_bases st')
  ∧ m_xmatrix st'
    = imap (level_set (m_tree st') (m_deg st')) (m_bases st')
  ∧ m_xmatrix_offset st' = compute_offsets (m_xmatrix st').
Proof.
  intros Hwf Hupd.
  destruct (update_structure_exact st Hwf) as (bs & Hbs & Hwfs & Heq).
  rewrite Hupd in Heq. injection Heq as ->. simpl.
  destruct (needLevel_loop_total
              (getMaxInsLevel (m_tree st) + 1 - length (m_bases st))
              (m_bases st) (proj1 Hwf)) as (bs' & Hbs' & Hlen & Hpre & _).
  rewrite Hbs in Hbs'. injection Hbs' as <-.
  split_and!; [|done|done|lia|done|done].
  split; [|done]. simpl. intros ->. destruct Hwf as [Hne _].
  by apply prefix_nil_inv in Hpre.
Qed.

Section QueryLaws.
Context `{!HDomainLaws} `{!HDomainQueryLaws}.

(** X4.  [update_structure] is idempotent: on a basis it has just rebuilt,
    a second call returns the same basis. *)
Theorem update_structure_idempotent st st' :
  wf_basis st → update_structure st = Ok st' → update_structure st' = Ok st'.
Proof.
  intros Hwf Hupd.
  destruct (update_structure_wf st st' Hwf Hupd)
    as (Hwf' & Hdeg & Htree & Hlen & Hxm & Hoff).
  destruct (update_structure_exact st' Hwf') as (bs & Hbs & _ & ->).
  assert (getMaxInsLevel (m_tree st') + 1 - length (m_bases st') = 0) as Hz.
  { rewrite Htree, compress_maxLevel. lia. }
  rewrite Hz in Hbs. simpl in Hbs. injection Hbs as <-.
  assert (tree_makeCompressed (m_tree st') = m_tree st') as ->
    by (rewrite Htree; apply compress_compress).
  rewrite <- Hxm, <- Hoff. by destruct st'.
Qed.

(** X5.  In a newly constructed basis every function of the given tensor
    basis is active at level 0 and nothing else is: the active sets are
    [0 .. N-1], empty, empty, and [size()] is the number [N] of tensor
    functions. *)
Theorem construct_all_active tbasis :
  Forall has_functions tbasis →
  ∃ st', construct tbasis = Ok st'
    ∧ m_bases st' = [tbasis; tb_uniformRefine 1 tbasis;
                     tb_uniformRefine 1 (tb_uniformRefine 1 tbasis)]
    ∧ m_xmatrix st' = [seq 0 (foldr Nat.mul 1 (tb_sizes tbasis)); []; []]
    ∧ size st' = Ok (foldr Nat.mul 1 (tb_sizes tbasis)).
Proof.
  intros Htb. unfold construct.
  set (st0 := initialize_class tbasis).
  assert (wf_basis st0) as Hwf.
  { split; [done|]. simpl.
    assert (wf_tensorBasis (kv_degree <$> tbasis) tbasis) as Hw.
    { unfold wf_tensorBasis. apply Forall2_fmap_r, Forall_Forall2_diag.
      eapply Forall_impl; [exact Htb|]. intros kv Hkv. by split. }
    repeat (apply Forall_cons; split); [done|..|done];
      by repeat apply wf_tb_uniformRefine. }
  destruct (update_structure_exact st0 Hwf) as (bs & Hbs & _ & ->).
  simpl in Hbs. rewrite init_maxLevel in Hbs. simpl in Hbs.
  injection Hbs as <-. eexists. split; [done|]. simpl.
  assert (∀ b, level_set (tree_makeCompressed
                 (tree_init ((λ kv, uSize kv - 1) <$> tbasis)))
                 (kv_degree <$> tbasis) 0 b
               = seq 0 (foldr Nat.mul 1 (tb_sizes b))) as Hl0.
  { intros b. unfold level_set.
    rewrite decide_False by lia. unfold active_list.
    induction (seq 0 _) as [|x l IH]; [done|].
    rewrite filter_cons, decide_True, IH; [done|].
    by rewrite compress_query3, init_query3. }
  assert (∀ j b, level_set (tree_makeCompressed
                 (tree_init ((λ kv, uSize kv - 1) <$> tbasis)))
                 (kv_degree <$> tbasis) (S j) b = []) as HS.
  { intros j b. unfold level_set. rewrite decide_True; [done|].
    rewrite compress_maxLevel, init_maxLevel. lia. }
  rewrite Hl0, !HS. split; [done|]. split; [done|].
  unfold size, compute_offsets, push_offset. simpl.
  rewrite length_seq. f_equal. lia.
Qed.

End QueryLaws.

(** ** [setActiveToLvl] *)

Lemma setActiveToLvl_step level st j b (x : list (list nat)) :
  wf_tensorBasis (m_deg st) b → m_bases st !! j = Some b →
  (cmat ← level_loop (foldr Nat.mul 1 (activ_ends (m_deg st) b))
             (bool_decide (¬ j < level)) (m_tree st) (m_deg st) b j
             (activ_starts b) [];
   Ok (<[j := cmat_sort cmat]> x))
  = Ok (<[j := if decide (j < level)
               then active_list (m_tree st) (m_deg st) b j
               else covered_list (m_tree st) (m_deg st) b j]> x).
Proof.
  intros Hwf Hb. destruct (decide (j < level)) as [Hj|Hj].
  - rewrite bool_decide_eq_false_2 by (intros Hn; by apply Hn).
    rewrite <- activ_loop_level_loop, (activ_loop_exact _ _ _ _ Hwf). simpl.
    unfold active_list. by rewrite cmat_sort_sorted by apply filter_seq_sorted.
  - rewrite bool_decide_eq_true_2 by done.
    rewrite (covered_loop_exact _ _ _ _ Hwf). simpl.
    unfold covered_list. by rewrite cmat_sort_sorted by apply filter_seq_sorted.
Qed.

Lemma setActiveToLvl_loop level st n i (x : list (list nat)) :
  Forall (wf_tensorBasis (m_deg st)) (m_bases st) →
  i + n ≤ length (m_bases st) → i + n ≤ length x →
  ∃ x',
    for_loop
      (λ j x,
         match m_bases st !! j with
         | None => Undefined
         | Some b =>
             cmat ← level_loop (foldr Nat.mul 1 (activ_ends (m_deg st) b))
                      (bool_decide (¬ j < level)) (m_tree st) (m_deg st) b j
                      (activ_starts b) [];
             Ok (<[j := cmat_sort cmat]> x)
         end) i n x = Ok x'
    ∧ length x' = length x
    ∧ (∀ j, j < i → x' !! j = x !! j)
    ∧ ∀ j b, i ≤ j < i + n → m_bases st !! j = Some b →
        x' !! j = Some (if decide (j < level)
                        then active_list (m_tree st) (m_deg st) b j
                        else covered_list (m_tree st) (m_deg st) b j).
Proof.
  intros Hwf. revert i x. induction n as [|n IH]; intros i x Hb Hx.
  - exists x. split_and!; [done..|]. intros j b Hj. lia.
  - cbn [for_loop].
    destruct (lookup_lt_is_Some_2 (m_bases st) i) as [b Hbi]; [lia|].
    rewrite Hbi.
    rewrite (setActiveToLvl_step level st i b x
               (Forall_lookup_1 _ _ _ _ Hwf Hbi) Hbi).
    cbn [mbind result_bind].
    set (x1 := <[i:=_]> x).
    destruct (IH (S i) x1) as (x' & -> & Hlen & Hlow & Hhigh).
    { lia. } { unfold x1. rewrite length_insert. lia. }
    unfold x1 in *. rewrite length_insert in Hlen.
    exists x'. split_and!; [done|done|..].
    + intros j Hj. rewrite Hlow by lia. by rewrite list_lookup_insert_ne by lia.
    + intros j b' Hj Hb'. destruct (decide (j = i)) as [->|Hne].
      * rewrite Hlow by lia. rewrite list_lookup_insert_eq by lia.
        by simplify_eq.
      * apply Hhigh; [lia|done].
Qed.

Lemma setActiveToLvl_loop_short level st n i (x : list (list nat)) :
  Forall (wf_tensorBasis (m_deg st)) (m_bases st) →
  i ≤ length (m_bases st) → length (m_bases st) < i + n → i + n ≤ length x →
  for_loop
    (λ j x,
       match m_bases st !! j with
       | None => Undefined
       | Some b =>
           cmat ← level_loop (foldr Nat.mul 1 (activ_ends (m_deg st) b))
                    (bool_decide (¬ j < level)) (m_tree st) (m_deg st) b j
                    (activ_starts b) [];
           Ok (<[j := cmat_sort cmat]> x)
       end) i n x = Undefined.
Proof.
  intros Hwf. revert i x. induction n as [|n IH]; intros i x Hi Hn Hx; [lia|].
  cbn [for_loop].
  destruct (m_bases st !! i) as [b|] eqn:Hbi; [|done].
  rewrite (setActiveToLvl_step level st i b x
             (Forall_lookup_1 _ _ _ _ Hwf Hbi) Hbi).
  cbn [mbind result_bind]. apply lookup_lt_Some in Hbi.
  apply IH; [lia|lia|]. rewrite length_insert. lia.
Qed.

(** X6.  On a rebuilt basis [setActiveToLvl(level)] returns [level + 1]
    sets; below [level], up to the highest level of the tree, they are the
    stored active sets, and its last set contains the stored active set of
    [level].  For a level that is not stored it runs off the bases. *)
Theorem setActiveToLvl_agrees st st' level :
  wf_basis st → update_structure st = Ok st' →
  (level < length (m_bases st') →
     ∃ x, setActiveToLvl level st' = Ok x ∧ length x = level + 1
       ∧ (∀ j, j < level → j ≤ getMaxInsLevel (m_tree st') →
            x !! j = m_xmatrix st' !! j)
       ∧ (∀ cmat, m_xmatrix st' !! level = Some cmat →
            ∃ xl, x !! level = Some xl ∧ cmat ⊆ xl))
  ∧ (length (m_bases st') ≤ level → setActiveToLvl level st' = Undefined).
Proof.
  intros Hwf Hupd.
  destruct (update_structure_wf st st' Hwf Hupd)
    as ([Hne' Hwf'] & _ & _ & _ & Hxm & _).
  split.
  - intros Hlevel. unfold setActiveToLvl.
    destruct (setActiveToLvl_loop level st' (level + 1) 0
                (replicate (level + 1) []) Hwf')
      as (x & -> & Hlen & _ & Hx).
    { lia. } { rewrite length_replicate. lia. }
    rewrite length_replicate in Hlen.
    exists x. split_and!; [done|done|..].
    + intros j Hj Hmax.
      destruct (lookup_lt_is_Some_2 (m_bases st') j) as [b Hb]; [lia|].
      rewrite (Hx j b) by (done || lia). rewrite decide_True by done.
      rewrite Hxm, list_lookup_imap, Hb. simpl. unfold level_set.
      by rewrite decide_False by lia.
    + intros cmat Hc.
      destruct (lookup_lt_is_Some_2 (m_bases st') level) as [b Hb]; [lia|].
      rewrite (Hx level b) by (done || lia). rewrite decide_False by lia.
      eexists. split; [done|].
      rewrite Hxm, list_lookup_imap, Hb in Hc. simpl in Hc.
      injection Hc as <-. unfold level_set.
      destruct (decide _); [by intros ? ?%elem_of_nil|].
      intros m. unfold active_list, covered_list.
      rewrite !list_elem_of_filter. intros [Hq ?]. split; [lia|done].
  - intros Hlevel. unfold setActiveToLvl.
    apply setActiveToLvl_loop_short; [done|lia|lia|].
    rewrite length_replicate. lia.
Qed.

(** ** [makeCompressed], [transfer] and [transfer2] keep the arrays aligned *)

Lemma offsets_from_drop_empty n o (xm : list (list nat)) :
  (∀ i, i < n → xm !! i = Some []) →
  drop n (offsets_from o xm) = offsets_from o (drop n xm).
Proof.
  revert o xm. induction n as [|n IH]; intros o xm Hemp; [done|].
  destruct xm as [|c xm]; [by specialize (Hemp 0 ltac:(lia))|].
  pose proof (Hemp 0 ltac:(lia)) as H0. simpl in H0. injection H0 as ->.
  rewrite offsets_from_unfold. simpl drop. rewrite IH.
  - simpl. by rewrite Nat.add_0_r.
  - intros i Hi. apply (Hemp (S i)). lia.
Qed.

Lemma sum_drop_empty n (xm : list (list nat)) :
  (∀ i, i < n → xm !! i = Some []) →
  sum_list (length <$> drop n xm) = sum_list (length <$> xm).
Proof.
  intros Hemp. rewrite <- (take_drop n xm) at 2.
  rewrite fmap_app, sum_list_with_app, (sum_list_empty (take n xm)); [done|].
  apply Forall_lookup_2. intros i c Hi.
  apply lookup_take_Some in Hi as [Hi Hlt].
  specialize (Hemp i Hlt). by simplify_eq.
Qed.

Lemma makeCompressed_loop_all_empty deg (xm : list (list nat)) :
  Forall (λ c, c = []) xm →
  ∀ bases t, makeCompressed_loop deg (offsets_from 0 xm) bases t xm = Undefined.
Proof.
  induction 1 as [|c xm -> _ IH]; intros bases t; [done|].
  rewrite (offsets_from_unfold 0 ([] :: xm)).
  rewrite (offsets_from_unfold (0 + length []) xm).
  rewrite makeCompressed_loop_unfold.
  change (0 + length (@nil nat)) with 0. rewrite decide_True by done.
  destruct bases as [|b bases]; [done|].
  rewrite <- (offsets_from_unfold 0 xm). apply IH.
Qed.

(** X7.  With the offset table in place, [makeCompressed] returns exactly
    when some level has an active function.  It then keeps the offset
    table the prefix sums of the sizes, one active set per basis and the
    value of [size()], leaves a first level that is not empty, and a second
    call changes nothing.  When no level has an active function it runs off
    the offset table. *)
Theorem makeCompressed_keeps_invariants st :
  m_xmatrix_offset st = compute_offsets (m_xmatrix st) →
  length (m_bases st) = length (m_xmatrix st) →
  ((∃ i c, m_xmatrix st !! i = Some c ∧ c ≠ []) →
     ∃ st', makeCompressed st = Ok st'
       ∧ m_xmatrix_offset st' = compute_offsets (m_xmatrix st')
       ∧ length (m_bases st') = length (m_xmatrix st')
       ∧ size st' = size st
       ∧ (∃ c, m_xmatrix st' !! 0 = Some c ∧ c ≠ [])
       ∧ makeCompressed st' = Ok st')
  ∧ (Forall (λ c, c = []) (m_xmatrix st) → makeCompressed st = Undefined).
Proof.
  intros Hoff Hlen. split.
  - intros Hne. unfold makeCompressed at 1. rewrite Hoff, compute_offsets_from.
    destruct (makeCompressed_loop_spec (m_deg st) (m_xmatrix st) (m_bases st)
                (m_tree st) Hlen Hne) as (n & c & Hemp & Hn & Hc & ->).
    eexists. split; [done|]. simpl.
    rewrite (offsets_from_drop_empty _ _ _ Hemp), <- compute_offsets_from.
    assert (drop n (m_xmatrix st) !! 0 = Some c) as Hc0
      by (rewrite lookup_drop, Nat.add_0_r; done).
    split_and!.
    + done.
    + rewrite !length_drop. lia.
    + unfold size. simpl. rewrite Hoff, !compute_offsets_from, !offsets_from_last.
      by rewrite (sum_drop_empty _ _ Hemp).
    + by exists c.
    + unfold makeCompressed. simpl. rewrite compute_offsets_from.
      destruct (drop n (m_xmatrix st)) as [|c' xm'] eqn:Hd; [done|].
      simpl in Hc0. injection Hc0 as ->.
      rewrite (offsets_from_unfold 0 (c :: xm')).
      rewrite (offsets_from_unfold (0 + length c) xm').
      rewrite makeCompressed_loop_unfold, decide_False; [done|].
      destruct c; [done|simpl; lia].
  - intros Hall. unfold makeCompressed. rewrite Hoff, compute_offsets_from.
    by apply makeCompressed_loop_all_empty.
Qed.

Lemma pop_empty_all_empty (l : list (list nat)) :
  Forall (λ c, c = []) l → pop_empty l = Undefined.
Proof. induction 1 as [|c l -> _ IH]; [done|]. simpl. exact IH. Qed.

(** X8.  On a basis with one active set per level, [transfer] returns
    exactly when some level has an active function.  It then leaves as
    many bases as active sets, removes only empty levels from the end of
    the padded active sets, and the last level it leaves is not empty.
    When no level has an active function it pops past the first level. *)
Theorem transfer_prunes old st :
  wf_basis st → length (m_xmatrix st) = length (m_bases st) →
  ((∃ c, c ∈ m_xmatrix st ∧ c ≠ []) →
     ∃ st' k, transfer old st = Ok st'
       ∧ length (m_xmatrix st') = length (m_bases st')
       ∧ pad_xmatrix (length old) (m_xmatrix st)
         = m_xmatrix st' ++ replicate k []
       ∧ (∃ c, last (m_xmatrix st') = Some c ∧ c ≠ []))
  ∧ (Forall (λ c, c = []) (m_xmatrix st) → transfer old st = Undefined).
Proof.
  intros Hwf Hlen. split; [by apply transfer_prunes_tail|].
  intros Hall. unfold transfer.
  destruct (needLevel_Ok (length old) st Hwf) as (bs & -> & Hbl & _ & Hpre).
  simpl. rewrite decide_False.
  2:{ intros ->. destruct Hwf as [Hne _]. by apply prefix_nil_inv in Hpre. }
  simpl. unfold drop_empty_tail. rewrite pop_empty_all_empty; [done|].
  apply Forall_reverse, Forall_app. split; [done|].
  by apply Forall_replicate.
Qed.

(** X9.  [transfer2] keeps one active set per basis: from arrays of equal
    length it returns arrays of equal length, [max (size, old.size() + 1)]
    long, with the old active sets unchanged at the front and empty ones
    added. *)
Theorem transfer2_keeps_lengths old st :
  m_bases st ≠ [] → length (m_xmatrix st) = length (m_bases st) →
  ∃ st', transfer2 old st = Ok st'
    ∧ length (m_xmatrix st') = length (m_bases st')
    ∧ length (m_bases st') = length (m_bases st) `max` (length old + 1)
    ∧ m_bases st `prefix_of` m_bases st'
    ∧ m_xmatrix st'
      = m_xmatrix st
        ++ replicate (length old + 1 - length (m_xmatrix st)) [].
Proof.
  intros Hne Hlen. unfold transfer2, needLevel.
  destruct (needLevel_loop_total (length old + 1 - length (m_bases st))
              (m_bases st) Hne) as (bs & -> & Hbl & Hpre & _).
  simpl. rewrite decide_False.
  2:{ intros ->. by apply prefix_nil_inv in Hpre. }
  simpl. eexists. split; [done|]. simpl. unfold pad_xmatrix.
  rewrite length_app, length_replicate. split_and!; [lia|lia|done|done].
Qed.

(** ** The batch lookup agrees with the single lookup *)

Lemma rank_app_head pre x (xmat : list nat) :
  Forall (λ y, y < x) pre → Forall (λ y, x ≤ y) xmat →
  rank (pre ++ xmat) x = length pre.
Proof.
  intros Hpre Hx. unfold rank. rewrite filter_app, length_app.
  fold (rank xmat x). rewrite (rank_zero _ _ Hx).
  assert (filter (λ y, y < x) pre = pre) as ->; [|lia].
  induction Hpre as [|y pre Hy _ IH]; [done|].
  by rewrite filter_cons_True, IH.
Qed.

Lemma sorted_app_cons_inv pre x (xmat : list nat) :
  Sorted Nat.le (pre ++ x :: xmat) → Forall (λ y, x ≤ y) xmat.
Proof.
  intros Hs%Sorted_StronglySorted; [|apply _].
  apply StronglySorted_app_1_r in Hs.
  by apply StronglySorted_cons in Hs as [? _].
Qed.

Lemma batch_loop_spec cmat off inds xmat index :
  ∀ pre, cmat = pre ++ xmat → length pre = index →
    Sorted Nat.le cmat → Forall (λ x, (Z.of_nat x ≤ INT_MAX)%Z) cmat →
    StronglySorted Z.lt inds → Forall (λ i, (0 ≤ i)%Z) inds →
    (∀ i x, i ∈ inds → x ∈ pre → (Z.of_nat x < i)%Z) →
    Forall2 (λ i out,
               out = if decide (Z.to_nat i ∈ cmat)
                     then to_int (Z.of_nat (off + rank cmat (Z.to_nat i)))
                     else (-1)%Z)
      inds (hierarchical_indexes_loop off inds xmat index).
Proof.
  funelim (hierarchical_indexes_loop off inds xmat index);
    intros pre Hcmat Hlen Hs Hfit Hinds Hnn Hpre;
    try (assert (to_int (Z.of_nat x) = Z.of_nat x) as Hx;
         [ apply to_int_small; split; [lia|];
           subst cmat; apply Forall_app in Hfit as [_ Hfit];
           by apply Forall_cons in Hfit as [? _] |]).
  - constructor.
  - rewrite app_nil_r in Hcmat. subst cmat.
    assert (∀ j, j ∈ i :: inds → Z.to_nat j ∉ pre) as Hnot.
    { intros j Hj Hin. specialize (Hpre j _ Hj Hin). lia. }
    constructor.
    + rewrite decide_False; [done|]. apply Hnot. by left.
    + apply Forall2_fmap_r, Forall_Forall2_diag, Forall_forall.
      intros j Hj. rewrite decide_False; [done|]. apply Hnot. by right.
  - clear Heq. rewrite Hx in l.
    apply Forall_cons in Hnn as [Hi Hnn].
    constructor.
    + rewrite decide_False; [done|]. subst cmat. intros Hin.
      apply elem_of_app in Hin as [Hin|Hin].
      * specialize (Hpre i _ ltac:(by left) Hin). lia.
      * apply sorted_app_cons_inv in Hs.
        apply elem_of_cons in Hin as [Hin|Hin]; [lia|].
        pose proof (proj1 (Forall_forall _ _) Hs _ Hin) as Hle. simpl in Hle. lia.
    + apply (H0 cmat pre); try done.
      * by apply StronglySorted_cons in Hinds as [_ ?].
      * intros j y Hj Hy. apply Hpre; [by right|done].
  - clear Heq Heq0. rewrite Hx in *. subst i.
    apply StronglySorted_cons in Hinds as [Hlt Hinds].
    apply Forall_cons in Hnn as [Hi Hnn].
    constructor.
    + rewrite Nat2Z.id.
      rewrite decide_True by (subst cmat; apply elem_of_app; right; by left).
      subst cmat. rewrite rank_app_head; [by subst index|..].
      * apply Forall_forall. intros y Hy.
        specialize (Hpre _ _ ltac:(by left) Hy). lia.
      * constructor; [done|]. by apply sorted_app_cons_inv in Hs.
    + apply (H0 cmat (pre ++ [x])); try done.
      * subst cmat. by rewrite <- app_assoc.
      * rewrite length_app. simpl. lia.
      * intros j y Hj Hy. apply elem_of_app in Hy as [Hy|Hy].
        -- apply Hpre; [by right|done].
        -- apply list_elem_of_singleton in Hy as ->.
           by apply (proj1 (Forall_forall _ _) Hlt).
  - clear Heq Heq0. rewrite Hx in *.
    apply (H0 cmat (pre ++ [x])); try done.
    + subst cmat. by rewrite <- app_assoc.
    + rewrite length_app. simpl. lia.
    + intros j y Hj Hy. apply elem_of_app in Hy as [Hy|Hy].
      * by apply Hpre.
      * apply list_elem_of_singleton in Hy as ->.
        apply elem_of_cons in Hj as [->|Hj]; [lia|].
        apply StronglySorted_cons in Hinds as [Hlt _].
        pose proof (proj1 (Forall_forall _ _) Hlt _ Hj). lia.
Qed.

(** X10. On strictly increasing, nonnegative indexes the batch lookup
    [flatTensorIndexesToHierachicalIndexes] of a stored level with a sorted
    active set succeeds and returns, position by position, what the single
    lookup [flatTensorIndexToHierachicalIndex] returns for the same index
    and level (the hierarchical index that fits an [int], or -1). *)
Theorem batch_lookup_agrees st indexes level cmat off :
  (0 ≤ level ≤ INT_MAX)%Z →
  m_xmatrix st !! Z.to_nat level = Some cmat →
  m_xmatrix_offset st !! Z.to_nat level = Some off →
  Sorted Nat.le cmat →
  (Z.of_nat (off + length cmat) ≤ INT_MAX)%Z →
  Forall (λ x, (Z.of_nat x ≤ INT_MAX)%Z) cmat →
  StronglySorted Z.lt indexes → Forall (λ i, (0 ≤ i)%Z) indexes →
  ∃ outs, flatTensorIndexesToHierachicalIndexes st indexes level = Ok outs
    ∧ Forall2 (λ i out,
                 flatTensorIndexToHierachicalIndex st (Z.to_nat i) level
                 = Ok out) indexes outs.
Proof.
  intros Hlevel Hc Hoff Hs Hint Hfit Hinds Hnn.
  pose proof (lookup_lt_Some _ _ _ Hc) as Hlt.
  assert (to_size_t level = level) as Hz.
  { unfold to_size_t. unfold INT_MAX in *. apply Z.mod_small. lia. }
  unfold flatTensorIndexesToHierachicalIndexes.
  rewrite Hz, decide_True by lia. rewrite Hc, Hoff.
  eexists. split; [done|].
  eapply Forall2_impl.
  { apply (batch_loop_spec cmat off indexes cmat 0 []); try done.
    intros i x _ Hx. by apply elem_of_nil in Hx. }
  intros i out ->.
  destruct (lookup_in_sorted_level st (Z.to_nat i) level cmat off
              Hlevel Hc Hoff Hs Hint) as [Hin Hout].
  destruct (decide (Z.to_nat i ∈ cmat)) as [Hi|Hi].
  - destruct (Hin Hi) as [_ ->]. f_equal. symmetry. apply to_int_small.
    pose proof (rank_le_length cmat (Z.to_nat i)). lia.
  - by apply Hout.
Qed.

End FurtherProofs.

(** ** Refinement keeps the basis well formed *)

Section RefinementProofs.
Context `{HDomain}.

Lemma needLevel_after_tree t st :
  wf_basis st →
  ∃ st', needLevel (getMaxInsLevel t) (set_tree st t) = Ok st'
    ∧ wf_basis st' ∧ m_deg st' = m_deg st ∧ m_tree st' = t
    ∧ m_bases st `prefix_of` m_bases st'
    ∧ getMaxInsLevel (m_tree st') < length (m_bases st')
    ∧ m_xmatrix st' = m_xmatrix st
    ∧ m_xmatrix_offset st' = m_xmatrix_offset st.
Proof.
  intros Hwf.
  destruct (needLevel_Ok (getMaxInsLevel t) (set_tree st t) Hwf)
    as (bs & -> & Hlen & Hwfs & Hpre).
  simpl in *. eexists. split; [done|]. simpl.
  split_and!; [|done|done|done|lia|done|done].
  split; [|done]. simpl. intros ->. apply prefix_nil_inv in Hpre.
  by destruct Hwf.
Qed.

(** One box of [refine]: the tree rejects the sunk box, or the basis stays
    well formed with its active sets and offsets untouched. *)
Lemma refine_box_outcome st box :
  wf_basis st →
  ok_or_assert
    (λ st', wf_basis st' ∧ m_deg st' = m_deg st
            ∧ m_bases st `prefix_of` m_bases st'
            ∧ m_xmatrix st' = m_xmatrix st
            ∧ m_xmatrix_offset st' = m_xmatrix_offset st)
    (refine_box st box).
Proof.
  intros Hwf. unfold refine_box.
  destruct (last (m_bases st)) as [finest|] eqn:Hl.
  2:{ apply last_None in Hl. by destruct Hwf. }
  cbn zeta.
  destruct (sinkBox _ _ _ _) as [t|]; [|done].
  destruct (needLevel_after_tree t st Hwf)
    as (st' & -> & ? & ? & ? & ? & ? & ? & ?).
  by split_and!.
Qed.

Lemma refine_boxes_outcome boxes st :
  wf_basis st →
  ok_or_assert
    (λ st', wf_basis st' ∧ m_deg st' = m_deg st
            ∧ m_bases st `prefix_of` m_bases st'
            ∧ m_xmatrix st' = m_xmatrix st
            ∧ m_xmatrix_offset st' = m_xmatrix_offset st)
    (refine_boxes boxes st).
Proof.
  revert st. induction boxes as [|box boxes IH]; intros st Hwf;
    cbn [refine_boxes].
  { by split_and!. }
  pose proof (refine_box_outcome st box Hwf) as Hbox.
  destruct (refine_box st box) as [st1| |]; cbn [mbind result_bind];
    [|done|done].
  destruct Hbox as (Hwf1 & Hd1 & Hp1 & Hx1 & Ho1).
  specialize (IH st1 Hwf1).
  destruct (refine_boxes boxes st1) as [st2| |]; [|done|done].
  destruct IH as (Hwf2 & Hd2 & Hp2 & Hx2 & Ho2).
  split_and!; [done|congruence| |congruence|congruence]. by etrans.
Qed.

Lemma update_structure_total st :
  wf_basis st →
  ∃ st', update_structure st = Ok st' ∧ wf_basis st' ∧ m_deg st' = m_deg st
    ∧ m_bases st `prefix_of` m_bases st'
    ∧ m_tree st' = tree_makeCompressed (m_tree st)
    ∧ getMaxInsLevel (m_tree st) < length (m_bases st')
    ∧ m_xmatrix st'
      = imap (level_set (m_tree st') (m_deg st')) (m_bases st')
    ∧ m_xmatrix_offset st' = compute_offsets (m_xmatrix st').
Proof.
  intros Hwf.
  destruct (update_structure_spec st Hwf)
    as (bs & xm & Hupd & _ & _ & Hpre & _).
  destruct (update_structure_wf st _ Hwf Hupd) as (? & ? & ? & ? & ? & ?).
  eexists. split; [exact Hupd|]. split_and!; [done|done|done|done|simpl in *; lia|done|done].
Qed.

(** [refine] once its own assertions have passed: the tree rejects a sunk
    box, or every box is sunk and the basis is rebuilt. *)
Lemma refine_outcome boxes st b0 :
  wf_basis st → m_bases st !! 0 = Some b0 →
  mat_rows boxes = length (m_deg st) →
  mat_cols boxes `mod` 2 = 0 →
  forallb (box_in_domain b0) (column_pairs boxes) = true →
  (refine_boxes (column_pairs boxes) st = AssertionFailed
   ∧ refine boxes st = AssertionFailed)
  ∨ (∃ st1 st', refine_boxes (column_pairs boxes) st = Ok st1
       ∧ refine boxes st = Ok st' ∧ wf_basis st'
       ∧ m_deg st' = m_deg st
       ∧ m_bases st `prefix_of` m_bases st'
       ∧ m_tree st' = tree_makeCompressed (m_tree st1)
       ∧ getMaxInsLevel (m_tree st1) < length (m_bases st')
       ∧ m_xmatrix st'
         = imap (level_set (m_tree st') (m_deg st')) (m_bases st')
       ∧ m_xmatrix_offset st' = compute_offsets (m_xmatrix st')).
Proof.
  intros Hwf Hb0 Hrows Hcols Hdom. unfold refine.
  destruct (m_bases st) as [|b bs] eqn:Hbs; [done|].
  simpl in Hb0. injection Hb0 as ->.
  rewrite decide_False by (intros Hn; by apply Hn).
  rewrite decide_False by (intros Hn; by apply Hn).
  rewrite Hdom.
  pose proof (refine_boxes_outcome (column_pairs boxes) st Hwf) as Hout.
  destruct (refine_boxes (column_pairs boxes) st) as [st1| |];
    cbn [mbind result_bind]; [|by left|done].
  destruct Hout as (Hwf1 & Hd1 & Hp1 & _). right.
  destruct (update_structure_total st1 Hwf1)
    as (st2 & -> & Hwf2 & Hd2 & Hp2 & Ht2 & Hm2 & Hx2 & Ho2).
  exists st1, st2.
  split_and!; [done|done|done|congruence| |done|done|done|done].
  rewrite <- Hbs. by etrans.
Qed.

(** X11. On a well-formed basis [refine(boxes)] never reads out of range.
    It fails one of its own assertions exactly when [boxes] does not have
    one row per direction, or has an odd number of columns, or holds a box
    outside the domain of the first level.  When they pass, either the tree
    rejects one of the sunk boxes and the call fails with it, or every box
    is sunk and the call returns a basis that is well formed, keeps the
    degrees and the bases it had as a prefix, holds a basis for every level
    of the tree, and has the active sets and offsets of a rebuild over the
    compressed tree. *)
Theorem refine_total boxes st b0 :
  wf_basis st → m_bases st !! 0 = Some b0 →
  (¬ (mat_rows boxes = length (m_deg st)
      ∧ mat_cols boxes `mod` 2 = 0
      ∧ forallb (box_in_domain b0) (column_pairs boxes) = true) →
   refine boxes st = AssertionFailed)
  ∧ (mat_rows boxes = length (m_deg st)
     ∧ mat_cols boxes `mod` 2 = 0
     ∧ forallb (box_in_domain b0) (column_pairs boxes) = true →
     (refine_boxes (column_pairs boxes) st = AssertionFailed
      ∧ refine boxes st = AssertionFailed)
     ∨ (∃ st1 st', refine_boxes (column_pairs boxes) st = Ok st1
          ∧ refine boxes st = Ok st' ∧ wf_basis st'
          ∧ m_deg st' = m_deg st
          ∧ m_bases st `prefix_of` m_bases st'
          ∧ m_tree st' = tree_makeCompressed (m_tree st1)
          ∧ getMaxInsLevel (m_tree st1) < length (m_bases st')
          ∧ m_xmatrix st'
            = imap (level_set (m_tree st') (m_deg st')) (m_bases st')
          ∧ m_xmatrix_offset st' = compute_offsets (m_xmatrix st'))).
Proof.
  intros Hwf Hb0. split.
  - intros Hn. unfold refine.
    destruct (m_bases st) as [|b bs] eqn:Hbs; [done|].
    simpl in Hb0. injection Hb0 as ->.
    destruct (decide (mat_rows boxes ≠ length (m_deg st))) as [|Hrows];
      [done|].
    destruct (decide (mat_cols boxes `mod` 2 ≠ 0)) as [|Hcols]; [done|].
    destruct (forallb (box_in_domain b0) (column_pairs boxes)) eqn:Hdom;
      [|done].
    exfalso. apply Hn. split_and!; [lia|lia|done].
  - intros (Hrows & Hcols & Hdom). by apply (refine_outcome boxes st b0).
Qed.

(** ** [refineElements] and [insert_box] *)

Lemma insert_box_Some k1 k2 lvl st t :
  wf_basis st → insertBox (m_tree st) k1 k2 lvl = Some t →
  ∃ st', insert_box k1 k2 lvl st = Ok st' ∧ wf_basis st'
    ∧ m_tree st' = t
    ∧ m_deg st' = m_deg st
    ∧ m_bases st `prefix_of` m_bases st'
    ∧ m_xmatrix st' = m_xmatrix st
    ∧ m_xmatrix_offset st' = m_xmatrix_offset st.
Proof.
  intros Hwf Hins. unfold insert_box. rewrite Hins.
  destruct (needLevel_after_tree t st Hwf)
    as (st' & -> & ? & ? & ? & ? & ? & ? & ?).
  exists st'. by split_and!.
Qed.

Lemma insert_step_None d boxes l : foldl (insert_step d boxes) None l = None.
Proof. by induction l. Qed.

Lemma refineElements_loop d boxes n i st :
  wf_basis st → (i + n) * (2 * d + 1) ≤ length boxes →
  match foldl (insert_step d boxes) (Some (m_tree st)) (seq i n) with
  | Some t =>
      ∃ st', for_loop (refineElements_body d boxes) i n st = Ok st'
        ∧ wf_basis st' ∧ m_deg st' = m_deg st
        ∧ m_bases st `prefix_of` m_bases st'
        ∧ m_tree st' = t
        ∧ m_xmatrix st' = m_xmatrix st
        ∧ m_xmatrix_offset st' = m_xmatrix_offset st
  | None => for_loop (refineElements_body d boxes) i n st = AssertionFailed
  end.
Proof.
  revert i st. induction n as [|n IH]; intros i st Hwf Hlen.
  { exists st. by split_and!. }
  cbn [for_loop seq foldl].
  destruct (lookup_lt_is_Some_2 boxes (i * (2 * d + 1))) as [lvl Hlvl]; [lia|].
  assert (∀ s, refineElements_body d boxes i s
               = insert_box (record_low d boxes i) (record_upp d boxes i)
                   lvl s) as Hbody
    by (intros s; unfold refineElements_body; by rewrite Hlvl).
  assert (insert_step d boxes (Some (m_tree st)) i
          = insertBox (m_tree st) (record_low d boxes i)
              (record_upp d boxes i) lvl) as ->
    by (unfold insert_step; by rewrite Hlvl).
  rewrite Hbody.
  destruct (insertBox (m_tree st) (record_low d boxes i)
              (record_upp d boxes i) lvl) as [t1|] eqn:Hins.
  - destruct (insert_box_Some _ _ _ _ _ Hwf Hins)
      as (st1 & -> & Hwf1 & Ht1 & Hd1 & Hp1 & Hx1 & Ho1).
    cbn [mbind result_bind]. rewrite <- Ht1.
    specialize (IH (S i) st1 Hwf1 ltac:(lia)).
    destruct (foldl (insert_step d boxes) (Some (m_tree st1)) (seq (S i) n))
      as [t|]; [|done].
    destruct IH as (st2 & -> & Hwf2 & Hd2 & Hp2 & Ht2 & Hx2 & Ho2).
    exists st2. split_and!; [done|done|congruence| |done|congruence|congruence].
    by etrans.
  - rewrite insert_step_None. unfold insert_box. by rewrite Hins.
Qed.

(** X12. [refineElements(boxes)] fails its assertion when the length of
    [boxes] is not a multiple of [2*d+1].  Otherwise, on a well-formed
    basis, it reads every record inside [boxes] and inserts the boxes of
    the records in order: when the tree rejects one of them the call fails
    with it, and when the tree takes them all the call returns a
    well-formed basis with the same degrees whose tree is the compressed
    tree after the insertions, whose bases extend the old ones and cover
    every level of that tree, and whose active sets and offsets are those
    of a rebuild. *)
Theorem refineElements_spec boxes st :
  wf_basis st →
  (length boxes `mod` (2 * length (m_deg st) + 1) ≠ 0 →
   refineElements boxes st = AssertionFailed)
  ∧ (length boxes `mod` (2 * length (m_deg st) + 1) = 0 →
     match inserted_tree (length (m_deg st)) boxes
             (length boxes `div` (2 * length (m_deg st) + 1)) (m_tree st)
     with
     | None => refineElements boxes st = AssertionFailed
     | Some t =>
         ∃ st', refineElements boxes st = Ok st' ∧ wf_basis st'
           ∧ m_deg st' = m_deg st
           ∧ m_bases st `prefix_of` m_bases st'
           ∧ m_tree st' = tree_makeCompressed t
           ∧ getMaxInsLevel t < length (m_bases st')
           ∧ m_xmatrix st'
             = imap (level_set (m_tree st') (m_deg st')) (m_bases st')
           ∧ m_xmatrix_offset st' = compute_offsets (m_xmatrix st')
     end).
Proof.
  intros Hwf. unfold refineElements. split.
  - intros Hmod. by rewrite decide_True.
  - intros Hmod. rewrite decide_False by lia.
    pose proof (refineElements_loop (length (m_deg st)) boxes
                  (length boxes `div` (2 * length (m_deg st) + 1)) 0 st Hwf)
      as Hloop.
    unfold inserted_tree.
    destruct (foldl _ _ _) as [t|].
    + destruct Hloop as (st1 & -> & Hwf1 & Hd1 & Hp1 & Ht1 & _).
      { pose proof (Nat.Div0.mul_div_le (length boxes)
                      (2 * length (m_deg st) + 1)). lia. }
      cbn [mbind result_bind].
      destruct (update_structure_total st1 Hwf1)
        as (st2 & -> & Hwf2 & Hd2 & Hp2 & Ht2 & Hm2 & Hx2 & Ho2).
      exists st2. rewrite <- Ht1.
      split_and!; [done|done|congruence| |done|done|done|done].
      by etrans.
    + rewrite Hloop; [done|].
      pose proof (Nat.Div0.mul_div_le (length boxes)
                    (2 * length (m_deg st) + 1)). lia.
Qed.

End RefinementProofs.

(** ** The hierarchical numbering *)

Section NumberingProofs.
Context `{HDomain}.

Lemma to_unsigned_negative l :
  (- 2 ^ 31 ≤ l < 0)%Z → to_unsigned l = (l + 2 ^ 32)%Z.
Proof.
  intros Hl. unfold to_unsigned. symmetry.
  apply Z.mod_unique_pos with (q := (-1)%Z); lia.
Qed.

Lemma to_unsigned_small l : (0 ≤ l ≤ INT_MAX)%Z → to_unsigned l = l.
Proof.
  intros Hl. unfold to_unsigned. unfold INT_MAX in Hl.
  apply Z.mod_small. lia.
Qed.

Lemma to_size_t_small l : (0 ≤ l ≤ INT_MAX)%Z → to_size_t l = l.
Proof.
  intros Hl. unfold to_size_t. unfold INT_MAX in Hl.
  apply Z.mod_small. lia.
Qed.

Lemma flat_index_out st i l :
  (- 2 ^ 31 ≤ l ≤ INT_MAX)%Z →
  (Z.of_nat (length (m_xmatrix st)) ≤ INT_MAX)%Z →
  ¬ (0 ≤ l < Z.of_nat (length (m_xmatrix st)))%Z →
  flatTensorIndexToHierachicalIndex st i l = Ok (-1)%Z.
Proof.
  intros Hl Hn Hout. unfold flatTensorIndexToHierachicalIndex.
  rewrite decide_True; [done|].
  destruct (decide (l < 0)%Z) as [Hneg|Hpos].
  - rewrite to_unsigned_negative by lia. unfold INT_MAX in Hn. lia.
  - rewrite to_unsigned_small by lia. lia.
Qed.

Lemma flat_index_inv st i l h :
  (- 2 ^ 31 ≤ l ≤ INT_MAX)%Z →
  (Z.of_nat (length (m_xmatrix st)) ≤ INT_MAX)%Z →
  Forall (Sorted Nat.le) (m_xmatrix st) →
  flatTensorIndexToHierachicalIndex st i l = Ok h → h ≠ (-1)%Z →
  ∃ cmat off, (0 ≤ l)%Z ∧ m_xmatrix st !! Z.to_nat l = Some cmat
    ∧ m_xmatrix_offset st !! Z.to_nat l = Some off ∧ i ∈ cmat
    ∧ cmat !! rank cmat i = Some i
    ∧ h = to_int (Z.of_nat (off + rank cmat i)).
Proof.
  intros Hl Hn Hsorted Hflat Hh.
  destruct (decide (0 ≤ l < Z.of_nat (length (m_xmatrix st)))%Z) as [Hin|Hout].
  2:{ rewrite flat_index_out in Hflat by done. by simplify_eq. }
  unfold flatTensorIndexToHierachicalIndex in Hflat.
  rewrite to_unsigned_small, to_size_t_small in Hflat by lia.
  rewrite decide_False in Hflat by lia.
  destruct (m_xmatrix st !! Z.to_nat l) as [cmat|] eqn:Hc; [|done].
  assert (Sorted Nat.le cmat) as Hs.
  { eapply Forall_forall; [exact Hsorted|]. by eapply list_elem_of_lookup_2. }
  rewrite (lower_bound_rank _ _ Hs) in Hflat.
  destruct (cmat !! rank cmat i) as [x|] eqn:Hx; [|by simplify_eq].
  destruct (decide (x ≠ i)) as [Hne|Heq]; [by simplify_eq|].
  assert (x = i) as -> by (destruct (decide (x = i)); [done|by exfalso]).
  destruct (m_xmatrix_offset st !! Z.to_nat l) as [off|] eqn:Hoff; [|done].
  injection Hflat as <-. exists cmat, off.
  split_and!; [lia|done|done| |done|done].
  by eapply list_elem_of_lookup_2.
Qed.

Lemma sum_take_level (xm : list (list nat)) n cmat :
  xm !! n = Some cmat →
  sum_list (length <$> take n xm) + length cmat
  = sum_list (length <$> take (S n) xm)
  ∧ sum_list (length <$> take (S n) xm) ≤ sum_list (length <$> xm).
Proof.
  intros Hn. split.
  - rewrite (take_S_r _ _ _ Hn), fmap_app, sum_list_with_app. simpl. lia.
  - rewrite fmap_take.
    pose proof (sum_take_mono (length <$> xm) (S n) (length (length <$> xm))) as Hm.
    rewrite firstn_all in Hm. apply Hm.
    apply lookup_lt_Some in Hn. rewrite length_fmap. lia.
Qed.

Lemma sum_take_levels (xm : list (list nat)) n m :
  n ≤ m →
  sum_list (length <$> take n xm) ≤ sum_list (length <$> take m xm).
Proof. intros Hnm. rewrite !fmap_take. by apply sum_take_mono. Qed.

Lemma strict_lookup_lt (v : list nat) i j a b :
  StronglySorted lt v → i < j → v !! i = Some a → v !! j = Some b → a < b.
Proof.
  intros Hs. revert i j.
  induction Hs as [|c v Hs IH Hc]; intros i j Hij Hi Hj; [done|].
  destruct i as [|i], j as [|j]; simpl in *; simplify_eq; try lia.
  - by apply (Forall_lookup_1 _ _ _ _ Hc Hj).
  - apply (IH i j); [lia|done..].
Qed.

Lemma rank_strict_lookup (v : list nat) j x :
  StronglySorted lt v → v !! j = Some x → rank v x = j.
Proof.
  intros Hs Hj. pose proof (sorted_lt_le v Hs) as Hle.
  pose proof (rank_lookup_elem v x Hle
                (list_elem_of_lookup_2 _ _ _ Hj)) as Hr.
  destruct (decide (rank v x = j)) as [|Hne]; [done|]. exfalso.
  destruct (decide (rank v x < j)) as [Hlt|Hge].
  - pose proof (strict_lookup_lt v _ _ _ _ Hs Hlt Hr Hj). lia.
  - assert (j < rank v x) as Hlt by lia.
    pose proof (strict_lookup_lt v _ _ _ _ Hs Hlt Hj Hr). lia.
Qed.

Lemma locate_level (xm : list (list nat)) h :
  h < sum_list (length <$> xm) →
  ∃ n cmat j x, xm !! n = Some cmat ∧ cmat !! j = Some x
    ∧ h = sum_list (length <$> take n xm) + j.
Proof.
  revert h. induction xm as [|c xm IH]; intros h Hh; [simpl in Hh; lia|].
  rewrite fmap_cons in Hh. simpl in Hh.
  destruct (decide (h < length c)) as [Hlt|Hge].
  - destruct (lookup_lt_is_Some_2 c h Hlt) as [x Hx].
    exists 0, c, h, x. by split_and!.
  - destruct (IH (h - length c)) as (n & cmat & j & x & Hn & Hj & Hsum); [lia|].
    exists (S n), cmat, j, x. split_and!; [done|done|].
    rewrite firstn_cons, fmap_cons. simpl. lia.
Qed.

(** X14. With the offset table in place and strictly increasing active
    sets, the hierarchical indices returned by
    [flatTensorIndexToHierachicalIndex] number the active functions: every
    result other than -1 lies in [0, size()), two lookups return the same
    index only for the same level and the same flat index, and every number
    below the size is the index of some function of some level. *)
Theorem hierarchical_numbering st :
  m_xmatrix_offset st = compute_offsets (m_xmatrix st) →
  Forall (StronglySorted lt) (m_xmatrix st) →
  (Z.of_nat (length (m_xmatrix st)) ≤ INT_MAX)%Z →
  (Z.of_nat (sum_list (length <$> m_xmatrix st)) ≤ INT_MAX)%Z →
  size st = Ok (sum_list (length <$> m_xmatrix st))
  ∧ (∀ l i h, (- 2 ^ 31 ≤ l ≤ INT_MAX)%Z →
       flatTensorIndexToHierachicalIndex st i l = Ok h →
       h = (-1)%Z
       ∨ (0 ≤ h < Z.of_nat (sum_list (length <$> m_xmatrix st)))%Z)
  ∧ (∀ l1 l2 i1 i2 h,
       (- 2 ^ 31 ≤ l1 ≤ INT_MAX)%Z → (- 2 ^ 31 ≤ l2 ≤ INT_MAX)%Z →
       h ≠ (-1)%Z →
       flatTensorIndexToHierachicalIndex st i1 l1 = Ok h →
       flatTensorIndexToHierachicalIndex st i2 l2 = Ok h →
       l1 = l2 ∧ i1 = i2)
  ∧ (∀ h, h < sum_list (length <$> m_xmatrix st) →
       ∃ l i, l < length (m_xmatrix st)
         ∧ flatTensorIndexToHierachicalIndex st i (Z.of_nat l)
           = Ok (Z.of_nat h)).
Proof.
  intros Hoffs Hstrict Hn Htotal.
  assert (Forall (Sorted Nat.le) (m_xmatrix st)) as Hsorted.
  { eapply Forall_impl; [exact Hstrict|]. apply sorted_lt_le. }
  assert (∀ n cmat off, m_xmatrix st !! n = Some cmat →
            m_xmatrix_offset st !! n = Some off →
            off = sum_list (length <$> take n (m_xmatrix st))) as Hoff.
  { intros n cmat off Hc Ho. rewrite Hoffs, compute_offsets_from in Ho.
    rewrite offsets_from_lookup in Ho
      by (apply lookup_lt_Some in Hc; lia).
    by simplify_eq. }
  assert (∀ l i h cmat off, m_xmatrix st !! l = Some cmat →
            m_xmatrix_offset st !! l = Some off →
            cmat !! rank cmat i = Some i →
            h = to_int (Z.of_nat (off + rank cmat i)) →
            h = Z.of_nat (off + rank cmat i)
            ∧ off = sum_list (length <$> take l (m_xmatrix st))
            ∧ off + rank cmat i < sum_list (length <$> take (S l) (m_xmatrix st))
            ∧ sum_list (length <$> take (S l) (m_xmatrix st))
              ≤ sum_list (length <$> m_xmatrix st)) as Hval.
  { intros l i h cmat off Hc Ho Hr ->.
    pose proof (Hoff _ _ _ Hc Ho) as ->.
    destruct (sum_take_level _ _ _ Hc) as [Heq Hle].
    apply lookup_lt_Some in Hr.
    split_and!; [|done|lia|done]. apply to_int_small. lia. }
  split_and!.
  - unfold size. rewrite Hoffs, compute_offsets_from, offsets_from_last. done.
  - intros l i h Hl Hflat.
    destruct (decide (h = (-1)%Z)) as [|Hh]; [by left|]. right.
    destruct (flat_index_inv st i l h Hl Hn Hsorted Hflat Hh)
      as (cmat & off & Hl0 & Hc & Ho & Hin & Hr & Hval').
    destruct (Hval _ _ _ _ _ Hc Ho Hr Hval') as (-> & _ & Hlt & Hle). lia.
  - intros l1 l2 i1 i2 h Hl1 Hl2 Hh Hf1 Hf2.
    destruct (flat_index_inv st i1 l1 h Hl1 Hn Hsorted Hf1 Hh)
      as (c1 & o1 & Hp1 & Hc1 & Ho1 & Hin1 & Hr1 & Hv1).
    destruct (flat_index_inv st i2 l2 h Hl2 Hn Hsorted Hf2 Hh)
      as (c2 & o2 & Hp2 & Hc2 & Ho2 & Hin2 & Hr2 & Hv2).
    destruct (Hval _ _ _ _ _ Hc1 Ho1 Hr1 Hv1) as (He1 & Hs1 & Hlt1 & _).
    destruct (Hval _ _ _ _ _ Hc2 Ho2 Hr2 Hv2) as (He2 & Hs2 & Hlt2 & _).
    assert (Z.to_nat l1 = Z.to_nat l2) as Hll.
    { destruct (decide (Z.to_nat l1 = Z.to_nat l2)) as [|Hne]; [done|].
      exfalso.
      destruct (decide (Z.to_nat l1 < Z.to_nat l2)) as [Hlt|Hge].
      - pose proof (sum_take_levels (m_xmatrix st) (S (Z.to_nat l1))
                      (Z.to_nat l2) ltac:(lia)). lia.
      - pose proof (sum_take_levels (m_xmatrix st) (S (Z.to_nat l2))
                      (Z.to_nat l1) ltac:(lia)). lia. }
    split; [lia|]. rewrite Hll in Hc1, Ho1.
    assert (c1 = c2) as -> by congruence.
    assert (o1 = o2) as -> by congruence.
    assert (rank c2 i1 = rank c2 i2) as Hrr by lia.
    rewrite Hrr in Hr1. congruence.
  - intros h Hh.
    destruct (locate_level _ _ Hh) as (n & cmat & j & x & Hc & Hj & ->).
    pose proof (lookup_lt_Some _ _ _ Hc) as Hlt.
    assert (StronglySorted lt cmat) as Hs.
    { eapply Forall_forall; [exact Hstrict|]. by eapply list_elem_of_lookup_2. }
    destruct (sum_take_level _ _ _ Hc) as [Heq Hle].
    exists n, x. split; [done|].
    destruct (lookup_in_sorted_level st x (Z.of_nat n) cmat
                (sum_list (length <$> take n (m_xmatrix st)))) as [Hin _].
    + lia.
    + by rewrite Nat2Z.id.
    + rewrite Nat2Z.id, Hoffs, compute_offsets_from.
      rewrite offsets_from_lookup by lia. done.
    + by apply sorted_lt_le.
    + lia.
    + destruct Hin as [_ ->]; [by eapply list_elem_of_lookup_2|].
      by rewrite (rank_strict_lookup _ _ _ Hs Hj).
Qed.

(** ** [transfer] and [transfer2] keep the numbering *)

Lemma transfer_untouched old st st' :
  transfer old st = Ok st' →
  m_xmatrix_offset st' = m_xmatrix_offset st ∧ m_deg st' = m_deg st
  ∧ m_tree st' = m_tree st.
Proof.
  unfold transfer, needLevel. intros Ht.
  destruct (needLevel_loop _ _) as [bs| |]; simpl in Ht; try done.
  destruct (decide (bs = [])); simpl in Ht; [done|].
  destruct (drop_empty_tail _) as [xm'| |]; simpl in Ht; try done.
  by simplify_eq.
Qed.

Lemma transfer2_untouched old st st' :
  transfer2 old st = Ok st' →
  m_xmatrix_offset st' = m_xmatrix_offset st ∧ m_deg st' = m_deg st
  ∧ m_tree st' = m_tree st.
Proof.
  unfold transfer2, needLevel. intros Ht.
  destruct (needLevel_loop _ _) as [bs| |]; simpl in Ht; try done.
  destruct (decide (bs = [])); simpl in Ht; [done|].
  by simplify_eq.
Qed.

Lemma flat_index_empty st i l :
  (0 ≤ l ≤ INT_MAX)%Z → m_xmatrix st !! Z.to_nat l = Some [] →
  flatTensorIndexToHierachicalIndex st i l = Ok (-1)%Z.
Proof.
  intros Hl Hc. pose proof (lookup_lt_Some _ _ _ Hc) as Hlt.
  unfold flatTensorIndexToHierachicalIndex.
  rewrite to_unsigned_small, to_size_t_small by done.
  rewrite decide_False by lia. rewrite Hc.
  rewrite lower_bound_rank by constructor. done.
Qed.

Lemma flat_index_same st st' i l :
  m_xmatrix_offset st' = m_xmatrix_offset st →
  (0 ≤ l ≤ INT_MAX)%Z →
  Z.to_nat l < length (m_xmatrix st) →
  m_xmatrix st' !! Z.to_nat l = m_xmatrix st !! Z.to_nat l →
  flatTensorIndexToHierachicalIndex st' i l
  = flatTensorIndexToHierachicalIndex st i l.
Proof.
  intros Ho Hl Hlt Hc.
  destruct (lookup_lt_is_Some_2 _ _ Hlt) as [cmat Hcm].
  rewrite Hcm in Hc. pose proof (lookup_lt_Some _ _ _ Hc) as Hlt'.
  unfold flatTensorIndexToHierachicalIndex.
  rewrite to_unsigned_small, to_size_t_small by done.
  rewrite !decide_False by lia. by rewrite Hc, Hcm, Ho.
Qed.

Lemma lookup_padded st st' a k i l :
  m_xmatrix_offset st' = m_xmatrix_offset st →
  m_xmatrix st ++ replicate a [] = m_xmatrix st' ++ replicate k [] →
  (Z.of_nat (length (m_xmatrix st)) ≤ INT_MAX)%Z →
  (Z.of_nat (length (m_xmatrix st')) ≤ INT_MAX)%Z →
  (- 2 ^ 31 ≤ l ≤ INT_MAX)%Z →
  flatTensorIndexToHierachicalIndex st' i l
  = flatTensorIndexToHierachicalIndex st i l.
Proof.
  intros Ho Hpad Hn Hn' Hl.
  destruct (decide (0 ≤ l < Z.of_nat (length (m_xmatrix st)))%Z) as [Hin|Hout];
    destruct (decide (0 ≤ l < Z.of_nat (length (m_xmatrix st')))%Z)
      as [Hin'|Hout'].
  - apply flat_index_same; [done|lia|lia|].
    rewrite <- (lookup_app_l (m_xmatrix st') (replicate k [])) by lia.
    rewrite <- (lookup_app_l (m_xmatrix st) (replicate a [])) by lia.
    by rewrite Hpad.
  - rewrite (flat_index_out st') by done. symmetry.
    apply flat_index_empty; [lia|].
    destruct (lookup_lt_is_Some_2 (m_xmatrix st) (Z.to_nat l)) as [c Hc]; [lia|].
    rewrite Hc. f_equal.
    rewrite <- (lookup_app_l (m_xmatrix st) (replicate a [])) in Hc by lia.
    rewrite Hpad, lookup_app_r in Hc by lia.
    by apply lookup_replicate in Hc as [-> _].
  - rewrite (flat_index_out st) by done.
    apply flat_index_empty; [lia|].
    destruct (lookup_lt_is_Some_2 (m_xmatrix st') (Z.to_nat l)) as [c Hc]; [lia|].
    rewrite Hc. f_equal.
    rewrite <- (lookup_app_l (m_xmatrix st') (replicate k [])) in Hc by lia.
    rewrite <- Hpad, lookup_app_r in Hc by lia.
    by apply lookup_replicate in Hc as [-> _].
  - by rewrite !flat_index_out.
Qed.

(** X15. [transfer] and [transfer2] leave the numbering alone: neither
    touches the offset table, [size()] returns what it returned before, and
    the single lookup returns the same hierarchical index for every flat
    index and every level, the levels removed or added at the end being
    empty. *)
Theorem transfer_keeps_numbering old st :
  wf_basis st → length (m_xmatrix st) = length (m_bases st) →
  (∃ c, c ∈ m_xmatrix st ∧ c ≠ []) →
  (Z.of_nat (length (m_xmatrix st)) ≤ INT_MAX)%Z →
  (Z.of_nat (length old) < INT_MAX)%Z →
  ∃ st1 st2, transfer old st = Ok st1 ∧ transfer2 old st = Ok st2
    ∧ m_xmatrix_offset st1 = m_xmatrix_offset st
    ∧ m_xmatrix_offset st2 = m_xmatrix_offset st
    ∧ size st1 = size st ∧ size st2 = size st
    ∧ ∀ i l, (- 2 ^ 31 ≤ l ≤ INT_MAX)%Z →
        flatTensorIndexToHierachicalIndex st1 i l
        = flatTensorIndexToHierachicalIndex st i l
        ∧ flatTensorIndexToHierachicalIndex st2 i l
          = flatTensorIndexToHierachicalIndex st i l.
Proof.
  intros Hwf Hlen Hne Hn Hold.
  destruct (transfer_prunes_tail old st Hwf Hlen Hne)
    as (st1 & k & Ht1 & _ & Hpad & _).
  destruct (transfer_untouched _ _ _ Ht1) as (Ho1 & _ & _).
  assert (∃ st2, transfer2 old st = Ok st2) as [st2 Ht2].
  { unfold transfer2, needLevel.
    destruct (needLevel_loop_total (length old + 1 - length (m_bases st))
                (m_bases st) (proj1 Hwf)) as (bs & -> & _ & Hpre & _).
    simpl. rewrite decide_False.
    2:{ intros ->. apply prefix_nil_inv in Hpre. by destruct Hwf. }
    simpl. by eexists. }
  destruct (transfer2_untouched _ _ _ Ht2) as (Ho2 & _ & _).
  pose proof (transfer2_keeps_tail _ _ _ Ht2) as Hpad2.
  exists st1, st2. split_and!; [done..| | |].
  - unfold size. by rewrite Ho1.
  - unfold size. by rewrite Ho2.
  - assert (length (pad_xmatrix (length old) (m_xmatrix st))
            = length (m_xmatrix st) `max` (length old + 1)) as Hpl.
    { unfold pad_xmatrix. rewrite length_app, length_replicate. lia. }
    intros i l Hl. split.
    + apply (lookup_padded st st1 (length old + 1 - length (m_xmatrix st)) k);
        [done|exact Hpad|done| |done].
      apply (f_equal length) in Hpad. rewrite Hpl, length_app in Hpad. lia.
    + apply (lookup_padded st st2 (length old + 1 - length (m_xmatrix st)) 0);
        [done| |done| |done].
      * rewrite Hpad2. simpl. by rewrite app_nil_r.
      * rewrite Hpad2, Hpl. lia.
Qed.

End NumberingProofs.

(** ** The box that [refine] sinks *)

Lemma forallb_id_lookup (l : list bool) j b :
  forallb (λ x, x) l = true → l !! j = Some b → b = true.
Proof.
  revert j. induction l as [|c l IH]; intros j Hall Hj; [done|].
  simpl in Hall. apply andb_prop in Hall as [Hc Hl].
  destruct j as [|j]; simpl in Hj; [by simplify_eq|]. by apply (IH j).
Qed.

Lemma box_in_domain_lookup (b : list gsKnotVector) box j kv lo hi :
  box_in_domain b box = true →
  b !! j = Some kv → box.1 !! j = Some lo → box.2 !! j = Some hi →
  in_domain kv lo hi = true.
Proof.
  unfold box_in_domain. intros Hall Hkv Hlo Hhi.
  apply (forallb_id_lookup _ j _ Hall).
  apply lookup_zip_with_Some. exists kv, (lo, hi). split; [done|].
  split; [done|]. apply lookup_zip_with_Some. by exists lo, hi.
Qed.

Section SinkProofs.
Context `{HDomain}.

(** X16. For a parametric box that lies in the domain of the knot vectors
    it is located in, with its lower corner not above its upper corner,
    the index box that [refine(boxes)] hands to [sinkBox] is never empty
    and never wraps: over strictly increasing knots with a domain of
    positive length and fewer than [2^32] knots, the knot indices of the
    corners lie between the two ends of the domain, the lower one not above
    the upper one, and after the widening of trivial boxes the lower index
    is strictly below the upper one in every direction; the box has one
    entry per direction. *)
Theorem sunk_box_nonempty (finest : list gsKnotVector) box :
  Forall (λ kv, StronglySorted Qlt (kv_values kv)
                ∧ domain_begin kv < domain_end kv
                ∧ (Z.of_nat (domain_end kv) + 1 < 2 ^ 32)%Z) finest →
  Forall2 Qle box.1 box.2 →
  box_in_domain finest box = true →
  Forall2 lt (sunk_box finest box).1 (sunk_box finest box).2
  ∧ length (sunk_box finest box).1 = length finest `min` length box.1
  ∧ ∀ j kv lo hi, finest !! j = Some kv → box.1 !! j = Some lo →
      box.2 !! j = Some hi →
      (Z.of_nat (domain_begin kv) ≤ (corner_indices kv lo hi).1)%Z
      ∧ ((corner_indices kv lo hi).1 ≤ (corner_indices kv lo hi).2)%Z
      ∧ ((corner_indices kv lo hi).2 ≤ Z.of_nat (domain_end kv))%Z
      ∧ ∃ k1 k2, (sunk_box finest box).1 !! j = Some k1
          ∧ (sunk_box finest box).2 !! j = Some k2
          ∧ k1 < k2 ∧ k2 ≤ domain_end kv + 1.
Proof.
  intros Hknots Hbox Hdom.
  assert (∀ j kv lo hi, finest !! j = Some kv → box.1 !! j = Some lo →
            box.2 !! j = Some hi →
            (0 ≤ (sink_indices kv lo hi).1)%Z
            ∧ ((sink_indices kv lo hi).1 < (sink_indices kv lo hi).2)%Z
            ∧ ((sink_indices kv lo hi).2 ≤ Z.of_nat (domain_end kv) + 1)%Z)
    as Hsink.
  { intros j kv lo hi Hkv Hlo Hhi.
    destruct (Forall_lookup_1 _ _ _ _ Hknots Hkv) as (Hs & Hbe & Hfit).
    apply sink_indices_in_domain; [done|done|done| |].
    - by apply (box_in_domain_lookup finest box j).
    - by apply (Forall2_lookup_lr _ _ _ _ _ _ Hbox Hlo Hhi). }
  split_and!.
  - unfold sunk_box. cbn [fst snd].
    apply Forall2_fmap, Forall2_fmap, Forall_Forall2_diag, Forall_lookup.
    intros j p Hp.
    apply lookup_zip_with_Some in Hp as (kv & [lo hi] & -> & Hkv & Hlh).
    apply lookup_zip_with_Some in Hlh as (lo' & hi' & Heq & Hlo & Hhi).
    injection Heq as <- <-. cbn [fst snd].
    destruct (Hsink j kv lo hi Hkv Hlo Hhi) as (H0 & Hlt & _). lia.
  - unfold sunk_box. cbn [fst snd].
    rewrite !length_fmap, length_zip_with, length_zip_with.
    apply Forall2_length in Hbox. lia.
  - intros j kv lo hi Hkv Hlo Hhi.
    destruct (Forall_lookup_1 _ _ _ _ Hknots Hkv) as (Hs & Hbe & Hfit).
    assert (in_domain kv lo hi = true) as Hin
      by (by apply (box_in_domain_lookup finest box j)).
    assert (Qle lo hi) as Hle
      by (by apply (Forall2_lookup_lr _ _ _ _ _ _ Hbox Hlo Hhi)).
    destruct (corner_indices_in_domain kv lo hi Hs Hbe Hfit Hin Hle)
      as (Hk1 & Hk12 & Hk2).
    destruct (Hsink j kv lo hi Hkv Hlo Hhi) as (H0 & Hlt & Hup).
    destruct (sunk_box_lookup finest box j kv lo hi Hkv Hlo Hhi) as [H1 H2].
    split_and!; [done|done|done|].
    eexists _, _. split; [exact H1|]. split; [exact H2|]. lia.
Qed.

(** ** [refineSide] *)

Lemma forallb_id_true (l : list bool) :
  (∀ j b, l !! j = Some b → b = true) → forallb (λ x, x) l = true.
Proof.
  induction l as [|b l IH]; intros Hall; [done|]. simpl.
  rewrite (Hall 0 b eq_refl). simpl. apply IH.
  intros j b' Hj. by apply (Hall (S j)).
Qed.

Lemma tb_support_lookup (b0 : list gsKnotVector) lows upps :
  tb_support b0 = Some (lows, upps) →
  length lows = length b0 ∧ length upps = length b0
  ∧ ∀ j kv, b0 !! j = Some kv →
      ∃ a b, kv_values kv !! domain_begin kv = Some a
        ∧ kv_values kv !! domain_end kv = Some b
        ∧ lows !! j = Some a ∧ upps !! j = Some b.
Proof.
  unfold tb_support. intros Hsup.
  destruct (mapM (λ kv, kv_values kv !! domain_begin kv) b0) as [ls|] eqn:Hl;
    [|done].
  destruct (mapM (λ kv, kv_values kv !! domain_end kv) b0) as [us|] eqn:Hu;
    [|done].
  simpl in Hsup. injection Hsup as -> ->.
  apply mapM_Some_1 in Hl, Hu.
  split_and!.
  - symmetry. by eapply Forall2_length.
  - symmetry. by eapply Forall2_length.
  - intros j kv Hkv.
    destruct (Forall2_lookup_l _ _ _ _ _ Hl Hkv) as (a & Ha & Hva).
    destruct (Forall2_lookup_l _ _ _ _ _ Hu Hkv) as (b & Hb & Hvb).
    by exists a, b.
Qed.

Lemma side_box_spec (b0 : list gsKnotVector) dir par lows upps :
  tb_support b0 = Some (lows, upps) → Forall2 Qle lows upps →
  dir < length b0 →
  ∃ rf, side_box b0 dir par = Some rf
    ∧ length rf.1 = length b0 ∧ length rf.2 = length b0
    ∧ rf.1 !! dir = rf.2 !! dir
    ∧ (∀ j, j ≠ dir → rf.1 !! j = lows !! j ∧ rf.2 !! j = upps !! j)
    ∧ box_in_domain b0 rf = true.
Proof.
  intros Hsup Hle Hdir.
  destruct (tb_support_lookup _ _ _ Hsup) as (Hll & Hlu & Hlook).
  unfold side_box. rewrite Hsup. simpl.
  destruct (lookup_lt_is_Some_2 lows dir) as [lo Hlo]; [lia|].
  destruct (lookup_lt_is_Some_2 upps dir) as [hi Hhi]; [lia|].
  rewrite Hlo, Hhi. simpl. eexists. split; [done|].
  assert (∀ j a b, lows !! j = Some a → upps !! j = Some b → Qle a b) as Hab.
  { intros j a b Ha Hb. by apply (Forall2_lookup_lr _ _ _ _ _ _ Hle Ha Hb). }
  destruct par; cbn [fst snd].
  - rewrite length_insert. split_and!; [done|done| | |].
    + rewrite list_lookup_insert_eq by lia. done.
    + intros j Hj. by rewrite list_lookup_insert_ne.
    + unfold box_in_domain. cbn [fst snd]. apply forallb_id_true.
      intros j b Hb.
      apply lookup_zip_with_Some in Hb as (kv & [lo' hi'] & -> & Hkv & Hlh).
      apply lookup_zip_with_Some in Hlh as (x & y & Heq & Hx & Hy).
      injection Heq as <- <-. cbn [fst snd].
      destruct (Hlook j kv Hkv) as (a & b & Ha & Hb & Hla & Hub).
      unfold in_domain. rewrite Ha, Hb.
      apply andb_true_intro. split; apply Qle_bool_iff.
      * destruct (decide (j = dir)) as [->|Hne].
        -- rewrite list_lookup_insert_eq in Hx by lia. injection Hx as <-.
           by apply (Hab dir).
        -- rewrite list_lookup_insert_ne in Hx by done.
           rewrite Hla in Hx. injection Hx as <-. apply Qle_refl.
      * rewrite Hub in Hy. injection Hy as <-. apply Qle_refl.
  - rewrite length_insert. split_and!; [done|done| | |].
    + rewrite list_lookup_insert_eq by lia. done.
    + intros j Hj. by rewrite list_lookup_insert_ne.
    + unfold box_in_domain. cbn [fst snd]. apply forallb_id_true.
      intros j b Hb.
      apply lookup_zip_with_Some in Hb as (kv & [lo' hi'] & -> & Hkv & Hlh).
      apply lookup_zip_with_Some in Hlh as (x & y & Heq & Hx & Hy).
      injection Heq as <- <-. cbn [fst snd].
      destruct (Hlook j kv Hkv) as (a & b & Ha & Hb & Hla & Hub).
      unfold in_domain. rewrite Ha, Hb.
      apply andb_true_intro. split; apply Qle_bool_iff.
      * rewrite Hla in Hx. injection Hx as <-. apply Qle_refl.
      * destruct (decide (j = dir)) as [->|Hne].
        -- rewrite list_lookup_insert_eq in Hy by lia. injection Hy as <-.
           by apply (Hab dir).
        -- rewrite list_lookup_insert_ne in Hy by done.
           rewrite Hub in Hy. injection Hy as <-. apply Qle_refl.
Qed.

Lemma default_lookup_seq {A : Type} (x : A) (l : list A) :
  (λ j, default x (l !! j)) <$> seq 0 (length l) = l.
Proof.
  apply list_eq. intros i. rewrite list_lookup_fmap.
  destruct (decide (i < length l)) as [Hlt|Hge].
  - rewrite lookup_seq_lt by done. simpl.
    destruct (lookup_lt_is_Some_2 l i Hlt) as [y Hy]. by rewrite Hy.
  - rewrite lookup_seq_ge by lia. simpl. symmetry. apply lookup_ge_None. lia.
Qed.

Lemma column_pairs_of_box (r1 r2 : list Q) :
  length r2 = length r1 →
  column_pairs (matrix_of_columns (length r1) [r1; r2]) = [(r1, r2)].
Proof.
  intros Hlen. unfold column_pairs, mat_col, matrix_of_columns.
  cbn [mat_rows mat_cols mat_entry length].
  change (2 `div` 2) with 1. cbn [seq fmap list_fmap].
  change (2 * 0) with 0. change (0 + 1) with 1.
  cbn [lookup list_lookup default].
  f_equal. f_equal; [apply default_lookup_seq|].
  rewrite <- Hlen. apply default_lookup_seq.
Qed.

Lemma refine_times_outcome n (rf : list Q * list Q) st b0 :
  wf_basis st → m_bases st !! 0 = Some b0 →
  length rf.1 = length (m_deg st) → length rf.2 = length (m_deg st) →
  box_in_domain b0 rf = true →
  ok_or_assert
    (λ st', wf_basis st' ∧ m_deg st' = m_deg st
            ∧ m_bases st `prefix_of` m_bases st'
            ∧ (0 < n →
               m_xmatrix st'
               = imap (level_set (m_tree st') (m_deg st')) (m_bases st')
               ∧ m_xmatrix_offset st' = compute_offsets (m_xmatrix st')))
    (refine_times n (matrix_of_columns (length rf.1) [rf.1; rf.2]) st).
Proof.
  destruct rf as [r1 r2]. cbn [fst snd].
  revert st. induction n as [|n IH]; intros st Hwf Hb0 Hl1 Hl2 Hdom.
  { cbn. split_and!; [done|done|done|lia]. }
  cbn [refine_times].
  destruct (refine_outcome (matrix_of_columns (length r1) [r1; r2]) st b0
              Hwf Hb0)
    as [[_ ->]|(st0 & st1 & _ & -> & Hwf1 & Hd1 & Hp1 & _ & _ & Hx1 & Ho1)].
  { done. }
  { done. }
  { rewrite column_pairs_of_box by congruence.
    cbn [forallb]. by rewrite Hdom. }
  { done. }
  cbn [mbind result_bind].
  assert (m_bases st1 !! 0 = Some b0) as Hb1.
  { by apply (prefix_lookup_Some _ _ _ _ Hb0). }
  destruct n as [|n'].
  { cbn. by split_and!. }
  specialize (IH st1 Hwf1 Hb1 ltac:(congruence) ltac:(congruence) Hdom).
  destruct (refine_times (S n') _ st1) as [st2| |]; [|done|done].
  destruct IH as (Hwf2 & Hd2 & Hp2 & Hx2).
  split_and!; [done|congruence|by etrans|].
  intros _. apply Hx2. lia.
Qed.

(** X17. [refineSide(side, lvl)] refines [lvl] times with the box that is
    the support of the first level flattened onto the side: its two corners
    agree in the direction of the side and are the ends of the domain in
    the others.  That box passes the assertions of [refine], so on a
    well-formed basis whose domain is not inverted the call, for every
    [lvl >= 0], never reads out of range: it returns a well-formed basis of
    the same degrees that keeps the old bases as a prefix and, for
    [lvl > 0], is rebuilt, unless the tree rejects a box sunk for it; for
    [lvl = 0] the basis is returned unchanged, and a negative [lvl] never
    ends the loop. *)
Theorem refineSide_total dir par lvl st b0 lows upps :
  wf_basis st → m_bases st !! 0 = Some b0 →
  tb_support b0 = Some (lows, upps) → Forall2 Qle lows upps →
  dir < length b0 →
  (∃ rf, side_box b0 dir par = Some rf
     ∧ rf.1 !! dir = rf.2 !! dir
     ∧ (∀ j, j ≠ dir → rf.1 !! j = lows !! j ∧ rf.2 !! j = upps !! j)
     ∧ box_in_domain b0 rf = true)
  ∧ ((lvl < 0)%Z → refineSide dir par lvl st = Undefined)
  ∧ (lvl = 0%Z → refineSide dir par lvl st = Ok st)
  ∧ ((0 ≤ lvl)%Z →
     refineSide dir par lvl st = AssertionFailed
     ∨ ∃ st', refineSide dir par lvl st = Ok st' ∧ wf_basis st'
         ∧ m_deg st' = m_deg st ∧ m_bases st `prefix_of` m_bases st'
         ∧ ((0 < lvl)%Z →
            m_xmatrix st'
            = imap (level_set (m_tree st') (m_deg st')) (m_bases st')
            ∧ m_xmatrix_offset st' = compute_offsets (m_xmatrix st'))).
Proof.
  intros Hwf Hb0 Hsup Hle Hdir.
  destruct (side_box_spec b0 dir par lows upps Hsup Hle Hdir)
    as (rf & Hrf & Hl1 & Hl2 & Hflat & Hrest & Hdom).
  assert (length b0 = length (m_deg st)) as Hd.
  { destruct Hwf as [_ Hall].
    pose proof (Forall_lookup_1 _ _ _ _ Hall Hb0) as Hb.
    by apply Forall2_length in Hb. }
  unfold refineSide.
  destruct (m_bases st) as [|b bs] eqn:Hbs; [done|].
  simpl in Hb0. injection Hb0 as ->. rewrite Hrf.
  split_and!.
  - by exists rf.
  - intros Hneg. by rewrite decide_True.
  - intros ->. by rewrite decide_False.
  - intros Hpos. rewrite decide_False by lia. rewrite <- Hbs.
    pose proof (refine_times_outcome (Z.to_nat lvl) rf st b0 Hwf) as Hout.
    destruct (refine_times _ _ st) as [st'| |].
    + right. destruct Hout as (Hwf' & Hd' & Hp' & Hx');
        [by rewrite Hbs|lia|lia|done|].
      exists st'. split_and!; [done..|]. intros Hl. apply Hx'. lia.
    + by left.
    + exfalso. apply Hout; [by rewrite Hbs|lia|lia|done].
Qed.

End SinkProofs.

(** ** The outcomes of [uniformRefine] *)

Section UniformRefineProofs.
Context `{HDomain}.

Lemma uniformRefine_Ok mul st :
  wf_basis st →
  getMaxInsLevel (m_tree st) < length (m_bases st) →
  2 ≤ length (m_bases st) →
  ∃ st', uniformRefine 1 mul st = Ok st' ∧ wf_basis st'
    ∧ m_deg st' = m_deg st
    ∧ m_tree st' = tree_makeCompressed (multiplyByTwo (m_tree st))
    ∧ length (m_bases st')
      = length (m_bases st)
          `max` (getMaxInsLevel (multiplyByTwo (m_tree st)) + 1)
    ∧ (∀ i b, m_bases st !! S i = Some b → m_bases st' !! i = Some b)
    ∧ (∀ bl, last (m_bases st) = Some bl →
         m_bases st' !! (length (m_bases st) - 1)
         = Some (tb_uniformRefine mul bl))
    ∧ m_xmatrix st'
      = imap (level_set (m_tree st') (m_deg st')) (m_bases st')
    ∧ m_xmatrix_offset st' = compute_offsets (m_xmatrix st').
Proof.
  intros [Hne Hwf] Hmax Hlen. unfold uniformRefine.
  rewrite decide_False by (intros ?; done).
  rewrite decide_False by (intros Hn; by apply Hn).
  destruct (m_bases st) as [|b0 bs] eqn:Hbs; [done|].
  destruct (last bs) as [bl|] eqn:Hl.
  2:{ apply last_None in Hl. subst. simpl in Hlen. lia. }
  set (st1 := set_tree _ _).
  assert (wf_basis st1) as Hwf1.
  { split; simpl; [by destruct bs|].
    apply Forall_cons in Hwf as [_ Hwf]. apply Forall_app. split; [done|].
    apply Forall_singleton, wf_tb_uniformRefine.
    eapply Forall_forall; [exact Hwf|]. by apply last_Some_elem_of. }
  destruct (update_structure_spec st1 Hwf1)
    as (bs' & xm & Hupd & Hlen' & _ & Hpre & _).
  destruct (update_structure_wf st1 _ Hwf1 Hupd)
    as (Hwf' & Hd' & Ht' & _ & Hx' & Ho').
  eexists. split; [exact Hupd|]. simpl in *.
  rewrite length_app in Hlen'. simpl in Hlen'.
  split_and!; [done|done|done|lia| | |done|done].
  - intros i b Hb.
    apply (prefix_lookup_Some (bs ++ [tb_uniformRefine mul bl])); [|done].
    by apply lookup_app_l_Some.
  - intros bl' Hbl'.
    assert (bl' = bl) as ->.
    { rewrite last_cons, Hl in Hbl'. by simplify_eq. }
    apply (prefix_lookup_Some (bs ++ [tb_uniformRefine mul bl])); [|done].
    rewrite lookup_app_r by lia.
    replace (length bs - 0 - length bs) with 0 by lia. done.
Qed.

(** X18. The outcomes of [uniformRefine(1, mul)] on a well-formed basis:
    the second assertion fails when the tree holds a level without a basis;
    with a single stored level the call takes [back()] of the emptied
    vector of bases; otherwise it returns a well-formed, rebuilt basis of
    the same degrees in which every old level but the first has moved down
    by one, the refined clone of the old finest basis sits at the old last
    position, and the number of levels is the old one or what the doubled
    tree needs. *)
Theorem uniformRefine_outcomes mul st :
  wf_basis st →
  (¬ getMaxInsLevel (m_tree st) < length (m_bases st) →
   uniformRefine 1 mul st = AssertionFailed)
  ∧ (getMaxInsLevel (m_tree st) < length (m_bases st) →
     length (m_bases st) = 1 → uniformRefine 1 mul st = Undefined)
  ∧ (getMaxInsLevel (m_tree st) < length (m_bases st) →
     2 ≤ length (m_bases st) →
     ∃ st', uniformRefine 1 mul st = Ok st' ∧ wf_basis st'
       ∧ m_deg st' = m_deg st
       ∧ m_tree st' = tree_makeCompressed (multiplyByTwo (m_tree st))
       ∧ length (m_bases st')
         = length (m_bases st)
             `max` (getMaxInsLevel (multiplyByTwo (m_tree st)) + 1)
       ∧ (∀ i b, m_bases st !! S i = Some b → m_bases st' !! i = Some b)
       ∧ (∀ bl, last (m_bases st) = Some bl →
            m_bases st' !! (length (m_bases st) - 1)
            = Some (tb_uniformRefine mul bl))
       ∧ m_xmatrix st'
         = imap (level_set (m_tree st') (m_deg st')) (m_bases st')
       ∧ m_xmatrix_offset st' = compute_offsets (m_xmatrix st')).
Proof.
  intros Hwf. split_and!.
  - intros Hmax. unfold uniformRefine.
    rewrite decide_False by (intros ?; done). by rewrite decide_True.
  - intros Hmax Hone. unfold uniformRefine.
    rewrite decide_False by (intros ?; done).
    rewrite decide_False by (intros Hn; by apply Hn).
    destruct (m_bases st) as [|b0 [|b1 bs]]; simpl in Hone; [lia|done|lia].
  - intros Hmax Hlen. by apply uniformRefine_Ok.
Qed.

(** X19. A basis that [update_structure] has rebuilt passes the second
    assertion of [uniformRefine]: the compressed tree holds no level
    without a basis, so with at least two stored levels
    [uniformRefine(1, mul)] returns. *)
Theorem rebuilt_passes_uniformRefine `{!HDomainLaws} mul st st' :
  wf_basis st → update_structure st = Ok st' →
  getMaxInsLevel (m_tree st') < length (m_bases st')
  ∧ (2 ≤ length (m_bases st') →
     ∃ st'', uniformRefine 1 mul st' = Ok st'' ∧ wf_basis st''
       ∧ m_tree st''
         = tree_makeCompressed
             (multiplyByTwo (tree_makeCompressed (m_tree st)))).
Proof.
  intros Hwf Hupd.
  destruct (update_structure_wf st st' Hwf Hupd)
    as (Hwf' & _ & Ht' & Hm' & _).
  assert (getMaxInsLevel (m_tree st') < length (m_bases st')) as Hmax.
  { rewrite Ht', compress_maxLevel. lia. }
  split; [done|]. intros Hlen.
  destruct (uniformRefine_Ok mul st' Hwf' Hmax Hlen)
    as (st'' & Hu & Hwf'' & _ & Ht'' & _).
  exists st''. split_and!; [done|done|]. by rewrite Ht'', Ht'.
Qed.

End UniformRefineProofs.

(** ** The index helpers of gsTensorTools.h *)

Lemma sizes_product_pos (idx sz : list nat) :
  Forall2 lt idx sz → 0 < foldr Nat.mul 1 sz.
Proof.
  induction 1 as [|i s idx sz Hi _ IH]; simpl; [lia|].
  apply Nat.mul_pos_pos; lia.
Qed.

Lemma fromTensorIndex_loop_spec (idx sz : list nat) :
  Forall2 lt idx sz →
  ∀ r t,
    (Z.of_nat (r + t * (foldr Nat.mul 1 sz - 1))%nat ≤ INT_MAX)%Z →
    (Z.of_nat (t * foldr Nat.mul 1 sz)%nat ≤ INT_MAX)%Z →
    fromTensorIndex_loop idx sz (Z.of_nat r) (Z.of_nat t)
    = Z.of_nat (r + t * index_in sz idx).
Proof.
  induction 1 as [|i s idx sz Hi Hrest IH]; intros r t HA HB.
  { simpl. f_equal. lia. }
  pose proof (sizes_product_pos _ _ Hrest) as Hpos.
  cbn [fromTensorIndex_loop index_in foldr] in *.
  destruct (foldr Nat.mul 1 sz) as [|W] eqn:HQ; [lia|].
  assert (s * S W - 1 = s * W + (s - 1)) as Hsub by lia.
  rewrite Hsub in HA.
  assert (t * i ≤ t * (s * W + (s - 1))) as Ha
    by (apply Nat.mul_le_mono_l; lia).
  assert (t * (i + s * W) ≤ t * (s * W + (s - 1))) as Hc
    by (apply Nat.mul_le_mono_l; lia).
  assert (t * s ≤ t * (s * S W)) as Hb
    by (apply Nat.mul_le_mono_l; lia).
  rewrite <- !Nat2Z.inj_mul.
  rewrite !to_unsigned_small by lia.
  rewrite <- Nat2Z.inj_add, to_int_small by lia.
  rewrite IH.
  - f_equal. lia.
  - replace (S W - 1) with W by lia. lia.
  - lia.
Qed.

(** X20. Without overflow, that is for a tensor index inside a grid whose
    number of points fits an [int], [fromTensorIndex] returns the flat
    lexicographic index, the first coordinate running fastest: it lies in
    [0, sz.prod()), the digits of the result in the mixed radix [sz] are
    the tensor index again, and two tensor indices of the grid with the
    same result are equal. *)
Theorem fromTensorIndex_flat (idx sz : list nat) :
  Forall2 lt idx sz →
  (Z.of_nat (foldr Nat.mul 1%nat sz) ≤ INT_MAX)%Z →
  fromTensorIndex idx sz = Z.of_nat (index_in sz idx)
  ∧ (0 ≤ fromTensorIndex idx sz < Z.of_nat (foldr Nat.mul 1%nat sz))%Z
  ∧ tensor_of sz (Z.to_nat (fromTensorIndex idx sz)) = idx
  ∧ ∀ idx', Forall2 lt idx' sz →
      fromTensorIndex idx' sz = fromTensorIndex idx sz → idx' = idx.
Proof.
  intros Hidx Hfit.
  assert (∀ k, Forall2 lt k sz →
            fromTensorIndex k sz = Z.of_nat (index_in sz k)) as Heq.
  { intros k Hk. unfold fromTensorIndex.
    pose proof (sizes_product_pos _ _ Hk).
    etrans; [apply (fromTensorIndex_loop_spec k sz Hk 0 1); lia|].
    f_equal; lia. }
  pose proof (index_in_lt sz idx Hidx) as Hlt.
  rewrite (Heq idx Hidx). split; [done|]. split; [lia|]. split.
  - rewrite Nat2Z.id. by apply tensor_of_index_in.
  - intros idx' Hidx' Hsame. rewrite (Heq idx' Hidx') in Hsame.
    apply (index_in_inj sz); [done|done|lia].
Qed.

Lemma tensorStrides_loop_spec (idx sz : list nat) :
  Forall2 lt idx sz →
  ∀ t, (Z.of_nat (t * foldr Nat.mul 1 sz)%nat ≤ INT_MAX)%Z →
    ∃ strides,
      tensorStrides_loop (Z.of_nat t) (Z.of_nat <$> sz) = Ok strides
      ∧ length strides = length sz
      ∧ (sz ≠ [] → strides !! 0 = Some (Z.of_nat t))
      ∧ foldr Z.add 0%Z (zip_with Z.mul strides (Z.of_nat <$> idx))
        = Z.of_nat (t * index_in sz idx).
Proof.
  induction 1 as [|i s idx sz Hi Hrest IH]; intros t HB.
  { exists []. split_and!; [done|done|done|]. simpl. lia. }
  pose proof (sizes_product_pos _ _ Hrest) as Hpos.
  rewrite !fmap_cons. cbn [tensorStrides_loop index_in foldr] in *.
  assert (t * s ≤ t * (s * foldr Nat.mul 1 sz)) as Hb.
  { apply Nat.mul_le_mono_l.
    pose proof (Nat.mul_le_mono_l 1 (foldr Nat.mul 1 sz) s). lia. }
  destruct (decide (Z.of_nat <$> sz = [])) as [Hnil|Hcons].
  - apply fmap_nil_inv in Hnil. subst sz. inversion Hrest; subst.
    exists [Z.of_nat t]. split_and!; [done|done|done|]. simpl. lia.
  - rewrite decide_True by lia. rewrite <- Nat2Z.inj_mul.
    destruct (IH (t * s)) as (rest & -> & Hlen & Hhead & Hdot); [lia|].
    exists (Z.of_nat t :: rest). split_and!; [done|simpl; lia|done|].
    cbn [zip_with foldr]. rewrite Hdot. lia.
Qed.

(** X21. For a nonempty grid whose number of points fits an [int],
    [tensorStrides] returns one stride per direction, the first being 1,
    and the scalar product of these strides with a tensor index of the grid
    is the flat index that [fromTensorIndex] computes for it; for an empty
    [sz] the write to [strides[0]] is out of range. *)
Theorem tensorStrides_dot (idx sz : list nat) :
  Forall2 lt idx sz → sz ≠ [] →
  (Z.of_nat (foldr Nat.mul 1%nat sz) ≤ INT_MAX)%Z →
  tensorStrides [] = Undefined
  ∧ ∃ strides, tensorStrides (Z.of_nat <$> sz) = Ok strides
      ∧ length strides = length sz
      ∧ strides !! 0 = Some 1%Z
      ∧ foldr Z.add 0%Z (zip_with Z.mul strides (Z.of_nat <$> idx))
        = fromTensorIndex idx sz.
Proof.
  intros Hidx Hne Hfit. split; [done|].
  destruct (tensorStrides_loop_spec idx sz Hidx 1)
    as (strides & Hs & Hlen & Hhead & Hdot); [lia|].
  exists strides. split_and!.
  - unfold tensorStrides. destruct sz as [|s sz]; [done|]. exact Hs.
  - done.
  - by apply Hhead.
  - rewrite Hdot. unfold fromTensorIndex.
    pose proof (sizes_product_pos _ _ Hidx).
    symmetry. etrans; [apply (fromTensorIndex_loop_spec idx sz Hidx 0 1); lia|].
    f_equal; lia.
Qed.

(** ** Refinement followed by a second rebuild or by [transfer] *)

Section ComposedProofs.
Context `{HDomain}.

Lemma update_structure_fixed `{!HDomainLaws} `{!HDomainQueryLaws} st t :
  wf_basis st → m_tree st = tree_makeCompressed t →
  getMaxInsLevel t < length (m_bases st) →
  m_xmatrix st = imap (level_set (m_tree st) (m_deg st)) (m_bases st) →
  m_xmatrix_offset st = compute_offsets (m_xmatrix st) →
  update_structure st = Ok st.
Proof.
  intros Hwf Htree Hlen Hxm Hoff.
  destruct (update_structure_exact st Hwf) as (bs & Hbs & _ & ->).
  assert (getMaxInsLevel (m_tree st) + 1 - length (m_bases st) = 0) as Hz.
  { rewrite Htree, compress_maxLevel. lia. }
  rewrite Hz in Hbs. simpl in Hbs. injection Hbs as <-.
  assert (tree_makeCompressed (m_tree st) = m_tree st) as ->
    by (rewrite Htree; apply compress_compress).
  rewrite <- Hxm, <- Hoff. by destruct st.
Qed.

(** X22. Without a refinement extension the two forms of [refine] agree:
    over a tree whose compression changes no query and not the highest
    level and is idempotent, [refine(boxes, 0)] has on a well-formed basis
    the outcome of [refine(boxes)], the same failed assertion or the same
    basis; the [needLevel] and the second [update_structure] it adds change
    nothing. *)
Theorem refine_refExt0_agrees `{!HDomainLaws} `{!HDomainQueryLaws} boxes st :
  wf_basis st →
  refine_refExt0 boxes st = refine boxes st
  ∧ refine boxes st ≠ Undefined.
Proof.
  intros Hwf. unfold refine_refExt0.
  destruct (decide (mat_rows boxes ≠ length (m_deg st))) as [Hrows|Hrows].
  { unfold refine. by rewrite decide_True. }
  destruct (decide (mat_cols boxes `mod` 2 ≠ 0)) as [Hcols|Hcols].
  { unfold refine. rewrite decide_False by done. by rewrite decide_True. }
  destruct (m_bases st) as [|b0 bs] eqn:Hbs; [by destruct Hwf|].
  destruct (forallb (box_in_domain b0) (column_pairs boxes)) eqn:Hdom.
  2:{ unfold refine. rewrite decide_False by done.
      rewrite decide_False by done. by rewrite Hbs, Hdom. }
  destruct (refine_outcome boxes st b0 Hwf)
    as [[_ ->]|(st0 & st1 & _ & -> & Hwf1 & Hd1 & Hp1 & Ht1 & Hm1 & Hx1 & Ho1)].
  { by rewrite Hbs. }
  { lia. }
  { lia. }
  { done. }
  { done. }
  split; [|done]. cbn [mbind result_bind].
  unfold needLevel.
  assert (getMaxInsLevel (m_tree st1) + 1 - length (m_bases st1) = 0) as ->.
  { rewrite Ht1, compress_maxLevel. lia. }
  cbn [needLevel_loop mbind result_bind].
  assert (set_bases st1 (m_bases st1) = st1) as -> by (by destruct st1).
  by apply (update_structure_fixed st1 (m_tree st0)).
Qed.

Lemma refineElements_inv boxes st st1 :
  wf_basis st → refineElements boxes st = Ok st1 →
  wf_basis st1 ∧ length (m_xmatrix st1) = length (m_bases st1)
  ∧ m_xmatrix_offset st1 = compute_offsets (m_xmatrix st1).
Proof.
  intros Hwf Href. unfold refineElements in Href.
  destruct (decide (length boxes `mod` (2 * length (m_deg st) + 1) ≠ 0))
    as [|Hmod]; [done|].
  assert ((0 + length boxes `div` (2 * length (m_deg st) + 1))
          * (2 * length (m_deg st) + 1) ≤ length boxes) as Hlen.
  { pose proof (Nat.Div0.mul_div_le (length boxes)
                  (2 * length (m_deg st) + 1)). lia. }
  pose proof (refineElements_loop (length (m_deg st)) boxes
                (length boxes `div` (2 * length (m_deg st) + 1)) 0 st Hwf Hlen)
    as Hloop.
  destruct (foldl _ _ _) as [t|]; [|by rewrite Hloop in Href].
  destruct Hloop as (st0 & Hloop & Hwf0 & _).
  rewrite Hloop in Href. cbn [mbind result_bind] in Href.
  destruct (update_structure_total st0 Hwf0)
    as (st' & Hupd & Hwf' & _ & _ & _ & _ & Hx & Ho).
  rewrite Hupd in Href. injection Href as <-.
  split_and!; [done| |done]. by rewrite Hx, length_imap.
Qed.

(** X23. [refineElements_withTransfer] is [refineElements] followed by
    [transfer] with the active sets saved before: whenever [refineElements]
    returns a basis [st1] from a well-formed one, the call returns exactly
    when [st1] has an active function, and then leaves as many bases as
    active sets, the active sets of [st1] without the empty levels at the
    end, a last level that is not empty, the tree and the offsets of [st1],
    and the [size()] of [st1]; when [st1] has no active function at all,
    [transfer] pops past the first level. *)
Theorem refineElements_withTransfer_spec boxes st st1 :
  wf_basis st → refineElements boxes st = Ok st1 →
  ((∃ c, c ∈ m_xmatrix st1 ∧ c ≠ []) →
     ∃ st2 k, refineElements_withTransfer boxes st = Ok st2
       ∧ length (m_xmatrix st2) = length (m_bases st2)
       ∧ m_xmatrix st1 = m_xmatrix st2 ++ replicate k []
       ∧ (∃ c, last (m_xmatrix st2) = Some c ∧ c ≠ [])
       ∧ m_tree st2 = m_tree st1
       ∧ m_xmatrix_offset st2 = m_xmatrix_offset st1
       ∧ size st2 = Ok (sum_list (length <$> m_xmatrix st2)))
  ∧ (Forall (λ c, c = []) (m_xmatrix st1) →
     refineElements_withTransfer boxes st = Undefined).
Proof.
  intros Hwf Href.
  destruct (refineElements_inv boxes st st1 Hwf Href) as (Hwf1 & Hlen1 & Hoff1).
  unfold refineElements_withTransfer. rewrite Href.
  cbn [mbind result_bind]. split.
  - intros Hne.
    destruct (transfer_prunes_tail (m_xmatrix st) st1 Hwf1 Hlen1 Hne)
      as (st2 & k & Ht & Hl2 & Hpad & (c & Hlast & Hc)).
    destruct (transfer_untouched _ _ _ Ht) as (Ho2 & _ & Htree2).
    assert (length (m_xmatrix st2) ≤ length (m_xmatrix st1)) as Hle.
    { destruct (decide (length (m_xmatrix st2) ≤ length (m_xmatrix st1)))
        as [|Hgt]; [done|]. exfalso.
      rewrite last_lookup in Hlast.
      assert ((m_xmatrix st2 ++ replicate k [])
                !! pred (length (m_xmatrix st2)) = Some c) as Hl
        by (by apply lookup_app_l_Some).
      rewrite <- Hpad in Hl. unfold pad_xmatrix in Hl.
      rewrite lookup_app_r in Hl by lia.
      by apply lookup_replicate in Hl as [-> _]. }
    assert (m_xmatrix st1
            = m_xmatrix st2
              ++ replicate (length (m_xmatrix st1) - length (m_xmatrix st2)) [])
      as Hsplit.
    { unfold pad_xmatrix in Hpad.
      pose proof (f_equal length Hpad) as Hk.
      rewrite !length_app, !length_replicate in Hk.
      etrans.
      { symmetry. apply (take_app_length (m_xmatrix st1)
                           (replicate (length (m_xmatrix st) + 1
                                       - length (m_xmatrix st1)) [])). }
      rewrite Hpad, take_app_ge by done. f_equal.
      rewrite take_replicate. f_equal. lia. }
    exists st2, (length (m_xmatrix st1) - length (m_xmatrix st2)).
    split_and!; [done|done|done|by exists c|done|done|].
    unfold size. rewrite Ho2, Hoff1, compute_offsets_from, offsets_from_last.
    simpl. f_equal. rewrite Hsplit at 1.
    rewrite fmap_app, sum_list_with_app, fmap_replicate. simpl.
    rewrite sum_list_replicate. lia.
  - intros Hall. unfold transfer.
    destruct (needLevel_Ok (length (m_xmatrix st)) st1 Hwf1)
      as (bs & -> & Hbl & _ & Hpre).
    simpl. rewrite decide_False.
    2:{ intros ->. destruct Hwf1 as [Hne _]. by apply prefix_nil_inv in Hpre. }
    simpl. unfold drop_empty_tail. rewrite pop_empty_all_empty; [done|].
    apply Forall_reverse, Forall_app. split; [done|].
    by apply Forall_replicate.
Qed.

End ComposedProofs.

(** ** [makeCompressed] keeps the numbering *)

Section CompressedProofs.
Context `{HDomain}.

Lemma flat_index_shift st st' n i l :
  m_xmatrix st' = drop n (m_xmatrix st) →
  m_xmatrix_offset st' = drop n (m_xmatrix_offset st) →
  n ≤ length (m_xmatrix st) →
  (Z.of_nat (length (m_xmatrix st)) ≤ INT_MAX)%Z →
  (0 ≤ l)%Z → (l + Z.of_nat n ≤ INT_MAX)%Z →
  flatTensorIndexToHierachicalIndex st' i l
  = flatTensorIndexToHierachicalIndex st i (l + Z.of_nat n).
Proof.
  intros Hxm Hoff Hn Hfit Hl Hln.
  assert (length (m_xmatrix st') = length (m_xmatrix st) - n) as Hlen
    by (by rewrite Hxm, length_drop).
  destruct (decide (l + Z.of_nat n < Z.of_nat (length (m_xmatrix st)))%Z)
    as [Hin|Hout].
  - unfold flatTensorIndexToHierachicalIndex.
    rewrite !to_unsigned_small, !to_size_t_small by lia.
    rewrite !decide_False by lia.
    replace (Z.to_nat (l + Z.of_nat n)) with (n + Z.to_nat l) by lia.
    by rewrite Hxm, Hoff, !lookup_drop.
  - rewrite !flat_index_out; [done|lia|lia|lia|lia|lia|lia].
Qed.

(** X24. [makeCompressed] renumbers the levels and nothing else: when it
    drops the [n] leading levels without active functions, the lookup of a
    flat index at level [l] of the compressed basis returns the
    hierarchical index that the lookup at level [l + n] returned before. *)
Theorem makeCompressed_keeps_numbering st :
  m_xmatrix_offset st = compute_offsets (m_xmatrix st) →
  length (m_bases st) = length (m_xmatrix st) →
  (∃ i c, m_xmatrix st !! i = Some c ∧ c ≠ []) →
  (Z.of_nat (length (m_xmatrix st)) ≤ INT_MAX)%Z →
  ∃ n st', makeCompressed st = Ok st'
    ∧ n < length (m_xmatrix st)
    ∧ length (m_xmatrix st') = length (m_xmatrix st) - n
    ∧ (∀ j, j < n → m_xmatrix st !! j = Some [])
    ∧ ∀ i l, (0 ≤ l)%Z → (l + Z.of_nat n ≤ INT_MAX)%Z →
        flatTensorIndexToHierachicalIndex st' i l
        = flatTensorIndexToHierachicalIndex st i (l + Z.of_nat n).
Proof.
  intros Hoff Hlen Hne Hfit. unfold makeCompressed.
  rewrite Hoff, compute_offsets_from.
  destruct (makeCompressed_loop_spec (m_deg st) (m_xmatrix st) (m_bases st)
              (m_tree st) Hlen Hne) as (n & c & Hemp & Hn & Hc & ->).
  pose proof (lookup_lt_Some _ _ _ Hn) as Hlt.
  exists n. eexists. split; [done|]. cbn [m_xmatrix].
  split_and!; [done|by rewrite length_drop|done|].
  intros i l Hl Hln. apply flat_index_shift; cbn [m_xmatrix m_xmatrix_offset];
    [done| |lia|done|done|done].
  by rewrite Hoff, compute_offsets_from.
Qed.

End CompressedProofs.

(** ** Instances of the further theorems on the sample bases *)

Lemma ct_query3_init il upp lo hi :
  ct_query3 (@tree_init (cell_tree il) upp) lo hi 0 = 0.
Proof.
  pose proof (ct_query3_le (@tree_init (cell_tree il) upp) lo hi 0) as Hle.
  pose proof (@init_maxLevel (cell_tree il) (cell_tree_laws il) upp) as Hmax.
  change (ct_maxLevel (@tree_init (cell_tree il) upp) = 0) in Hmax. lia.
Qed.

Lemma cell_tree_query_laws il : @HDomainQueryLaws (cell_tree il).
Proof.
  split.
  - done.
  - done.
  - intros upp lo hi. apply ct_query3_init.
Qed.

Lemma chain_half1 : refinement_chain (m_bases half1).
Proof.
  intros i b b' Hb Hb'.
  destruct i as [|[|[|i]]]; simpl in Hb, Hb'; by simplify_eq.
Defined.

Lemma update_structure_sets_exact_witness :
  wf_basis half1
  ∧ ∃ st', update_structure half1 = Ok st'
      ∧ ∀ j b, m_bases st' !! j = Some b →
          m_xmatrix st' !! j = Some (level_set (m_tree st') (m_deg st') j b)
          ∧ StronglySorted lt (level_set (m_tree st') (m_deg st') j b)
          ∧ Forall (λ x, x < foldr Nat.mul 1 (tb_sizes b))
              (level_set (m_tree st') (m_deg st') j b).
Proof.
  split; [exact wf_half1|exact (update_structure_sets_exact half1 wf_half1)].
Defined.

Lemma needLevel_idempotent_witness :
  m_bases half1 ≠ []
  ∧ ∃ st', needLevel 4 half1 = Ok st'
      ∧ m_bases half1 `prefix_of` m_bases st'
      ∧ length (m_bases st') = length (m_bases half1) `max` (4 + 1)
      ∧ ∀ l, l ≤ 4 → needLevel l st' = Ok st'.
Proof.
  assert (m_bases half1 ≠ []) as Hne by discriminate.
  split; [exact Hne|exact (needLevel_idempotent 4 half1 Hne)].
Defined.

Lemma refinement_chain_kept_witness :
  Forall has_functions tb1 ∧ wf_basis half1
  ∧ refinement_chain (m_bases half1)
  ∧ (∃ st', construct tb1 = Ok st' ∧ refinement_chain (m_bases st'))
  ∧ (∃ st', update_structure half1 = Ok st'
       ∧ refinement_chain (m_bases st')).
Proof.
  split; [exact has_functions_tb1|]. split; [exact wf_half1|].
  split; [exact chain_half1|]. split.
  - exact (proj1 refinement_chain_kept tb1 has_functions_tb1).
  - exact (proj2 refinement_chain_kept half1 wf_half1 chain_half1).
Defined.

Lemma update_structure_idempotent_witness :
  wf_basis half1 ∧ update_structure half1 = Ok half1_rebuilt
  ∧ update_structure half1_rebuilt = Ok half1_rebuilt.
Proof.
  split; [exact wf_half1|]. split; [exact update_structure_half1|].
  exact (@update_structure_idempotent T3 (cell_tree_laws 3)
           (cell_tree_query_laws 3) half1 half1_rebuilt wf_half1
           update_structure_half1).
Defined.

Lemma construct_all_active_witness :
  Forall has_functions tb1
  ∧ ∃ st', construct tb1 = Ok st'
      ∧ m_bases st' = [tb1; tb_uniformRefine 1 tb1;
                       tb_uniformRefine 1 (tb_uniformRefine 1 tb1)]
      ∧ m_xmatrix st' = [seq 0 (foldr Nat.mul 1 (tb_sizes tb1)); []; []]
      ∧ size st' = Ok (foldr Nat.mul 1 (tb_sizes tb1)).
Proof.
  split; [exact has_functions_tb1|].
  exact (@construct_all_active T3 (cell_tree_laws 3)
           (cell_tree_query_laws 3) tb1 has_functions_tb1).
Defined.

Lemma setActiveToLvl_agrees_witness :
  wf_basis half1 ∧ update_structure half1 = Ok half1_rebuilt
  ∧ 1 < length (m_bases half1_rebuilt)
  ∧ ∃ x, setActiveToLvl 1 half1_rebuilt = Ok x ∧ length x = 1 + 1
      ∧ (∀ j, j < 1 → j ≤ getMaxInsLevel (m_tree half1_rebuilt) →
           x !! j = m_xmatrix half1_rebuilt !! j)
      ∧ (∀ cmat, m_xmatrix half1_rebuilt !! 1 = Some cmat →
           ∃ xl, x !! 1 = Some xl ∧ cmat ⊆ xl).
Proof.
  assert (1 < length (m_bases half1_rebuilt)) as Hlt by (simpl; lia).
  split; [exact wf_half1|]. split; [exact update_structure_half1|].
  split; [exact Hlt|].
  exact (proj1 (setActiveToLvl_agrees half1 half1_rebuilt 1 wf_half1
                  update_structure_half1) Hlt).
Defined.

Lemma makeCompressed_keeps_invariants_witness :
  m_xmatrix_offset full1_rebuilt = compute_offsets (m_xmatrix full1_rebuilt)
  ∧ length (m_bases full1_rebuilt) = length (m_xmatrix full1_rebuilt)
  ∧ (∃ i c, m_xmatrix full1_rebuilt !! i = Some c ∧ c ≠ [])
  ∧ ∃ st', makeCompressed full1_rebuilt = Ok st'
      ∧ m_xmatrix_offset st' = compute_offsets (m_xmatrix st')
      ∧ length (m_bases st') = length (m_xmatrix st')
      ∧ size st' = size full1_rebuilt
      ∧ (∃ c, m_xmatrix st' !! 0 = Some c ∧ c ≠ [])
      ∧ makeCompressed st' = Ok st'.
Proof.
  assert (∃ i c, m_xmatrix full1_rebuilt !! i = Some c ∧ c ≠ []) as Hne
    by (exists 1, [0; 1; 2; 3; 4]; split; [reflexivity|discriminate]).
  split; [reflexivity|]. split; [reflexivity|]. split; [exact Hne|].
  exact (proj1 (makeCompressed_keeps_invariants full1_rebuilt
                  eq_refl eq_refl) Hne).
Defined.

Lemma transfer_prunes_witness :
  wf_basis fresh1_rebuilt
  ∧ length (m_xmatrix fresh1_rebuilt) = length (m_bases fresh1_rebuilt)
  ∧ (∃ c, c ∈ m_xmatrix fresh1_rebuilt ∧ c ≠ [])
  ∧ ∃ st' k, transfer (m_xmatrix fresh1_rebuilt) fresh1_rebuilt = Ok st'
      ∧ length (m_xmatrix st') = length (m_bases st')
      ∧ pad_xmatrix (length (m_xmatrix fresh1_rebuilt))
          (m_xmatrix fresh1_rebuilt)
        = m_xmatrix st' ++ replicate k []
      ∧ (∃ c, last (m_xmatrix st') = Some c ∧ c ≠ []).
Proof.
  assert (∃ c, c ∈ m_xmatrix fresh1_rebuilt ∧ c ≠ []) as Hne.
  { exists [0; 1; 2]. split; [|discriminate]. simpl. by left. }
  split; [exact wf_half1|]. split; [reflexivity|]. split; [exact Hne|].
  exact (proj1 (transfer_prunes (m_xmatrix fresh1_rebuilt) fresh1_rebuilt
                  wf_half1 eq_refl) Hne).
Defined.

Lemma transfer2_keeps_lengths_witness :
  m_bases fresh1_rebuilt ≠ []
  ∧ length (m_xmatrix fresh1_rebuilt) = length (m_bases fresh1_rebuilt)
  ∧ ∃ st', transfer2 (m_xmatrix fresh1_rebuilt) fresh1_rebuilt = Ok st'
      ∧ length (m_xmatrix st') = length (m_bases st')
      ∧ length (m_bases st')
        = length (m_bases fresh1_rebuilt)
            `max` (length (m_xmatrix fresh1_rebuilt) + 1)
      ∧ m_bases fresh1_rebuilt `prefix_of` m_bases st'
      ∧ m_xmatrix st'
        = m_xmatrix fresh1_rebuilt
          ++ replicate (length (m_xmatrix fresh1_rebuilt) + 1
                        - length (m_xmatrix fresh1_rebuilt)) [].
Proof.
  assert (m_bases fresh1_rebuilt ≠ []) as Hne by discriminate.
  split; [exact Hne|]. split; [reflexivity|].
  exact (transfer2_keeps_lengths (m_xmatrix fresh1_rebuilt) fresh1_rebuilt
           Hne eq_refl).
Defined.

Lemma batch_lookup_agrees_witness :
  (0 ≤ 1 ≤ INT_MAX)%Z
  ∧ m_xmatrix half1_rebuilt !! Z.to_nat 1 = Some [0; 1]
  ∧ m_xmatrix_offset half1_rebuilt !! Z.to_nat 1 = Some 2
  ∧ Sorted Nat.le [0; 1]
  ∧ (Z.of_nat (2 + length [0; 1]) ≤ INT_MAX)%Z
  ∧ Forall (λ x, (Z.of_nat x ≤ INT_MAX)%Z) [0; 1]
  ∧ StronglySorted Z.lt [0; 1; 2; 3]%Z
  ∧ Forall (λ i, (0 ≤ i)%Z) [0; 1; 2; 3]%Z
  ∧ ∃ outs,
      flatTensorIndexesToHierachicalIndexes half1_rebuilt [0; 1; 2; 3]%Z 1
      = Ok outs
      ∧ Forall2 (λ i out,
                   flatTensorIndexToHierachicalIndex half1_rebuilt
                     (Z.to_nat i) 1 = Ok out) [0; 1; 2; 3]%Z outs.
Proof.
  assert (0 ≤ 1 ≤ INT_MAX)%Z as Hl by (unfold INT_MAX; lia).
  assert (Sorted Nat.le [0; 1]) as Hs by (repeat constructor).
  assert (Z.of_nat (2 + length [0; 1]) ≤ INT_MAX)%Z as Hb
    by (unfold INT_MAX; simpl; lia).
  assert (Forall (λ x, (Z.of_nat x ≤ INT_MAX)%Z) [0; 1]) as Hfit
    by (repeat constructor; unfold INT_MAX; lia).
  assert (StronglySorted Z.lt [0; 1; 2; 3]%Z) as Hinds
    by (repeat constructor; lia).
  assert (Forall (λ i, (0 ≤ i)%Z) [0; 1; 2; 3]%Z) as Hnn
    by (repeat constructor; lia).
  split; [exact Hl|]. split; [reflexivity|]. split; [reflexivity|].
  split; [exact Hs|]. split; [exact Hb|]. split; [exact Hfit|].
  split; [exact Hinds|]. split; [exact Hnn|].
  exact (batch_lookup_agrees half1_rebuilt [0; 1; 2; 3]%Z 1 [0; 1] 2
           Hl eq_refl eq_refl Hs Hb Hfit Hinds Hnn).
Defined.

Lemma refine_total_witness :
  wf_basis half1_rebuilt ∧ m_bases half1_rebuilt !! 0 = Some tb1
  ∧ (mat_rows (matrix_of_columns 1 [[3 # 4]; [3 # 4]])
     = length (m_deg half1_rebuilt)
     ∧ mat_cols (matrix_of_columns 1 [[3 # 4]; [3 # 4]]) `mod` 2 = 0
     ∧ forallb (box_in_domain tb1)
         (column_pairs (matrix_of_columns 1 [[3 # 4]; [3 # 4]])) = true)
  ∧ (∃ st1 st',
       refine_boxes (column_pairs (matrix_of_columns 1 [[3 # 4]; [3 # 4]]))
         half1_rebuilt = Ok st1
       ∧ refine (matrix_of_columns 1 [[3 # 4]; [3 # 4]]) half1_rebuilt
         = Ok st'
       ∧ wf_basis st' ∧ m_deg st' = m_deg half1_rebuilt
       ∧ m_bases half1_rebuilt `prefix_of` m_bases st'
       ∧ m_tree st' = tree_makeCompressed (m_tree st1)
       ∧ getMaxInsLevel (m_tree st1) < length (m_bases st')
       ∧ m_xmatrix st'
         = imap (level_set (m_tree st') (m_deg st')) (m_bases st')
       ∧ m_xmatrix_offset st' = compute_offsets (m_xmatrix st'))
  ∧ ¬ (mat_rows (matrix_of_columns 1 [[3 # 1]; [4 # 1]])
       = length (m_deg half1_rebuilt)
       ∧ mat_cols (matrix_of_columns 1 [[3 # 1]; [4 # 1]]) `mod` 2 = 0
       ∧ forallb (box_in_domain tb1)
           (column_pairs (matrix_of_columns 1 [[3 # 1]; [4 # 1]])) = true)
  ∧ refine (matrix_of_columns 1 [[3 # 1]; [4 # 1]]) half1_rebuilt
    = AssertionFailed
  ∧ ¬ (mat_rows (matrix_of_columns 0 [])
       = length (m_deg half1_rebuilt)
       ∧ mat_cols (matrix_of_columns 0 []) `mod` 2 = 0
       ∧ forallb (box_in_domain tb1)
           (column_pairs (matrix_of_columns 0 [])) = true)
  ∧ refine (matrix_of_columns 0 []) half1_rebuilt = AssertionFailed
  ∧ (mat_rows (matrix_of_columns 1 [[3 # 2]; [1 # 2]])
     = length (m_deg half1_rebuilt)
     ∧ mat_cols (matrix_of_columns 1 [[3 # 2]; [1 # 2]]) `mod` 2 = 0
     ∧ forallb (box_in_domain tb1)
         (column_pairs (matrix_of_columns 1 [[3 # 2]; [1 # 2]])) = true)
  ∧ refine_boxes (column_pairs (matrix_of_columns 1 [[3 # 2]; [1 # 2]]))
      half1_rebuilt = AssertionFailed
  ∧ refine (matrix_of_columns 1 [[3 # 2]; [1 # 2]]) half1_rebuilt
    = AssertionFailed.
Proof.
  assert (mat_rows (matrix_of_columns 1 [[3 # 4]; [3 # 4]])
          = length (m_deg half1_rebuilt)
          ∧ mat_cols (matrix_of_columns 1 [[3 # 4]; [3 # 4]]) `mod` 2 = 0
          ∧ forallb (box_in_domain tb1)
              (column_pairs (matrix_of_columns 1 [[3 # 4]; [3 # 4]])) = true)
    as Hok.
  { split; [reflexivity|]. split; reflexivity. }
  assert (¬ (mat_rows (matrix_of_columns 1 [[3 # 1]; [4 # 1]])
             = length (m_deg half1_rebuilt)
             ∧ mat_cols (matrix_of_columns 1 [[3 # 1]; [4 # 1]]) `mod` 2 = 0
             ∧ forallb (box_in_domain tb1)
                 (column_pairs (matrix_of_columns 1 [[3 # 1]; [4 # 1]]))
               = true)) as Hout.
  { intros (_ & _ & Hdom). vm_compute in Hdom. discriminate. }
  assert (¬ (mat_rows (matrix_of_columns 0 [])
             = length (m_deg half1_rebuilt)
             ∧ mat_cols (matrix_of_columns 0 []) `mod` 2 = 0
             ∧ forallb (box_in_domain tb1)
                 (column_pairs (matrix_of_columns 0 [])) = true)) as Hrows.
  { intros (Hr & _). vm_compute in Hr. discriminate. }
  assert (mat_rows (matrix_of_columns 1 [[3 # 2]; [1 # 2]])
          = length (m_deg half1_rebuilt)
          ∧ mat_cols (matrix_of_columns 1 [[3 # 2]; [1 # 2]]) `mod` 2 = 0
          ∧ forallb (box_in_domain tb1)
              (column_pairs (matrix_of_columns 1 [[3 # 2]; [1 # 2]])) = true)
    as Hinv.
  { split; [reflexivity|]. split; reflexivity. }
  split; [exact wf_half1|]. split; [reflexivity|]. split; [exact Hok|].
  split.
  { destruct (proj2 (refine_total (matrix_of_columns 1 [[3 # 4]; [3 # 4]])
                       half1_rebuilt tb1 wf_half1 eq_refl) Hok)
      as [[_ Hfail]|Hdone]; [|exact Hdone].
    vm_compute in Hfail. discriminate. }
  split; [exact Hout|]. split.
  { exact (proj1 (refine_total (matrix_of_columns 1 [[3 # 1]; [4 # 1]])
                    half1_rebuilt tb1 wf_half1 eq_refl) Hout). }
  split; [exact Hrows|]. split.
  { exact (proj1 (refine_total (matrix_of_columns 0 [])
                    half1_rebuilt tb1 wf_half1 eq_refl) Hrows). }
  split; [exact Hinv|].
  destruct (proj2 (refine_total (matrix_of_columns 1 [[3 # 2]; [1 # 2]])
                     half1_rebuilt tb1 wf_half1 eq_refl) Hinv)
    as [Hfail|(st1 & st' & _ & Hdone & _)]; [exact Hfail|].
  vm_compute in Hdone. discriminate.
Defined.

Lemma refineElements_spec_witness :
  wf_basis fresh1
  ∧ length [1; 0] `mod` (2 * length (m_deg fresh1) + 1) ≠ 0
  ∧ refineElements [1; 0] fresh1 = AssertionFailed
  ∧ length [1; 0; 2] `mod` (2 * length (m_deg fresh1) + 1) = 0
  ∧ inserted_tree (length (m_deg fresh1)) [1; 0; 2]
      (length [1; 0; 2] `div` (2 * length (m_deg fresh1) + 1))
      (m_tree fresh1) = Some (m_tree half1)
  ∧ (∃ st', refineElements [1; 0; 2] fresh1 = Ok st' ∧ wf_basis st'
       ∧ m_deg st' = m_deg fresh1
       ∧ m_bases fresh1 `prefix_of` m_bases st'
       ∧ m_tree st' = tree_makeCompressed (m_tree half1)
       ∧ getMaxInsLevel (m_tree half1) < length (m_bases st')
       ∧ m_xmatrix st'
         = imap (level_set (m_tree st') (m_deg st')) (m_bases st')
       ∧ m_xmatrix_offset st' = compute_offsets (m_xmatrix st'))
  ∧ length [1; 2; 0] `mod` (2 * length (m_deg fresh1) + 1) = 0
  ∧ inserted_tree (length (m_deg fresh1)) [1; 2; 0]
      (length [1; 2; 0] `div` (2 * length (m_deg fresh1) + 1))
      (m_tree fresh1) = None
  ∧ refineElements [1; 2; 0] fresh1 = AssertionFailed.
Proof.
  assert (length [1; 0] `mod` (2 * length (m_deg fresh1) + 1) ≠ 0) as Hbad
    by (vm_compute; discriminate).
  split; [exact wf_half1|]. split; [exact Hbad|].
  split.
  { exact (proj1 (refineElements_spec [1; 0] fresh1 wf_half1) Hbad). }
  split; [reflexivity|]. split; [reflexivity|].
  split.
  { exact (proj2 (refineElements_spec [1; 0; 2] fresh1 wf_half1) eq_refl). }
  split; [reflexivity|]. split; [reflexivity|].
  exact (proj2 (refineElements_spec [1; 2; 0] fresh1 wf_half1) eq_refl).
Defined.

Lemma hierarchical_numbering_witness :
  m_xmatrix_offset half1_rebuilt = compute_offsets (m_xmatrix half1_rebuilt)
  ∧ Forall (StronglySorted lt) (m_xmatrix half1_rebuilt)
  ∧ (Z.of_nat (length (m_xmatrix half1_rebuilt)) ≤ INT_MAX)%Z
  ∧ (Z.of_nat (sum_list (length <$> m_xmatrix half1_rebuilt)) ≤ INT_MAX)%Z
  ∧ size half1_rebuilt
    = Ok (sum_list (length <$> m_xmatrix half1_rebuilt))
  ∧ (∀ l i h, (- 2 ^ 31 ≤ l ≤ INT_MAX)%Z →
       flatTensorIndexToHierachicalIndex half1_rebuilt i l = Ok h →
       h = (-1)%Z
       ∨ (0 ≤ h
          < Z.of_nat (sum_list (length <$> m_xmatrix half1_rebuilt)))%Z)
  ∧ (∀ l1 l2 i1 i2 h,
       (- 2 ^ 31 ≤ l1 ≤ INT_MAX)%Z → (- 2 ^ 31 ≤ l2 ≤ INT_MAX)%Z →
       h ≠ (-1)%Z →
       flatTensorIndexToHierachicalIndex half1_rebuilt i1 l1 = Ok h →
       flatTensorIndexToHierachicalIndex half1_rebuilt i2 l2 = Ok h →
       l1 = l2 ∧ i1 = i2)
  ∧ (∀ h, h < sum_list (length <$> m_xmatrix half1_rebuilt) →
       ∃ l i, l < length (m_xmatrix half1_rebuilt)
         ∧ flatTensorIndexToHierachicalIndex half1_rebuilt i (Z.of_nat l)
           = Ok (Z.of_nat h)).
Proof.
  assert (Forall (StronglySorted lt) (m_xmatrix half1_rebuilt)) as Hs
    by (repeat constructor; lia).
  assert (Z.of_nat (length (m_xmatrix half1_rebuilt)) ≤ INT_MAX)%Z as Hn
    by (unfold INT_MAX; simpl; lia).
  assert (Z.of_nat (sum_list (length <$> m_xmatrix half1_rebuilt))
          ≤ INT_MAX)%Z as Ht
    by (unfold INT_MAX; simpl; lia).
  split; [reflexivity|]. split; [exact Hs|]. split; [exact Hn|].
  split; [exact Ht|].
  exact (hierarchical_numbering half1_rebuilt eq_refl Hs Hn Ht).
Defined.

Lemma transfer_keeps_numbering_witness :
  wf_basis half1_rebuilt
  ∧ length (m_xmatrix half1_rebuilt) = length (m_bases half1_rebuilt)
  ∧ (∃ c, c ∈ m_xmatrix half1_rebuilt ∧ c ≠ [])
  ∧ (Z.of_nat (length (m_xmatrix half1_rebuilt)) ≤ INT_MAX)%Z
  ∧ (Z.of_nat (length (m_xmatrix fresh1_rebuilt)) < INT_MAX)%Z
  ∧ ∃ st1 st2,
      transfer (m_xmatrix fresh1_rebuilt) half1_rebuilt = Ok st1
      ∧ transfer2 (m_xmatrix fresh1_rebuilt) half1_rebuilt = Ok st2
      ∧ m_xmatrix_offset st1 = m_xmatrix_offset half1_rebuilt
      ∧ m_xmatrix_offset st2 = m_xmatrix_offset half1_rebuilt
      ∧ size st1 = size half1_rebuilt ∧ size st2 = size half1_rebuilt
      ∧ ∀ i l, (- 2 ^ 31 ≤ l ≤ INT_MAX)%Z →
          flatTensorIndexToHierachicalIndex st1 i l
          = flatTensorIndexToHierachicalIndex half1_rebuilt i l
          ∧ flatTensorIndexToHierachicalIndex st2 i l
            = flatTensorIndexToHierachicalIndex half1_rebuilt i l.
Proof.
  assert (∃ c, c ∈ m_xmatrix half1_rebuilt ∧ c ≠ []) as Hne.
  { exists [1; 2]. split; [|discriminate]. simpl. by left. }
  assert (Z.of_nat (length (m_xmatrix half1_rebuilt)) ≤ INT_MAX)%Z as Hn
    by (unfold INT_MAX; simpl; lia).
  assert (Z.of_nat (length (m_xmatrix fresh1_rebuilt)) < INT_MAX)%Z as Ho
    by (unfold INT_MAX; simpl; lia).
  split; [exact wf_half1|]. split; [reflexivity|]. split; [exact Hne|].
  split; [exact Hn|]. split; [exact Ho|].
  exact (transfer_keeps_numbering (m_xmatrix fresh1_rebuilt) half1_rebuilt
           wf_half1 eq_refl Hne Hn Ho).
Defined.



Lemma sunk_box_nonempty_witness :
  Forall (λ kv, StronglySorted Qlt (kv_values kv)
                ∧ domain_begin kv < domain_end kv
                ∧ (Z.of_nat (domain_end kv) + 1 < 2 ^ 32)%Z) tb1_fine
  ∧ Forall2 Qle ([1 # 4], [3 # 2]).1 ([1 # 4], [3 # 2]).2
  ∧ box_in_domain tb1_fine ([1 # 4], [3 # 2]) = true
  ∧ sunk_box tb1_fine ([1 # 4], [3 # 2]) = ([1], [6])
  ∧ Forall2 lt (sunk_box tb1_fine ([1 # 4], [3 # 2])).1
      (sunk_box tb1_fine ([1 # 4], [3 # 2])).2
  ∧ length (sunk_box tb1_fine ([1 # 4], [3 # 2])).1
    = length tb1_fine `min` length ([1 # 4], [3 # 2]).1
  ∧ ∀ j kv lo hi, tb1_fine !! j = Some kv →
      ([1 # 4], [3 # 2]).1 !! j = Some lo →
      ([1 # 4], [3 # 2]).2 !! j = Some hi →
      (Z.of_nat (domain_begin kv) ≤ (corner_indices kv lo hi).1)%Z
      ∧ ((corner_indices kv lo hi).1 ≤ (corner_indices kv lo hi).2)%Z
      ∧ ((corner_indices kv lo hi).2 ≤ Z.of_nat (domain_end kv))%Z
      ∧ ∃ k1 k2, (sunk_box tb1_fine ([1 # 4], [3 # 2])).1 !! j = Some k1
          ∧ (sunk_box tb1_fine ([1 # 4], [3 # 2])).2 !! j = Some k2
          ∧ k1 < k2 ∧ k2 ≤ domain_end kv + 1.
Proof.
  assert (Forall (λ kv, StronglySorted Qlt (kv_values kv)
                        ∧ domain_begin kv < domain_end kv
                        ∧ (Z.of_nat (domain_end kv) + 1 < 2 ^ 32)%Z) tb1_fine)
    as Hknots.
  { repeat constructor. }
  assert (Forall2 Qle ([1 # 4], [3 # 2]).1 ([1 # 4], [3 # 2]).2) as Hbox.
  { repeat constructor. discriminate. }
  split; [exact Hknots|]. split; [exact Hbox|]. split; [reflexivity|].
  split; [reflexivity|].
  exact (sunk_box_nonempty tb1_fine ([1 # 4], [3 # 2]) Hknots Hbox eq_refl).
Defined.

Lemma refineSide_total_witness :
  wf_basis half1_rebuilt ∧ m_bases half1_rebuilt !! 0 = Some tb1
  ∧ tb_support tb1 = Some ([0 # 1], [2 # 1])
  ∧ Forall2 Qle [0 # 1] [2 # 1] ∧ 0 < length tb1
  ∧ (∃ rf, side_box tb1 0 true = Some rf
       ∧ rf.1 !! 0 = rf.2 !! 0
       ∧ (∀ j, j ≠ 0 →
            rf.1 !! j = [0 # 1] !! j ∧ rf.2 !! j = [2 # 1] !! j)
       ∧ box_in_domain tb1 rf = true)
  ∧ refineSide 0 true (-1) half1_rebuilt = Undefined
  ∧ refineSide 0 true 0 half1_rebuilt = Ok half1_rebuilt
  ∧ ∃ st', refineSide 0 true 2 half1_rebuilt = Ok st' ∧ wf_basis st'
      ∧ m_deg st' = m_deg half1_rebuilt
      ∧ m_bases half1_rebuilt `prefix_of` m_bases st'
      ∧ ((0 < 2)%Z →
         m_xmatrix st'
         = imap (level_set (m_tree st') (m_deg st')) (m_bases st')
         ∧ m_xmatrix_offset st' = compute_offsets (m_xmatrix st')).
Proof.
  assert (Forall2 Qle [0 # 1] [2 # 1]) as Hle.
  { repeat constructor. discriminate. }
  assert (0 < length tb1) as Hdir by (simpl; lia).
  assert (0 ≤ 2)%Z as Hlvl by lia.
  split; [exact wf_half1|]. split; [reflexivity|]. split; [reflexivity|].
  split; [exact Hle|]. split; [exact Hdir|].
  split.
  { exact (proj1 (refineSide_total 0 true 0 half1_rebuilt tb1 [0 # 1] [2 # 1]
                    wf_half1 eq_refl eq_refl Hle Hdir)). }
  split.
  { refine (proj1 (proj2 (refineSide_total 0 true (-1) half1_rebuilt tb1
                            [0 # 1] [2 # 1] wf_half1 eq_refl eq_refl
                            Hle Hdir)) _). lia. }
  split.
  { exact (proj1 (proj2 (proj2 (refineSide_total 0 true 0 half1_rebuilt tb1
                                  [0 # 1] [2 # 1] wf_half1 eq_refl eq_refl
                                  Hle Hdir))) eq_refl). }
  destruct (proj2 (proj2 (proj2 (refineSide_total 0 true 2 half1_rebuilt tb1
                                   [0 # 1] [2 # 1] wf_half1 eq_refl eq_refl
                                   Hle Hdir))) Hlvl) as [Hfail|Hdone];
    [|exact Hdone].
  vm_compute in Hfail. discriminate.
Defined.

Lemma uniformRefine_outcomes_witness :
  wf_basis half1_rebuilt
  ∧ getMaxInsLevel (m_tree half1_rebuilt) < length (m_bases half1_rebuilt)
  ∧ 2 ≤ length (m_bases half1_rebuilt)
  ∧ ∃ st', uniformRefine 1 1 half1_rebuilt = Ok st' ∧ wf_basis st'
      ∧ m_deg st' = m_deg half1_rebuilt
      ∧ m_tree st'
        = tree_makeCompressed (multiplyByTwo (m_tree half1_rebuilt))
      ∧ length (m_bases st')
        = length (m_bases half1_rebuilt)
            `max` (getMaxInsLevel (multiplyByTwo (m_tree half1_rebuilt)) + 1)
      ∧ (∀ i b, m_bases half1_rebuilt !! S i = Some b →
           m_bases st' !! i = Some b)
      ∧ (∀ bl, last (m_bases half1_rebuilt) = Some bl →
           m_bases st' !! (length (m_bases half1_rebuilt) - 1)
           = Some (tb_uniformRefine 1 bl))
      ∧ m_xmatrix st'
        = imap (level_set (m_tree st') (m_deg st')) (m_bases st')
      ∧ m_xmatrix_offset st' = compute_offsets (m_xmatrix st').
Proof.
  assert (getMaxInsLevel (m_tree half1_rebuilt)
          < length (m_bases half1_rebuilt)) as Hm by (vm_compute; lia).
  assert (2 ≤ length (m_bases half1_rebuilt)) as H2 by (simpl; lia).
  split; [exact wf_half1|]. split; [exact Hm|]. split; [exact H2|].
  exact (proj2 (proj2 (uniformRefine_outcomes 1 half1_rebuilt wf_half1))
           Hm H2).
Defined.

Lemma rebuilt_passes_uniformRefine_witness :
  wf_basis half1 ∧ update_structure half1 = Ok half1_rebuilt
  ∧ getMaxInsLevel (m_tree half1_rebuilt) < length (m_bases half1_rebuilt)
  ∧ (2 ≤ length (m_bases half1_rebuilt) →
     ∃ st'', uniformRefine 1 1 half1_rebuilt = Ok st'' ∧ wf_basis st''
       ∧ m_tree st''
         = tree_makeCompressed
             (multiplyByTwo (tree_makeCompressed (m_tree half1)))).
Proof.
  split; [exact wf_half1|]. split; [exact update_structure_half1|].
  exact (@rebuilt_passes_uniformRefine T3 (cell_tree_laws 3) 1 half1
           half1_rebuilt wf_half1 update_structure_half1).
Defined.

Lemma fromTensorIndex_flat_witness :
  Forall2 lt [1; 2] [3; 4]
  ∧ (Z.of_nat (foldr Nat.mul 1 [3; 4])%nat ≤ INT_MAX)%Z
  ∧ fromTensorIndex [1; 2] [3; 4] = Z.of_nat (index_in [3; 4] [1; 2])
  ∧ (0 ≤ fromTensorIndex [1; 2]%nat [3; 4]%nat
     < Z.of_nat (foldr Nat.mul 1 [3; 4])%nat)%Z
  ∧ tensor_of [3; 4] (Z.to_nat (fromTensorIndex [1; 2] [3; 4])) = [1; 2]
  ∧ ∀ idx', Forall2 lt idx' [3; 4] →
      fromTensorIndex idx' [3; 4] = fromTensorIndex [1; 2] [3; 4] →
      idx' = [1; 2].
Proof.
  assert (Forall2 lt [1; 2] [3; 4]) as Hidx by (repeat constructor; lia).
  assert (Z.of_nat (foldr Nat.mul 1 [3; 4])%nat ≤ INT_MAX)%Z as Hfit
    by (unfold INT_MAX; simpl; lia).
  split; [exact Hidx|]. split; [exact Hfit|].
  exact (fromTensorIndex_flat [1; 2] [3; 4] Hidx Hfit).
Defined.

Lemma tensorStrides_dot_witness :
  Forall2 lt [1; 2] [3; 4] ∧ [3; 4] ≠ []
  ∧ (Z.of_nat (foldr Nat.mul 1 [3; 4])%nat ≤ INT_MAX)%Z
  ∧ tensorStrides [] = Undefined
  ∧ ∃ strides, tensorStrides (Z.of_nat <$> [3; 4]) = Ok strides
      ∧ length strides = length [3; 4]
      ∧ strides !! 0 = Some 1%Z
      ∧ foldr Z.add 0%Z (zip_with Z.mul strides (Z.of_nat <$> [1; 2]))
        = fromTensorIndex [1; 2] [3; 4].
Proof.
  assert (Forall2 lt [1; 2] [3; 4]) as Hidx by (repeat constructor; lia).
  assert ([3; 4] ≠ @nil nat) as Hne by discriminate.
  assert (Z.of_nat (foldr Nat.mul 1 [3; 4])%nat ≤ INT_MAX)%Z as Hfit
    by (unfold INT_MAX; simpl; lia).
  split; [exact Hidx|]. split; [exact Hne|]. split; [exact Hfit|].
  exact (tensorStrides_dot [1; 2] [3; 4] Hidx Hne Hfit).
Defined.

Lemma refine_refExt0_agrees_witness :
  wf_basis half1_rebuilt
  ∧ refine_refExt0 (matrix_of_columns 1 [[3 # 4]; [3 # 4]]) half1_rebuilt
    = refine (matrix_of_columns 1 [[3 # 4]; [3 # 4]]) half1_rebuilt
  ∧ refine (matrix_of_columns 1 [[3 # 4]; [3 # 4]]) half1_rebuilt
    ≠ Undefined.
Proof.
  split; [exact wf_half1|].
  exact (@refine_refExt0_agrees T3 (cell_tree_laws 3)
           (cell_tree_query_laws 3) (matrix_of_columns 1 [[3 # 4]; [3 # 4]])
           half1_rebuilt wf_half1).
Defined.

Lemma refineElements_half1 : refineElements [1; 0; 2] fresh1 = Ok half1_rebuilt.
Proof. vm_compute. reflexivity. Defined.

Lemma refineElements_withTransfer_spec_witness :
  wf_basis fresh1 ∧ refineElements [1; 0; 2] fresh1 = Ok half1_rebuilt
  ∧ (∃ c, c ∈ m_xmatrix half1_rebuilt ∧ c ≠ [])
  ∧ ∃ st2 k, refineElements_withTransfer [1; 0; 2] fresh1 = Ok st2
      ∧ length (m_xmatrix st2) = length (m_bases st2)
      ∧ m_xmatrix half1_rebuilt = m_xmatrix st2 ++ replicate k []
      ∧ (∃ c, last (m_xmatrix st2) = Some c ∧ c ≠ [])
      ∧ m_tree st2 = m_tree half1_rebuilt
      ∧ m_xmatrix_offset st2 = m_xmatrix_offset half1_rebuilt
      ∧ size st2 = Ok (sum_list (length <$> m_xmatrix st2)).
Proof.
  assert (∃ c, c ∈ m_xmatrix half1_rebuilt ∧ c ≠ []) as Hne.
  { exists [1; 2]. split; [|discriminate]. simpl. by left. }
  split; [exact wf_half1|]. split; [exact refineElements_half1|].
  split; [exact Hne|].
  exact (proj1 (refineElements_withTransfer_spec [1; 0; 2] fresh1
                  half1_rebuilt wf_half1 refineElements_half1) Hne).
Defined.

Lemma makeCompressed_keeps_numbering_witness :
  m_xmatrix_offset full1_rebuilt = compute_offsets (m_xmatrix full1_rebuilt)
  ∧ length (m_bases full1_rebuilt) = length (m_xmatrix full1_rebuilt)
  ∧ (∃ i c, m_xmatrix full1_rebuilt !! i = Some c ∧ c ≠ [])
  ∧ (Z.of_nat (length (m_xmatrix full1_rebuilt)) ≤ INT_MAX)%Z
  ∧ ∃ n st', makeCompressed full1_rebuilt = Ok st'
      ∧ n < length (m_xmatrix full1_rebuilt)
      ∧ length (m_xmatrix st') = length (m_xmatrix full1_rebuilt) - n
      ∧ (∀ j, j < n → m_xmatrix full1_rebuilt !! j = Some [])
      ∧ ∀ i l, (0 ≤ l)%Z → (l + Z.of_nat n ≤ INT_MAX)%Z →
          flatTensorIndexToHierachicalIndex st' i l
          = flatTensorIndexToHierachicalIndex full1_rebuilt i
              (l + Z.of_nat n).
Proof.
  assert (∃ i c, m_xmatrix full1_rebuilt !! i = Some c ∧ c ≠ []) as Hne
    by (exists 1, [0; 1; 2; 3; 4]; split; [reflexivity|discriminate]).
  assert (Z.of_nat (length (m_xmatrix full1_rebuilt)) ≤ INT_MAX)%Z as Hfit
    by (unfold INT_MAX; simpl; lia).
  split; [reflexivity|]. split; [reflexivity|]. split; [exact Hne|].
  split; [exact Hfit|].
  exact (makeCompressed_keeps_numbering full1_rebuilt eq_refl eq_refl
           Hne Hfit).
Defined.
